(** * A shallow embedding of the [jsonpath] package

    The Go package compiles a JSONPath-like expression into a list of steps
    ([Compile]), evaluates such a program on a decoded JSON value
    ([Compiled.Lookup]) and writes through it ([Set], [Del], [Append]).
    This file embeds the tokenizer, the step compiler, the evaluator with
    its filter sub-evaluator, [Set] and [Del], and states the properties
    of the package's specification about them, then further properties
    of the code.  [Append] is left out: it compares two [reflect.Value]
    headers with [reflect.DeepEqual] and grows slices with
    [reflect.Append], and what these do depends on the capacity of the
    slices and on how [reflect] boxes them, which the store below does
    not record.

    Conventions of the embedding.

    - A Go [string] is a Rocq [string], a sequence of bytes.  The loops of
      [tokenize] and [parse_filter] range over runes; on valid UTF-8 text
      ranging over bytes appends the same bytes to the token under
      construction and takes the same branches, because every character
      these loops test for is ASCII and no byte of a multi-byte rune is.
      The white space [strings.TrimSpace] removes and the runes
      [regFilterCompile] counts are read off the bytes of the encoding.
    - A Go [int] is a [Z]; where an addition can leave the 64-bit range
      the wrap-around is written out ([wrap64]).
    - The value tree lives in a store ([heap]): maps and the backing arrays
      of slices are cells, a map value is the address of its cell and a
      slice value is an address with an offset and a length, so that a
      write through one handle is seen through every other one.  The
      values are those of a decoded JSON document; pointers to them and
      natively typed maps and slices, which the package also reaches
      through [reflect], are outside the model.
    - A function that can return an error, panic, or (in the model only)
      exhaust its fuel returns an [outcome].  A computation that reads or
      writes the store is a function from the store to an outcome and the
      store it leaves ([M]).
    - The libraries [regexp] and [go/types], which [get_filtered] and
      [cmpAny] call, are an interface ([GoLibs]); no property below depends
      on what they compute.  The order in which [reflect] lists the keys
      of a map, which Go does not specify, belongs to the same interface:
      the properties hold for every order. *)

From Stdlib Require Import ZArith Ascii String List Lia Bool.
From stdpp Require Import base option list strings gmap.

Local Open Scope string_scope.
Local Open Scope list_scope.
Local Open Scope Z_scope.

(** ** Go strings *)

Module GoStr.

(** [strings.Index(s, c)] for a one-byte needle; [None] is Go's [-1]. *)
Fixpoint Index (c : ascii) (s : string) : option nat :=
  match s with
  | EmptyString => None
  | String a s' => if Ascii.eqb a c then Some 0%nat else S <$> Index c s'
  end.

(** [strings.LastIndex(s, c)] for a one-byte needle. *)
Fixpoint LastIndex (c : ascii) (s : string) : option nat :=
  match s with
  | EmptyString => None
  | String a s' =>
      match LastIndex c s' with
      | Some i => Some (S i)
      | None => if Ascii.eqb a c then Some 0%nat else None
      end
  end.

(** [strings.Contains(s, c)] for a one-byte needle. *)
Definition Contains (c : ascii) (s : string) : bool :=
  match Index c s with Some _ => true | None => false end.

Definition HasPrefix (s p : string) : bool := String.prefix p s.

Fixpoint drop (n : nat) (s : string) : string :=
  match n, s with
  | O, _ => s
  | S n', String _ s' => drop n' s'
  | S _, EmptyString => EmptyString
  end.

Definition HasSuffix (s suf : string) : bool :=
  (String.length suf <=? String.length s)%nat
  && String.eqb (drop (String.length s - String.length suf) s) suf.

(** The slice expression [s[a:b]]; [None] is the run-time panic Go raises
    when the bounds are not ordered or exceed the length. *)
Definition slice (s : string) (a b : nat) : option string :=
  if ((a <=? b) && (b <=? String.length s))%nat
  then Some (String.substring a (b - a) s)
  else None.

(** [strings.Split(s, c)] for a one-byte separator: never an empty list. *)
Fixpoint Split (c : ascii) (s : string) : list string :=
  match s with
  | EmptyString => [EmptyString]
  | String a s' =>
      if Ascii.eqb a c then EmptyString :: Split c s'
      else match Split c s' with
           | t :: ts => String a t :: ts
           | [] => [String a EmptyString]
           end
  end.

Fixpoint trim_left (p : ascii → bool) (s : string) : string :=
  match s with
  | EmptyString => EmptyString
  | String a s' => if p a then trim_left p s' else s
  end.

Fixpoint trim_right (p : ascii → bool) (s : string) : string :=
  match s with
  | EmptyString => EmptyString
  | String a s' =>
      match trim_right p s' with
      | EmptyString => if p a then EmptyString else String a EmptyString
      | t => String a t
      end
  end.

Definition is_blank (a : ascii) : bool := Ascii.eqb a " ".

(** The white space of [unicode.IsSpace] within ASCII: tab, line feed,
    vertical tab, form feed, carriage return and space. *)
Definition is_space (a : ascii) : bool :=
  let n := N_of_ascii a in
  ((9 <=? n) && (n <=? 13))%N || (n =? 32)%N.

(** Its white space of two bytes in UTF-8: U+0085 ([C2 85]) and U+00A0
    ([C2 A0]). *)
Definition is_space2 (a b : ascii) : bool :=
  let '(m, n) := (N_of_ascii a, N_of_ascii b) in
  ((m =? 194) && ((n =? 133) || (n =? 160)))%N.

(** Its white space of three bytes: U+1680 ([E1 9A 80]), U+2000 to U+200A
    ([E2 80 80] to [E2 80 8A]), U+2028, U+2029 and U+202F ([E2 80 A8],
    [E2 80 A9], [E2 80 AF]), U+205F ([E2 81 9F]) and U+3000 ([E3 80 80]);
    there is none of four bytes. *)
Definition is_space3 (a b c : ascii) : bool :=
  let '(m, n, o) := (N_of_ascii a, N_of_ascii b, N_of_ascii c) in
  ((m =? 225) && (n =? 154) && (o =? 128)
   || (m =? 226) && (n =? 128)
      && ((128 <=? o) && (o <=? 138) || (o =? 168) || (o =? 169) || (o =? 175))
   || (m =? 226) && (n =? 129) && (o =? 159)
   || (m =? 227) && (n =? 128) && (o =? 128))%N.

(** [strings.TrimLeftFunc(s, unicode.IsSpace)]: the runes are decoded
    from the front, and a rune is white space exactly when its bytes are
    one of the encodings above. *)
Fixpoint trim_left_space (s : string) : string :=
  match s with
  | EmptyString => EmptyString
  | String a s1 =>
      if is_space a then trim_left_space s1
      else
        match s1 with
        | EmptyString => s
        | String b s2 =>
            if is_space2 a b then trim_left_space s2
            else
              match s2 with
              | EmptyString => s
              | String c s3 => if is_space3 a b c then trim_left_space s3 else s
              end
        end
  end.

(** [strings.TrimRightFunc(s, unicode.IsSpace)] on the bytes of [s] taken
    from the last one: [utf8.DecodeLastRuneInString] steps back to the
    byte that starts the last rune, so the text ends in a white-space
    rune exactly when it ends in one of the encodings above. *)
Fixpoint trim_left_space_rev (s : string) : string :=
  match s with
  | EmptyString => EmptyString
  | String c s1 =>
      if is_space c then trim_left_space_rev s1
      else
        match s1 with
        | EmptyString => s
        | String b s2 =>
            if is_space2 b c then trim_left_space_rev s2
            else
              match s2 with
              | EmptyString => s
              | String a s3 => if is_space3 a b c then trim_left_space_rev s3 else s
              end
        end
  end.

(** [strings.Trim(s, " ")]. *)
Definition Trim (s : string) : string := trim_right is_blank (trim_left is_blank s).

(** [strings.TrimSpace]: the white space of Unicode is removed at both
    ends, at the front first. *)
Definition TrimSpace (s : string) : string :=
  String.rev (trim_left_space_rev (String.rev (trim_left_space s))).

(** [len([]rune(s))] for a text in UTF-8: its bytes that do not continue
    a rune (the bytes [80] to [BF] do). *)
Fixpoint RuneCount (s : string) : nat :=
  match s with
  | EmptyString => 0
  | String a s' =>
      let n := N_of_ascii a in
      if ((128 <=? n) && (n <? 192))%N then RuneCount s' else S (RuneCount s')
  end.

Definition digit_of (a : ascii) : option Z :=
  let n := N_of_ascii a in
  if ((48 <=? n) && (n <=? 57))%N then Some (Z.of_N n - 48) else None.

Fixpoint digits (acc : Z) (s : string) : option Z :=
  match s with
  | EmptyString => Some acc
  | String a s' =>
      match digit_of a with
      | Some d => digits (10 * acc + d) s'
      | None => None
      end
  end.

Definition min_int : Z := - 2 ^ 63.
Definition max_int : Z := 2 ^ 63 - 1.

(** [strconv.Atoi]: an optional sign, at least one decimal digit, nothing
    else, and a value that fits a 64-bit [int]; [None] is its error. *)
Definition Atoi (s : string) : option Z :=
  let '(neg, body) :=
    match s with
    | String "-" s' => (true, s')
    | String "+" s' => (false, s')
    | _ => (false, s)
    end in
  match body with
  | EmptyString => None
  | _ =>
      match digits 0 body with
      | Some n =>
          let v := if neg then - n else n in
          if (min_int <=? v) && (v <=? max_int) then Some v else None
      | None => None
      end
  end.

End GoStr.

(** Two's-complement wrap-around of a 64-bit [int]. *)
Definition wrap64 (z : Z) : Z := (z + 2 ^ 63) mod 2 ^ 64 - 2 ^ 63.

(** ** Errors and outcomes *)

(** One constructor per error the package builds; the payload is what the
    message is formatted from. *)
Inductive error : Type :=
  | ErrGetFromNullObj                      (* "get attribute from null object" *)
  | NotExist (key : string)                (* the NotExist struct *)
  | ErrShouldStartWithRoot                 (* tokenize: "should start with '$'" *)
  | ErrRootInFront                         (* "$ or @ should in front of path" *)
  | ErrTailTooShort (tail : string)        (* "len(tail) should >=3" *)
  | ErrFilterParenthesis (tail : string)   (* "invalid filter must contains parenthesis" *)
  | ErrInvalidFilterToken (tail : string)  (* parse_token: "invalid filter: ..." *)
  | ErrOneRange (tail : string)            (* "only support one range(from, to)" *)
  | ErrAtoi (text : string)                (* the error of strconv.Atoi *)
  | ErrEmptyIndex                          (* "cannot index on empty slice" *)
  | ErrRangeArgs                           (* "range args length should be 2" *)
  | ErrNotSupportedInFilter                (* "expression don't support in filter" *)
  | ErrInvalidExpression                   (* "extracted invalid expression" *)
  | ErrMultipleIndexInFilter               (* "don't support multiple index in filter" *)
  | ErrNotMapOrSlice                       (* "object is not map or slice" *)
  | ErrNotSlice                            (* "object is not Slice" *)
  | ErrIndexOutOfRange (len idx : Z)       (* "index out of range: len: .., idx: .." *)
  | ErrFromOutOfRange (len : Z)            (* "index [from] out of range" *)
  | ErrToOutOfRange (len : Z)              (* "index [to] out of range" *)
  | ErrEmptyRule                           (* regFilterCompile: "empty rule" *)
  | ErrRuleSyntax                          (* "invalid syntax. should be in `/pattern/` form" *)
  | ErrRegexp (pattern : string)           (* the error of regexp.Compile *)
  | ErrFilterType                          (* "don't support filter on this type" *)
  | ErrInvalidChar (idx : nat)             (* parse_filter: "invalid char at .." *)
  | ErrRegexpOperand                       (* "only string can match with regular expression" *)
  | ErrInvalidOperand (lp : string)        (* get_lp_v: "invalid filter .." *)
  | ErrNotImplemented                      (* eval_filter: "not implemented yet" *)
  | ErrInvalidOperation (op : string)      (* cmpAny: "invalid filter operation" *)
  | ErrTypesEval                           (* an error of go/types.Eval *)
  | ErrIncorrectSetPath (path : string)    (* Set: "incorrect set path .." *)
  | ErrSetNotSupported                     (* Set: ".. expression don't support in set" *)
  | ErrCouldNotSet (path : string).        (* Set: "could not set value at path" *)

(** The taxonomy of the specification. *)
Inductive error_kind : Type :=
  | SyntaxError | KindNotExist | NullTraversal | TypeMismatch | RangeError | EvalError.

Definition kind_of (e : error) : error_kind :=
  match e with
  | ErrGetFromNullObj => NullTraversal
  | NotExist _ => KindNotExist
  | ErrShouldStartWithRoot | ErrRootInFront | ErrTailTooShort _
  | ErrFilterParenthesis _ | ErrInvalidFilterToken _ | ErrOneRange _
  | ErrAtoi _ | ErrEmptyRule | ErrRuleSyntax | ErrRegexp _ => SyntaxError
  | ErrInvalidChar _ => SyntaxError
  | ErrNotMapOrSlice | ErrNotSlice | ErrFilterType | ErrRegexpOperand => TypeMismatch
  | ErrIndexOutOfRange _ _ | ErrFromOutOfRange _ | ErrToOutOfRange _ => RangeError
  | _ => EvalError
  end.

(** What a call can end in.  [Panic] is a Go run-time panic; [OutOfFuel]
    belongs to the model only (the recursive functions take a bound on
    their recursion depth). *)
Inductive outcome (A : Type) : Type :=
  | Ok (a : A)
  | Err (e : error)
  | Panic
  | OutOfFuel.
Arguments Ok {A} a.
Arguments Err {A} e.
Arguments Panic {A}.
Arguments OutOfFuel {A}.

#[global] Instance outcome_ret : MRet outcome := fun _ a => Ok a.

#[global] Instance outcome_bind : MBind outcome := fun _ _ f x =>
  match x with
  | Ok a => f a
  | Err e => Err e
  | Panic => Panic
  | OutOfFuel => OutOfFuel
  end.

(** An index expression or slice expression that Go checks at run time. *)
Definition or_panic {A} (x : option A) : outcome A :=
  match x with Some a => Ok a | None => Panic end.

(** ** Steps and programs *)

(** The [op] field of a step.  [OpNone] is the empty string a failing
    [parse_token] leaves in it. *)
Inductive opcode : Type :=
  | OpNone | OpRoot | KeyOp | IndexOp | RangeOp | FilterOp | ExpressionOp | OpScan.

(** The dynamic types the [args] field holds: [nil], a [string], an
    [[]int], or a [[2]interface{}] whose entries are [nil] or an [int]. *)
Inductive step_args : Type :=
  | ArgNil
  | ArgStr (s : string)
  | ArgInts (l : list Z)
  | ArgRange (frm to : option Z).

Record step : Type := Step { op : opcode; key : string; args : step_args }.

Record Compiled : Type := MkCompiled { path : string; steps : list step }.

(** ** The tokenizer *)

Section Tokenizer.

Definition last_is_star (tokens : list string) : outcome bool :=
  t ← or_panic (last tokens); Ok (String.eqb t "*").

Definition starts_with_dot (token : string) : bool :=
  match token with
  | String "." _ => true
  | _ => false
  end.

(** The body of the loop of [tokenize] for a byte after the first one.
    The state is the pair of [tokens] and [token]. *)
Definition tokenize_step (st : list string * string) (x : ascii)
  : outcome (list string * string) :=
  let '(tokens, token0) := st in
  let token := token0 +:+ String x EmptyString in
  let len := String.length token in
  if String.eqb token "." then Ok (tokens, token)
  else if String.eqb token ".." then
    star ← last_is_star tokens;
    Ok ((if star : bool then tokens else tokens ++ ["*"]), ".")
  else if GoStr.Contains "[" token then
    if Ascii.eqb x "]" && negb (GoStr.HasSuffix token "\]") then
      t ← or_panic (if starts_with_dot token then GoStr.slice token 1 len
                    else Some token);
      Ok (tokens ++ [t], "")
    else Ok (tokens, token)
  else
    if Ascii.eqb x "." then
      t ← or_panic (if starts_with_dot token then GoStr.slice token 1 (len - 1)
                    else GoStr.slice token 0 (len - 1));
      Ok (tokens ++ [t], ".")
    else Ok (tokens, token).

Fixpoint tokenize_loop (st : list string * string) (rest : string)
  : outcome (list string * string) :=
  match rest with
  | EmptyString => Ok st
  | String x rest' => st' ← tokenize_step st x; tokenize_loop st' rest'
  end.

(** What [tokenize] does with the token left when the input ends. *)
Definition tokenize_flush (st : list string * string) : outcome (list string) :=
  let '(tokens, token) := st in
  match token with
  | EmptyString => Ok tokens
  | _ =>
      token ← or_panic (if starts_with_dot token
                        then GoStr.slice token 1 (String.length token)
                        else Some token);
      if negb (String.eqb token "*") then Ok (tokens ++ [token])
      else star ← last_is_star tokens;
           Ok (if star : bool then tokens else tokens ++ [token])
  end.

Definition tokenize (query : string) : outcome (list string) :=
  match query with
  | EmptyString => Ok []
  | String x rest =>
      if Ascii.eqb x "$" || Ascii.eqb x "@" then
        st ← tokenize_loop ([String x EmptyString], "") rest;
        tokenize_flush st
      else Err ErrShouldStartWithRoot
  end.

End Tokenizer.

(** ** The step compiler *)

Section StepCompiler.

Definition checkFilter (filter : string) : bool :=
  GoStr.HasPrefix filter "@." || GoStr.HasPrefix filter "$.".

(** The text between the first [(] and the last [)], trimmed; the slice
    expression panics when the last [)] comes before the first [(]. *)
Definition extractExpression (expr : string) : outcome (string * bool) :=
  match GoStr.Index "(" expr, GoStr.LastIndex ")" expr with
  | Some first, Some last =>
      inner ← or_panic (GoStr.slice expr (first + 1) last);
      let expr := GoStr.TrimSpace inner in
      Ok (expr, checkFilter expr)
  | _, _ => Ok ("", false)
  end.

(** One side of a range token: the bound and the [err] the assignment
    [bound, err = strconv.Atoi(..)] and the [if] under it leave. *)
Definition range_bound (side : string) : option Z * option error :=
  let text := GoStr.Trim side in
  match GoStr.Atoi text with
  | Some n => (Some n, None)
  | None => (None, if String.eqb text "" then None else Some (ErrAtoi text))
  end.

(** The loop of the index case: every piece must be an integer. *)
Fixpoint parse_indices (pieces : list string) (res : list Z)
  : list Z + error :=
  match pieces with
  | [] => inl res
  | x :: rest =>
      match GoStr.Atoi (GoStr.Trim x) with
      | Some i => parse_indices rest (res ++ [i])
      | None => inr (ErrAtoi (GoStr.Trim x))
      end
  end.

(** [parse_token] returns its four results whether or not [err] is set;
    the step carries [op], [key] and [args], the option is [err]. *)
Definition parse_token (token : string) : outcome (step * option error) :=
  if String.eqb token "$" then Ok (Step OpRoot "$" ArgNil, None)
  else if String.eqb token "*" then Ok (Step OpScan "*" ArgNil, None)
  else
    match GoStr.Index "[" token with
    | None => Ok (Step KeyOp token ArgNil, None)
    | Some bracket_idx =>
        key ← or_panic (GoStr.slice token 0 bracket_idx);
        tail ← or_panic (GoStr.slice token bracket_idx (String.length token));
        if (String.length tail <? 3)%nat then
          Ok (Step OpNone key ArgNil, Some (ErrTailTooShort tail))
        else
          tail ← or_panic (GoStr.slice tail 1 (String.length tail - 1));
          tail0 ← or_panic (String.get 0 tail);
          if Ascii.eqb tail0 "'" && (2 <? String.length tail)%nat then
            sub ← or_panic (GoStr.slice tail 1 (String.length tail - 1));
            Ok (Step KeyOp key (ArgStr sub), None)
          else if GoStr.Contains "?" tail then
            match GoStr.Index "(" tail, GoStr.LastIndex ")" tail with
            | Some first, Some last =>
                inner ← or_panic (GoStr.slice tail (first + 1) last);
                let filter := GoStr.TrimSpace inner in
                Ok (Step FilterOp key (ArgStr filter),
                    if checkFilter filter then None
                    else Some (ErrInvalidFilterToken tail))
            | _, _ => Ok (Step OpNone key ArgNil, Some (ErrFilterParenthesis tail))
            end
          else
            '(expr, ok) ← extractExpression tail;
            if ok : bool then Ok (Step ExpressionOp key (ArgStr expr), None)
            else if GoStr.Contains ":" tail then
              match GoStr.Split ":" tail with
              | [t0; t1] =>
                  let '(frm, err) := range_bound t0 in
                  let '(to, err) := range_bound t1 in
                  Ok (Step RangeOp key (ArgRange frm to), err)
              | _ => Ok (Step RangeOp key ArgNil, Some (ErrOneRange tail))
              end
            else if String.eqb tail "*" then
              Ok (Step RangeOp key (ArgRange None None), None)
            else
              match parse_indices (GoStr.Split "," tail) [] with
              | inl res => Ok (Step IndexOp key (ArgInts res), None)
              | inr e => Ok (Step OpNone "" ArgNil, Some e)
              end
    end.

(** The loop of [Compile] over the tokens after the root marker. *)
Fixpoint compile_steps (tokens : list string) : outcome (list step) :=
  match tokens with
  | [] => Ok []
  | token :: rest =>
      '(s, err) ← parse_token token;
      match err with
      | Some e => Err e
      | None => ss ← compile_steps rest; Ok (s :: ss)
      end
  end.

(** [Compile]: [tokens[0]] is read without a length check, and indexing
    an empty slice panics. *)
Definition Compile (jpath : string) : outcome Compiled :=
  tokens ← tokenize jpath;
  t0 ← or_panic (tokens !! 0%nat);
  if negb (String.eqb t0 "@") && negb (String.eqb t0 "$") then Err ErrRootInFront
  else
    ss ← compile_steps (tail tokens);
    Ok (MkCompiled jpath ss).

End StepCompiler.

(** ** Values and the store *)

Abbreviation loc := nat.

(** A decoded JSON value as the package sees it through [interface{}]:
    [nil], a [bool], an [int], a [float64] (carried by its bit pattern; no
    modelled path computes with it), a [string], a
    [map[string]interface{}] (the address of the map) or a
    [[]interface{}] (backing array, offset, length). *)
Inductive value : Type :=
  | VNull
  | VBool (b : bool)
  | VInt (n : Z)
  | VFloat (bits : Z)
  | VStr (s : string)
  | VMap (l : loc)
  | VSlice (l : loc) (off len : nat).

Arguments VMap l%_nat_scope.
Arguments VSlice (l off len)%_nat_scope.

Inductive cell : Type :=
  | CMap (m : gmap string value)
  | CArray (a : list value).

Abbreviation heap := (list cell).

Definition is_nil (v : value) : bool :=
  match v with VNull => true | _ => false end.

Definition map_at (h : heap) (l : loc) : option (gmap string value) :=
  match h !! l with
  | Some (CMap m) => Some m
  | _ => None
  end.

Definition array_at (h : heap) (l : loc) : option (list value) :=
  match h !! l with
  | Some (CArray a) => Some a
  | _ => None
  end.

(** The elements a slice value denotes.  [None] is a slice that points
    outside the store, which no Go value does. *)
Definition elems (h : heap) (l : loc) (off len : nat) : option (list value) :=
  a ← array_at h l;
  if (off + len <=? length a)%nat then Some (take len (drop off a)) else None.

(** ** The store monad *)

Definition M (A : Type) : Type := heap → outcome A * heap.

#[global] Instance M_ret : MRet M := fun _ a h => (Ok a, h).

#[global] Instance M_bind : MBind M := fun _ _ f m h =>
  match m h with
  | (Ok a, h') => f a h'
  | (Err e, h') => (Err e, h')
  | (Panic, h') => (Panic, h')
  | (OutOfFuel, h') => (OutOfFuel, h')
  end.

(** A computation that only reads the store. *)
Definition reading {A} (f : heap → outcome A) : M A := fun h => (f h, h).

Definition lift {A} (o : outcome A) : M A := reading (fun _ => o).

Definition fail {A} (e : error) : M A := lift (Err e).

(** A fresh cell, at the end of the store. *)
Definition alloc (c : cell) : M loc := fun h => (Ok (length h), h ++ [c]).

(** Overwriting a cell; the address is one the caller has read from. *)
Definition store (l : loc) (c : cell) : M unit :=
  fun h => if (l <? length h)%nat then (Ok (), <[l := c]> h) else (Panic, h).

(** [res := []interface{}{}] and the [append]s that follow, once the
    contents are known. *)
Definition new_slice (res : list value) : M value :=
  l ← alloc (CArray res); mret (VSlice l 0 (length res)).

(** [v, err := f(..)] where the caller goes on after an error: the pair of
    results, with [v] the [nil] every failing return of the package gives. *)
Definition with_err (m : M value) : M (value * option error) :=
  fun h =>
    match m h with
    | (Ok v, h') => (Ok (v, None), h')
    | (Err e, h') => (Ok (VNull, Some e), h')
    | (Panic, h') => (Panic, h')
    | (OutOfFuel, h') => (OutOfFuel, h')
    end.

(** ** Reading containers *)

(** [reflect.ValueOf(obj).Index(i).Interface()] for an [i] the caller
    has checked against the length. *)
Definition reflect_Index (h : heap) (obj : value) (i : nat) : outcome value :=
  match obj with
  | VSlice l off len => es ← or_panic (elems h l off len); or_panic (es !! i)
  | _ => Panic
  end.

(** [get_idx]: [reflect.TypeOf(obj).Kind()] is a method call on a nil
    interface when [obj] is [nil]. *)
Definition get_idx (h : heap) (obj : value) (idx : Z) : outcome value :=
  match obj with
  | VNull => Panic
  | VSlice _ _ len =>
      let length := Z.of_nat len in
      if 0 <=? idx then
        if length <=? idx then Err (ErrIndexOutOfRange length idx)
        else reflect_Index h obj (Z.to_nat idx)
      else
        let _idx := length + idx in
        if _idx <? 0 then Err (ErrIndexOutOfRange length idx)
        else reflect_Index h obj (Z.to_nat _idx)
  | _ => Err ErrNotSlice
  end.

(** The bounds [_frm] and [_to] that [get_range] computes from [frm] and
    [to], each [nil] or an [int]; [tv + 1] is the one addition that can
    leave the 64-bit range. *)
Definition range_from (length : Z) (frm : option Z) : Z :=
  let fv := default 0 frm in
  if fv <? 0 then length + fv else fv.

Definition range_to (length : Z) (to : option Z) : Z :=
  let tv := default (length - 1) to in
  if tv <? 0 then length + tv + 1 else wrap64 (tv + 1).

(** [get_range]; [reflect.Value.Slice] panics when the lower bound exceeds
    the upper one. *)
Definition get_range (obj : value) (frm to : option Z) : outcome value :=
  match obj with
  | VNull => Panic
  | VSlice l off len =>
      let length := Z.of_nat len in
      let _frm := range_from length frm in
      let _to := range_to length to in
      if (_frm <? 0) || (length <=? _frm) then Err (ErrFromOutOfRange length)
      else if (_to <? 0) || (length <? _to) then Err (ErrToOutOfRange length)
      else if _to <? _frm then Panic
      else Ok (VSlice l (off + Z.to_nat _frm) (Z.to_nat (_to - _frm)))
  | _ => Err ErrNotSlice
  end.

(** The loop of the slice case of [get_key], over the indices still to
    visit: [tmp, _ := get_idx(obj, i)], then the key lookup [look] on
    [tmp], whose result is kept when it succeeds. *)
Fixpoint key_loop (look : value → M value) (obj : value) (idxs : list nat)
    (res : list value) : M (list value) :=
  match idxs with
  | [] => mret res
  | i :: rest =>
      '(tmp, _) ← with_err (reading (fun h => get_idx h obj (Z.of_nat i)));
      '(v, err) ← with_err (look tmp);
      key_loop look obj rest (match err with None => res ++ [v] | Some _ => res end)
  end.

(** [get_key].  The recursion goes through the elements of a slice; [fuel]
    bounds its depth. *)
Fixpoint get_key (fuel : nat) (obj : value) (key : string) : M value :=
  match fuel with
  | O => lift OutOfFuel
  | S fuel' =>
      match obj with
      | VNull => fail ErrGetFromNullObj
      | VMap l =>
          m ← reading (fun h => or_panic (map_at h l));
          match m !! key with
          | Some val => mret val
          | None => fail (NotExist key)
          end
      | VSlice l off len =>
          res ← key_loop (fun tmp => get_key fuel' tmp key) obj (seq 0 len) [];
          match res with
          | [] => fail (NotExist key)
          | _ => new_slice res
          end
      | _ => fail ErrNotMapOrSlice
      end
  end.

(** ** Filters *)

(** The variables of the loop of [parse_filter]. *)
Record filter_state : Type := FilterState {
  f_lp : string; f_op : string; f_rp : string;
  f_tmp : string; f_stage : nat; f_embrace : bool
}.

(** [switch stage { case 0: lp = tmp; case 1: op = tmp; case 2: rp = tmp }]. *)
Definition assign_stage (st : filter_state) : filter_state :=
  match f_stage st with
  | 0%nat => FilterState (f_tmp st) (f_op st) (f_rp st) (f_tmp st) (f_stage st) (f_embrace st)
  | 1%nat => FilterState (f_lp st) (f_tmp st) (f_rp st) (f_tmp st) (f_stage st) (f_embrace st)
  | 2%nat => FilterState (f_lp st) (f_op st) (f_tmp st) (f_tmp st) (f_stage st) (f_embrace st)
  | _ => st
  end.

Definition with_tmp (tmp : string) (st : filter_state) : filter_state :=
  FilterState (f_lp st) (f_op st) (f_rp st) tmp (f_stage st) (f_embrace st).

(** One turn of the loop of [parse_filter] on the byte [c] at offset
    [idx]; an error ends the loop. *)
Definition parse_filter_step (st : filter_state) (idx : nat) (c : ascii)
  : filter_state + error :=
  if Ascii.eqb c "'" then
    if negb (f_embrace st) then
      inl (FilterState (f_lp st) (f_op st) (f_rp st) (f_tmp st) (f_stage st) true)
    else inl (with_tmp "" (assign_stage st))
  else if Ascii.eqb c " " then
    if f_embrace st then inl (with_tmp (f_tmp st +:+ " ") st)
    else
      let st := with_tmp "" (assign_stage st) in
      let stage := S (f_stage st) in
      if (2 <? stage)%nat then inr (ErrInvalidChar idx)
      else inl (FilterState (f_lp st) (f_op st) (f_rp st) (f_tmp st) stage (f_embrace st))
  else inl (with_tmp (f_tmp st +:+ String c EmptyString) st).

Fixpoint parse_filter_loop (st : filter_state) (idx : nat) (rest : string)
  : filter_state + error :=
  match rest with
  | EmptyString => inl st
  | String c rest' =>
      match parse_filter_step st idx c with
      | inl st' => parse_filter_loop st' (S idx) rest'
      | inr e => inr e
      end
  end.

(** [parse_filter]: the left operand, the operator and the right operand. *)
Definition parse_filter (filter : string) : outcome (string * string * string) :=
  match parse_filter_loop (FilterState "" "" "" "" 0 false) 0 filter with
  | inr e => Err e
  | inl st =>
      if negb (String.eqb (f_tmp st) "") then
        match f_stage st with
        | 0%nat => Ok (f_tmp st, "exists", f_rp st)
        | 1%nat => Ok (f_lp st, f_tmp st, f_rp st)
        | 2%nat => Ok (f_lp st, f_op st, f_tmp st)
        | _ => Ok (f_lp st, f_op st, f_rp st)
        end
      else Ok (f_lp st, f_op st, f_rp st)
  end.

(** What the package takes from the Go libraries [regexp], [go/types] and
    [reflect]: compiling a pattern, matching a string against it, the
    comparison [cmpAny] obtains by printing both operands (as the store
    shows them) into a Go expression and evaluating it with [types.Eval],
    and the order in which [reflect.Value.MapKeys] lists the keys of a
    map, which Go leaves unspecified: any listing of the keys, each once. *)
Class GoLibs : Type := {
  Regexp : Type;
  regexp_Compile : string → option Regexp;
  MatchString : Regexp → string → bool;
  types_Eval : heap → value → value → string → outcome bool;
  MapKeys : gmap string value → list string;
  MapKeys_keys : ∀ m : gmap string value, MapKeys m ≡ₚ (map_to_list m).*1
}.

Section Evaluator.
Context `{GoLibs}.

(** [regFilterCompile].  The length test counts the runes of the rule;
    on a rule of more than two runes whose first and last bytes are
    slashes, the runes between the first and the last are the bytes
    between the first and the last. *)
Definition regFilterCompile (rule : string) : outcome Regexp :=
  let n := String.length rule in
  if (GoStr.RuneCount rule <=? 2)%nat then Err ErrEmptyRule
  else
    first ← or_panic (String.get 0 rule);
    last ← or_panic (String.get (n - 1) rule);
    if negb (Ascii.eqb first "/") || negb (Ascii.eqb last "/") then Err ErrRuleSyntax
    else
      inner ← or_panic (GoStr.slice rule 1 (n - 1));
      match regexp_Compile inner with
      | Some pat => Ok pat
      | None => Err (ErrRegexp inner)
      end.

(** [cmpAny]: the operator is checked here, the comparison is the
    library's. *)
Definition cmpAny (h : heap) (obj1 obj2 : value) (op : string) : outcome bool :=
  if String.eqb op "<" || String.eqb op "<=" || String.eqb op "=="
     || String.eqb op ">=" || String.eqb op ">"
  then types_Eval h obj1 obj2 op
  else Err (ErrInvalidOperation op).

(** The loop of [filter_get_from_explicit_path]: the [err] of
    [parse_token] is overwritten before it is read, so only [op] decides. *)
Fixpoint explicit_path_loop (fuel : nat) (steps : list string) (xobj : value)
  : M value :=
  match steps with
  | [] => mret xobj
  | s :: rest =>
      '(st, _) ← lift (parse_token s);
      match op st with
      | KeyOp =>
          xobj ← get_key fuel xobj (key st);
          explicit_path_loop fuel rest xobj
      | IndexOp =>
          match args st with
          | ArgInts [i] =>
              xobj ← get_key fuel xobj (key st);
              xobj ← reading (fun h => get_idx h xobj i);
              explicit_path_loop fuel rest xobj
          | ArgInts _ => fail ErrMultipleIndexInFilter
          | _ => lift Panic
          end
      | _ => fail ErrNotSupportedInFilter
      end
  end.

Definition filter_get_from_explicit_path (fuel : nat) (obj : value)
    (path : string) : M value :=
  steps ← lift (tokenize path);
  s0 ← lift (or_panic (steps !! 0%nat));
  if negb (String.eqb s0 "@") && negb (String.eqb s0 "$") then fail ErrRootInFront
  else explicit_path_loop fuel (tail steps) obj.

Definition get_lp_v (fuel : nat) (obj root : value) (lp : string) : M value :=
  if GoStr.HasPrefix lp "@." then filter_get_from_explicit_path fuel obj lp
  else if GoStr.HasPrefix lp "$." then filter_get_from_explicit_path fuel root lp
  else fail (ErrInvalidOperand lp).

(** [eval_reg_filter]; its caller passes the pattern a successful
    [regFilterCompile] returned, which is not [nil]. *)
Definition eval_reg_filter (fuel : nat) (obj root : value) (lp : string)
    (pat : Regexp) : M bool :=
  lp_v ← get_lp_v fuel obj root lp;
  match lp_v with
  | VStr v => mret (MatchString pat v)
  | _ => fail ErrRegexpOperand
  end.

(** [eval_filter]: the error of resolving an operand is dropped and the
    operand is [nil] in that case. *)
Definition eval_filter (fuel : nat) (obj root : value) (lp op rp : string)
  : M bool :=
  '(lp_v, _) ← with_err (get_lp_v fuel obj root lp);
  if String.eqb op "exists" then mret (negb (is_nil lp_v))
  else if String.eqb op "=~" then fail ErrNotImplemented
  else
    '(rp_v, _) ←
      (if GoStr.HasPrefix rp "@." then with_err (filter_get_from_explicit_path fuel obj rp)
       else if GoStr.HasPrefix rp "$." then with_err (filter_get_from_explicit_path fuel root rp)
       else mret (VStr rp, None));
    reading (fun h => cmpAny h lp_v rp_v op).

(** The loops of [get_filtered]: each candidate is tested by [test] and
    kept when the test says so; an error of the test ends the loop. *)
Fixpoint filter_loop (test : value → M bool) (candidates : list (M value))
    (res : list value) : M (list value) :=
  match candidates with
  | [] => mret res
  | read :: rest =>
      tmp ← read;
      ok ← test tmp;
      filter_loop test rest (if ok : bool then res ++ [tmp] else res)
  end.

Definition index_at (obj : value) (i : nat) : M value :=
  reading (fun h => reflect_Index h obj i).

(** [reflect.ValueOf(obj).MapIndex(kv).Interface()]; the zero [Value] of
    a key that is not there has no [Interface]. *)
Definition map_index_at (l : loc) (k : string) : M value :=
  reading (fun h => m ← or_panic (map_at h l); or_panic (m !! k)).

(** [get_filtered].  The candidates of an object are its values in the
    order in which [MapKeys] lists its keys. *)
Definition get_filtered (fuel : nat) (obj root : value) (filter : string)
  : M value :=
  '(lp, op, rp) ← lift (parse_filter filter);
  match obj with
  | VNull => lift Panic
  | VSlice l off len =>
      let candidates := index_at obj <$> seq 0 len in
      if String.eqb op "=~" then
        pat ← lift (regFilterCompile rp);
        res ← filter_loop (fun tmp => eval_reg_filter fuel tmp root lp pat) candidates [];
        new_slice res
      else
        res ← filter_loop (fun tmp => eval_filter fuel tmp root lp op rp) candidates [];
        new_slice res
  | VMap l =>
      m ← reading (fun h => or_panic (map_at h l));
      let candidates := map_index_at l <$> MapKeys m in
      if String.eqb op "=~" then
        pat ← lift (regFilterCompile rp);
        res ← filter_loop (fun tmp => eval_reg_filter fuel tmp root lp pat) candidates [];
        new_slice res
      else
        res ← filter_loop (fun tmp => eval_filter fuel tmp root lp op rp) candidates [];
        new_slice res
  | _ => fail ErrFilterType
  end.

(** ** The evaluator *)

Definition subkey_of (s : step) : string :=
  match args s with ArgStr x => x | _ => "" end.

(** The key [lookupKey] looks up first and the subkey it looks up under
    it, [""] for none: a step without a key takes its subkey as the key. *)
Definition lookup_keys (s : step) : string * string :=
  if String.eqb (key s) "" && negb (String.eqb (subkey_of s) "")
  then (subkey_of s, "") else (key s, subkey_of s).

(** [lookupKey]: the pair (parent, child) and the error, all three
    returned together. *)
Definition lookupKey (fuel : nat) (obj : value) (s : step)
  : M (value * value * option error) :=
  let parent := obj in
  let '(skey, subKey) := lookup_keys s in
  '(obj, err) ← with_err (get_key fuel obj skey);
  match err with
  | Some e => mret (parent, VNull, Some e)
  | None =>
      if negb (String.eqb subKey "") then
        '(obj', err) ← with_err (get_key fuel obj subKey);
        mret (obj, obj', err)
      else mret (parent, obj, None)
  end.

(** [s.args.(string)], a type assertion that panics on another type. *)
Definition args_string (s : step) : outcome string :=
  match args s with ArgStr x => Ok x | _ => Panic end.

(** [s.args.([]int)]. *)
Definition args_ints (s : step) : outcome (list Z) :=
  match args s with ArgInts l => Ok l | _ => Panic end.

Definition lookupExpression (fuel : nat) (obj rootObj : value) (s : step)
  : M value :=
  obj ← get_key fuel obj (key s);
  expr ← lift (args_string s);
  k ← get_lp_v fuel obj rootObj expr;
  match k with
  | VStr v => get_key fuel obj v
  | VInt v => reading (fun h => get_idx h obj v)
  | _ => fail ErrInvalidExpression
  end.

(** The loop of the index case with several indices. *)
Fixpoint index_loop (obj : value) (idxs : list Z) (res : list value)
  : M (list value) :=
  match idxs with
  | [] => mret res
  | x :: rest =>
      tmp ← reading (fun h => get_idx h obj x);
      index_loop obj rest (res ++ [tmp])
  end.

(** The optional leading key of an index or range step. *)
Definition leading_key (fuel : nat) (obj : value) (s : step) : M value :=
  if (0 <? String.length (key s))%nat then get_key fuel obj (key s) else mret obj.

(** How a turn of the loop of [Compiled.Lookup] ends: with the next
    current value, or with the [return obj, nil] of the scan case. *)
Inductive flow : Type :=
  | Continue (obj : value)
  | Return (obj : value).

(** One turn of the loop of [Compiled.Lookup] on step [s]; [obj] is the
    current value. *)
Definition lookup_step (fuel : nat) (rootObj : value) (s : step) (obj : value)
  : M flow :=
  match op s with
  | KeyOp =>
      '(_, child, err) ← lookupKey fuel obj s;
      match err with
      | Some e => fail e
      | None => mret (Continue child)
      end
  | IndexOp =>
      obj ← leading_key fuel obj s;
      idxs ← lift (args_ints s);
      match idxs with
      | [] => fail ErrEmptyIndex
      | [x] =>
          obj ← reading (fun h => get_idx h obj x);
          mret (Continue obj)
      | _ =>
          res ← index_loop obj idxs [];
          obj ← new_slice res;
          mret (Continue obj)
      end
  | RangeOp =>
      obj ← leading_key fuel obj s;
      match args s with
      | ArgRange frm to =>
          obj ← lift (get_range obj frm to);
          mret (Continue obj)
      | _ => fail ErrRangeArgs
      end
  | FilterOp =>
      obj ← get_key fuel obj (key s);
      filter ← lift (args_string s);
      obj ← get_filtered fuel obj rootObj filter;
      mret (Continue obj)
  | ExpressionOp =>
      obj ← lookupExpression fuel obj rootObj s;
      mret (Continue obj)
  | OpScan => mret (Return obj)
  | _ => fail ErrNotSupportedInFilter
  end.

Fixpoint lookup_steps (fuel : nat) (ss : list step) (rootObj obj : value)
  : M value :=
  match ss with
  | [] => mret obj
  | s :: rest =>
      r ← lookup_step fuel rootObj s obj;
      match r with
      | Continue obj => lookup_steps fuel rest rootObj obj
      | Return obj => mret obj
      end
  end.

Definition Lookup (fuel : nat) (c : Compiled) (rootObj : value) : M value :=
  lookup_steps fuel (steps c) rootObj rootObj.

Definition JsonPathLookup (fuel : nat) (obj : value) (jpath : string) : M value :=
  c ← lift (Compile jpath);
  Lookup fuel c obj.

(** ** Writing *)

(** [followPtr] on a value of the tree; [reflect.Value.Interface] panics
    on the zero [Value] that [reflect.ValueOf(nil)] is. *)
Definition followPtr (data : value) : outcome value :=
  match data with
  | VNull => Panic
  | _ => Ok data
  end.

Definition stepToPath (s : step) : string :=
  match op s with
  | KeyOp =>
      match args s with
      | ArgStr subKey => "$." +:+ key s +:+ "['" +:+ subKey +:+ "']"
      | _ => "$." +:+ key s
      end
  | _ => "$"
  end.

(** [parentVal.SetMapIndex(key, elem)] on the map at [l]. *)
Definition SetMapIndex (l : loc) (k : string) (elem : value) : M unit :=
  m ← reading (fun h => or_panic (map_at h l));
  store l (CMap (<[k := elem]> m)).

(** [parentVal.Index(idx).Set(elem)] on a slice: [Index] panics outside
    [0, len). *)
Definition SetIndex (l : loc) (off len : nat) (idx : Z) (elem : value) : M unit :=
  a ← reading (fun h => or_panic (array_at h l));
  if (0 <=? idx) && (idx <? Z.of_nat len) && (off + len <=? length a)%nat
  then store l (CArray (<[(off + Z.to_nat idx)%nat := elem]> a))
  else lift Panic.

Definition is_absent (e : error) : bool :=
  match e with
  | NotExist _ | ErrGetFromNullObj => true
  | _ => false
  end.

(** One turn of the loop of [Set] on step [s]; [is_last] is
    [i == lastStepIdx] and the state is (parent, child, lastError). *)
Definition set_step (fuel : nat) (rootObj : value) (path : string)
    (is_last : bool) (s : step) (st : value * value * option error)
  : M (value * value * option error) :=
  let '(parent, child, lastError) := st in
  '(parent, child, lastError) ←
    match op s with
    | KeyOp =>
        '(parent, child, err) ← lookupKey fuel parent s;
        match err with
        | Some e =>
            if negb (is_absent e) then fail e
            else if negb is_last then fail (ErrIncorrectSetPath path)
            else mret (parent, child, err)
        | None => mret (parent, child, err)
        end
    | IndexOp =>
        parent ← leading_key fuel parent s;
        idxs ← lift (args_ints s);
        match idxs with
        | [x] =>
            child ← reading (fun h => get_idx h parent x);
            mret (parent, child, lastError)
        | _ => mret (parent, child, lastError)
        end
    | FilterOp =>
        child ← get_key fuel parent (key s);
        filter ← lift (args_string s);
        child ← get_filtered fuel child rootObj filter;
        mret (parent, child, lastError)
    | ExpressionOp =>
        child ← lookupExpression fuel parent rootObj s;
        mret (parent, child, lastError)
    | _ => fail ErrSetNotSupported
    end;
  mret (if is_last then parent else child, child, lastError).

Fixpoint set_loop (fuel : nat) (rootObj : value) (path : string)
    (ss : list step) (st : value * value * option error)
  : M (value * value * option error) :=
  match ss with
  | [] => mret st
  | s :: rest =>
      st ← set_step fuel rootObj path (bool_decide (rest = [])) s st;
      set_loop fuel rootObj path rest st
  end.

(** The loop of the broadcast case: [set] is [Set] on one element. *)
Fixpoint broadcast_loop (set : value → M unit) (parent : value) (idxs : list nat)
  : M unit :=
  match idxs with
  | [] => mret ()
  | i :: rest =>
      elem ← index_at parent i;
      _ ← set elem;
      broadcast_loop set parent rest
  end.

(** [Set] ([Set] is a reserved word here, hence the underscore).  It
    calls itself on the elements of a slice; [fuel] bounds the
    depth of that recursion.  [c.steps[lastStepIdx]] panics on the empty
    program of the path [$]. *)
Fixpoint Set_ (fuel : nat) (rootObj : value) (path : string) (val : value)
  : M unit :=
  match fuel with
  | O => lift OutOfFuel
  | S fuel' =>
      c ← lift (Compile path);
      obj ← lift (followPtr rootObj);
      val ← lift (followPtr val);
      '(parent, _, lastError) ← set_loop fuel rootObj path (steps c) (obj, obj, None);
      last ← lift (or_panic (last (steps c)));
      match parent with
      | VMap l =>
          match args last with
          | ArgStr subKey =>
              fresh ← alloc (CMap {[subKey := val]});
              let '(newKey, newValue) :=
                match lastError with
                | Some (NotExist k) =>
                    if negb (String.eqb k (key last)) then (k, val)
                    else (key last, VMap fresh)
                | _ => (key last, VMap fresh)
                end in
              SetMapIndex l newKey newValue
          | _ => SetMapIndex l (key last) val
          end
      | VSlice l off len =>
          match op last with
          | IndexOp =>
              idxs ← lift (args_ints last);
              idx ← lift (or_panic (idxs !! 0%nat));
              SetIndex l off len idx val
          | KeyOp =>
              broadcast_loop (fun elem => Set_ fuel' elem (stepToPath last) val)
                parent (seq 0 len)
          | _ => mret ()
          end
      | _ => fail (ErrCouldNotSet path)
      end
  end.

(** ** Deleting *)

(** The error [Del] builds itself, beside those of the functions it
    calls: "not support del operation ..". *)
Inductive del_error : Type :=
  | ErrDelNotSupported (o : opcode).

(** [parentVal.SetMapIndex(key, reflect.Value{})]: the zero [Value]
    deletes the key. *)
Definition DeleteMapIndex (l : loc) (k : string) : M unit :=
  m ← reading (fun h => or_panic (map_at h l));
  store l (CMap (delete k m)).

(** The backing array [a] after the elements [i+1 .. len) of the slice
    that starts at [off] are copied one place down; the last of them
    stays where it was as well. *)
Definition copy_down (a : list value) (off len i : nat) : list value :=
  take (off + i) a ++ take (len - i - 1) (drop (off + i + 1) a)
  ++ drop (off + len - 1) a.

(** [deleteElement]: both slice expressions panic outside their bounds,
    which leaves [0 <= i < len].  [slice.Slice(0, i)] keeps the capacity
    of [objSrc], which the result does not exceed, so
    [reflect.AppendSlice] copies the elements after [i] one place down
    inside the backing array and returns the same slice, one shorter. *)
Definition deleteElement (objSrc : value) (i : Z) : M value :=
  match objSrc with
  | VSlice l off len =>
      a ← reading (fun h => or_panic (array_at h l));
      if (0 <=? i) && (i <? Z.of_nat len) && (off + len <=? length a)%nat then
        _ ← store l (CArray (copy_down a off len (Z.to_nat i)));
        mret (VSlice l off (len - 1))
      else lift Panic
  | _ => lift Panic
  end.

(** One turn of the loop of [Del] on step [s]; [is_last] is
    [i == lastStepIdx], the state is (parent, child), and the right
    injection is the [return] of the default case. *)
Definition del_step (fuel : nat) (is_last : bool) (s : step) (st : value * value)
  : M (value * value + del_error) :=
  let '(parent, child) := st in
  match op s with
  | KeyOp =>
      '(parent, child, err) ← lookupKey fuel parent s;
      match err with
      | Some e => fail e
      | None => mret (inl (if is_last then parent else child, child))
      end
  | IndexOp =>
      parent ← leading_key fuel parent s;
      idxs ← lift (args_ints s);
      match idxs with
      | [x] =>
          child ← reading (fun h => get_idx h parent x);
          mret (inl (if is_last then parent else child, child))
      | _ => mret (inl (if is_last then parent else child, child))
      end
  | o => mret (inr (ErrDelNotSupported o))
  end.

Fixpoint del_loop (fuel : nat) (ss : list step) (st : value * value)
  : M (value * value + del_error) :=
  match ss with
  | [] => mret (inl st)
  | s :: rest =>
      r ← del_step fuel (bool_decide (rest = [])) s st;
      match r with
      | inl st => del_loop fuel rest st
      | inr e => mret (inr e)
      end
  end.

(** [Del].  [None] is the [nil] it returns, [Some] its own error; the
    errors of the functions it calls are those of the outcome.
    [c.steps[lastStepIdx]] panics on the empty program of the path [$],
    and [path[:index]] when the path holds no bracket. *)
Definition Del (fuel : nat) (objSrc : value) (path : string) : M (option del_error) :=
  c ← lift (Compile path);
  obj ← lift (followPtr objSrc);
  r ← del_loop fuel (steps c) (obj, obj);
  match r with
  | inr e => mret (Some e)
  | inl (parent, _) =>
      last ← lift (or_panic (last (steps c)));
      match parent with
      | VMap l =>
          let deletedKey :=
            match args last with ArgStr subKey => subKey | _ => key last end in
          _ ← DeleteMapIndex l deletedKey;
          mret None
      | VSlice _ _ _ =>
          idxs ← lift (args_ints last);
          idx ← lift (or_panic (idxs !! 0%nat));
          let index := GoStr.LastIndex "[" path in
          newSlice ← deleteElement parent idx;
          prefix ← lift (or_panic (index ≫= GoStr.slice path 0));
          _ ← Set_ fuel objSrc prefix newSlice;
          mret None
      | _ => mret None
      end
  end.

End Evaluator.

(** ** A store to run the examples on *)

(** An instance of the library interface for evaluating examples: a
    pattern matches the strings equal to it, no comparison is evaluated,
    and the keys of a map are listed in the order of [map_to_list]. *)
Definition example_libs : GoLibs := {|
  Regexp := string;
  regexp_Compile := Some;
  MatchString := String.eqb;
  types_Eval := fun _ _ _ _ => Err ErrTypesEval;
  MapKeys := fun m => (map_to_list m).*1;
  MapKeys_keys := fun m => reflexivity (map_to_list m).*1
|}.

(** A second instance, which lists the keys in the opposite order. *)
Definition reversed_libs : GoLibs := {|
  Regexp := string;
  regexp_Compile := Some;
  MatchString := String.eqb;
  types_Eval := fun _ _ _ _ => Err ErrTypesEval;
  MapKeys := fun m => reverse (map_to_list m).*1;
  MapKeys_keys := fun m => reverse_Permutation (map_to_list m).*1
|}.

(** * The vocabulary of the properties *)

(** A computation is _framed_ when it never overwrites a cell: the store
    it leaves extends the one it started from. *)
Definition framed {A} (m : M A) : Prop := ∀ h : heap, h `prefix_of` (m h).2.

(** An outcome of the code itself, not of the bound on the recursion. *)
Definition settled {A} (o : outcome A) : Prop := o ≠ OutOfFuel.

(** A part of a filter clause that holds no blank and no quote. *)
Fixpoint plain (w : string) : bool :=
  match w with
  | EmptyString => true
  | String c w' => negb (Ascii.eqb c " ") && negb (Ascii.eqb c "'") && plain w'
  end.

(** The key lookup [look] applied to the elements of a list in order,
    threading the store: [kept look es h rs h'] when [rs] are the results
    of the lookups that succeeded, in order, the failed ones being
    skipped, and [h'] is the store the lookups leave. *)
Inductive kept (look : value → M value)
  : list value → heap → list value → heap → Prop :=
  | kept_nil h : kept look [] h [] h
  | kept_found e es h v h1 rs h2 :
      look e h = (Ok v, h1) → kept look es h1 rs h2 →
      kept look (e :: es) h (v :: rs) h2
  | kept_missed e es h err h1 rs h2 :
      look e h = (Err err, h1) → kept look es h1 rs h2 →
      kept look (e :: es) h rs h2.


(** A reader that returns [e] on every store that extends [h0]. *)
Definition reads (h0 : heap) (read : M value) (e : value) : Prop :=
  ∀ hx : heap, h0 `prefix_of` hx → read hx = (Ok e, hx).

(** The values of an object in the order in which [MapKeys] lists its
    keys: the candidates of a filter on the object, as it visits them. *)
Definition map_values `{GoLibs} (m : gmap string value) : list value :=
  omap (λ k, m !! k) (MapKeys m).

(** ** Paths inside the tree *)

(** The value under key [k] of the object [cur], with the cell read. *)
Definition tree_key (h : heap) (cur : value) (k : string) : option (value * list loc) :=
  match cur with
  | VMap l => m ← map_at h l; v ← m !! k; Some (v, [l])
  | _ => None
  end.

(** The value an index step indexes: [cur], or what its leading key names. *)
Definition tree_container (h : heap) (s : step) (cur : value)
  : option (value * list loc) :=
  if (0 <? String.length (key s))%nat then tree_key h cur (key s) else Some (cur, []).

(** The element at index [i] (from the end when negative) of an array. *)
Definition tree_index (h : heap) (arr : value) (i : Z) : option (value * list loc) :=
  match arr with
  | VSlice la _ _ =>
      match get_idx h arr i with
      | Ok e => Some (e, [la])
      | _ => None
      end
  | _ => None
  end.

(** The value under the key of a key step, and under its quoted subkey
    when it has one, both looked up in objects. *)
Definition tree_keys (h : heap) (s : step) (cur : value) : option (value * list loc) :=
  let '(skey, subKey) := lookup_keys s in
  '(v, ls) ← tree_key h cur skey;
  if negb (String.eqb subKey "") then
    '(v', ls') ← tree_key h v subKey;
    Some (v', ls ++ ls')
  else Some (v, ls).

(** Where a key step, plain or with a quoted subkey, or a single-index
    step leads from [cur] when what it names exists in the tree, with the
    cells it reads; [None] for any other step and for a step that names
    nothing. *)
Definition tree_step (h : heap) (s : step) (cur : value) : option (value * list loc) :=
  match op s, args s with
  | KeyOp, (ArgNil | ArgStr _) => tree_keys h s cur
  | IndexOp, ArgInts [i] =>
      '(arr, ls) ← tree_container h s cur;
      '(e, ls') ← tree_index h arr i;
      Some (e, ls ++ ls')
  | _, _ => None
  end.

Fixpoint tree_walk (h : heap) (ss : list step) (cur : value)
  : option (value * list loc) :=
  match ss with
  | [] => Some (cur, [])
  | s :: rest =>
      '(v, ls) ← tree_step h s cur;
      '(r, ls') ← tree_walk h rest v;
      Some (r, ls ++ ls')
  end.

(** What the last step of a path designates: a key of the object at [l],
    or a position of the slice [(la, off, len)]. *)
Inductive target : Type :=
  | TKey (l : loc) (k : string)
  | TIndex (la : loc) (off len : nat) (i : nat).

Definition target_cell (t : target) : loc :=
  match t with
  | TKey l _ => l
  | TIndex la _ _ _ => la
  end.

(** The target of a last step that is a plain key on an object of the
    tree, or a single index, not negative and within the length, on an
    array of the tree, with the cells read to find it. *)
Definition tree_target (h : heap) (s : step) (cur : value) : option (target * list loc) :=
  match op s, args s with
  | KeyOp, ArgNil =>
      match cur with
      | VMap l => _ ← map_at h l; Some (TKey l (key s), [])
      | _ => None
      end
  | IndexOp, ArgInts [i] =>
      '(arr, ls) ← tree_container h s cur;
      match arr with
      | VSlice la off len =>
          a ← array_at h la;
          if (0 <=? i) && (i <? Z.of_nat len) && (off + len <=? length a)%nat
          then Some (TIndex la off len (Z.to_nat i), ls)
          else None
      | _ => None
      end
  | _, _ => None
  end.

(** The container value [Set] holds as [parent] when it writes to [t]. *)
Definition target_parent (t : target) : value :=
  match t with
  | TKey l _ => VMap l
  | TIndex la off len _ => VSlice la off len
  end.

(** The store after the value [val] is written to the target [t]. *)
Definition write_target (h : heap) (t : target) (val : value) : heap :=
  match t with
  | TKey l k =>
      match map_at h l with
      | Some m => <[l := CMap (<[k := val]> m)]> h
      | None => h
      end
  | TIndex la off _ i =>
      match array_at h la with
      | Some a => <[la := CArray (<[(off + i)%nat := val]> a)]> h
      | None => h
      end
  end.

(** Two stores that hold the same cells at the addresses [ls]. *)
Definition agree_on (ls : list loc) (h h' : heap) : Prop :=
  ∀ l : loc, l ∈ ls → h' !! l = h !! l.

(** ** Names and segments of a path *)

(** A text without dot and bracket. *)
Fixpoint bare (w : string) : bool :=
  match w with
  | EmptyString => true
  | String c w' => negb (Ascii.eqb c ".") && negb (Ascii.eqb c "[") && bare w'
  end.

(** A name a dotted path can hold: not empty, without dot and bracket,
    and not one of the two tokens [parse_token] gives another meaning. *)
Definition is_name (w : string) : bool :=
  bare w && negb (String.eqb w "") && negb (String.eqb w "*")
  && negb (String.eqb w "$").

(** A text of ASCII characters, in which bytes and runes are the same. *)
Fixpoint is_ascii (w : string) : bool :=
  match w with
  | EmptyString => true
  | String c w' => (N_of_ascii c <? 128)%N && is_ascii w'
  end.

(** A run of [n] dots. *)
Fixpoint dots (n : nat) : string :=
  match n with
  | O => ""
  | S n' => String "." (dots n')
  end.

(** A segment of a path: [.name], or a name after two dots or more. *)
Inductive segment : Type :=
  | Child (w : string)
  | Descend (extra : nat) (w : string).

(** The name of a segment, its text in a path, the tokens [tokenize]
    makes of it and the steps [Compile] makes of these. *)
Definition segment_name (s : segment) : string :=
  match s with Child w | Descend _ w => w end.

Definition segment_text (s : segment) : string :=
  match s with
  | Child w => "." +:+ w
  | Descend extra w => ".." +:+ dots extra +:+ w
  end.

Definition segment_tokens (s : segment) : list string :=
  match s with
  | Child w => [w]
  | Descend _ w => ["*"; w]
  end.

Definition segment_steps (s : segment) : list step :=
  match s with
  | Child w => [Step KeyOp w ArgNil]
  | Descend _ w => [Step OpScan "*" ArgNil; Step KeyOp w ArgNil]
  end.

(** The text of a path after its root marker. *)
Definition segments_text (segs : list segment) : string :=
  foldr (λ s acc, segment_text s +:+ acc) "" segs.

(** * Properties *)

(** ** Facts about strings *)

Section GoStrFacts.

Lemma append_nil (b : string) : "" +:+ b = b.
Proof. reflexivity. Qed.

Lemma append_cons (x : ascii) (a b : string) :
  String x a +:+ b = String x (a +:+ b).
Proof. reflexivity. Qed.

Lemma length_append (a b : string) :
  String.length (a +:+ b) = (String.length a + String.length b)%nat.
Proof.
  induction a as [|c a IH]; rewrite ?append_nil, ?append_cons; simpl;
    [done | by rewrite IH].
Qed.

Lemma append_assoc (a b c : string) : (a +:+ b) +:+ c = a +:+ (b +:+ c).
Proof.
  induction a as [|x a IH]; rewrite ?append_nil, ?append_cons;
    [done | by rewrite IH].
Qed.

Lemma append_empty_r (a : string) : a +:+ "" = a.
Proof.
  induction a as [|x a IH]; rewrite ?append_nil, ?append_cons;
    [done | by rewrite IH].
Qed.

Lemma substring_append_l (a b : string) :
  String.substring 0 (String.length a) (a +:+ b) = a.
Proof.
  induction a as [|x a IH]; rewrite ?append_nil, ?append_cons; simpl;
    [by destruct b | by rewrite IH].
Qed.

Lemma substring_skip (a b : string) (n m : nat) :
  String.substring (String.length a + n) m (a +:+ b) = String.substring n m b.
Proof.
  induction a as [|x a IH]; rewrite ?append_nil, ?append_cons; simpl; done.
Qed.

Lemma substring_all (b : string) : String.substring 0 (String.length b) b = b.
Proof. rewrite <- (append_empty_r b) at 2. apply substring_append_l. Qed.

Lemma Index_append_None (c : ascii) (a b : string) :
  GoStr.Index c a = None →
  GoStr.Index c (a +:+ b) = (λ i, (String.length a + i)%nat) <$> GoStr.Index c b.
Proof.
  induction a as [|x a IH]; rewrite ?append_nil, ?append_cons; simpl.
  - intros _. by destruct (GoStr.Index c b).
  - destruct (Ascii.eqb x c); [done|].
    destruct (GoStr.Index c a) eqn:Ha; [done|]. intros _.
    rewrite IH by done. by destruct (GoStr.Index c b).
Qed.

Lemma LastIndex_append_last (c : ascii) (a : string) :
  GoStr.LastIndex c (a +:+ String c "") = Some (String.length a).
Proof.
  induction a as [|x a IH]; rewrite ?append_nil, ?append_cons; simpl.
  - by rewrite Ascii.eqb_refl.
  - by rewrite IH.
Qed.

Lemma slice_prefix (a b : string) :
  GoStr.slice (a +:+ b) 0 (String.length a) = Some a.
Proof.
  unfold GoStr.slice. rewrite length_append, Nat.sub_0_r, substring_append_l.
  simpl. by rewrite (proj2 (Nat.leb_le _ _)) by lia.
Qed.

Lemma slice_suffix (a b : string) :
  GoStr.slice (a +:+ b) (String.length a) (String.length (a +:+ b)) = Some b.
Proof.
  unfold GoStr.slice. rewrite length_append.
  rewrite !(proj2 (Nat.leb_le _ _)) by lia. simpl.
  replace (String.length a + String.length b - String.length a)%nat
    with (String.length b) by lia.
  rewrite <- (Nat.add_0_r (String.length a)) at 1.
  by rewrite substring_skip, substring_all.
Qed.

Lemma slice_ok (s : string) (a b : nat) :
  (a ≤ b)%nat → (b ≤ String.length s)%nat →
  GoStr.slice s a b = Some (String.substring a (b - a) s).
Proof.
  intros Hab Hb. unfold GoStr.slice.
  by rewrite !(proj2 (Nat.leb_le _ _)) by done.
Qed.

(** The inside of a bracket group: [tail[1 : len(tail)-1]]. *)
Lemma slice_brackets (inner : string) :
  let tail := String "[" (inner +:+ "]") in
  GoStr.slice tail 1 (String.length tail - 1) = Some inner.
Proof.
  intros tail.
  assert (String.length tail = S (S (String.length inner))) as Hlen.
  { unfold tail. simpl. rewrite length_append. simpl. lia. }
  rewrite slice_ok by lia. rewrite Hlen. unfold tail.
  replace (S (S (String.length inner)) - 1 - 1)%nat with (String.length inner) by lia.
  simpl. by rewrite substring_append_l.
Qed.

End GoStrFacts.

(** ** Running a computation of the store monad *)

Section MonadFacts.

Lemma bind_ok {A B} (m : M A) (f : A → M B) h a h1 :
  m h = (Ok a, h1) → (m ≫= f) h = f a h1.
Proof. intros Hm. unfold mbind, M_bind. by rewrite Hm. Qed.

Lemma bind_err {A B} (m : M A) (f : A → M B) h e h1 :
  m h = (Err e, h1) → (m ≫= f) h = (Err e, h1).
Proof. intros Hm. unfold mbind, M_bind. by rewrite Hm. Qed.

Lemma bind_panic {A B} (m : M A) (f : A → M B) h h1 :
  m h = (Panic, h1) → (m ≫= f) h = (Panic, h1).
Proof. intros Hm. unfold mbind, M_bind. by rewrite Hm. Qed.

Lemma bind_lift_ok {A B} (a : A) (f : A → M B) h :
  (lift (Ok a) ≫= f) h = f a h.
Proof. done. Qed.

Lemma bind_ret {A B} (a : A) (f : A → M B) h : (mret a ≫= f) h = f a h.
Proof. done. Qed.

End MonadFacts.

(** ** Facts about the store *)

Section StoreFacts.

Lemma array_at_prefix (h h' : heap) l a :
  h `prefix_of` h' → array_at h l = Some a → array_at h' l = Some a.
Proof.
  intros Hp. unfold array_at.
  destruct (h !! l) as [c|] eqn:Hl; [|done].
  by rewrite (prefix_lookup_Some _ _ _ _ Hl Hp).
Qed.

Lemma map_at_prefix (h h' : heap) l m :
  h `prefix_of` h' → map_at h l = Some m → map_at h' l = Some m.
Proof.
  intros Hp. unfold map_at.
  destruct (h !! l) as [c|] eqn:Hl; [|done].
  by rewrite (prefix_lookup_Some _ _ _ _ Hl Hp).
Qed.

Lemma elems_prefix (h h' : heap) l off len es :
  h `prefix_of` h' → elems h l off len = Some es → elems h' l off len = Some es.
Proof.
  intros Hp. unfold elems.
  destruct (array_at h l) as [a|] eqn:Ha; [|done].
  by rewrite (array_at_prefix _ _ _ _ Hp Ha).
Qed.

Lemma elems_length (h : heap) l off len es :
  elems h l off len = Some es → length es = len.
Proof.
  unfold elems. destruct (array_at h l) as [a|]; [|done]. simpl.
  destruct (Nat.leb_spec (off + len) (length a)); [|done].
  intros [= <-]. rewrite length_take, length_drop. lia.
Qed.

Lemma get_idx_elem (h : heap) l off len es i e :
  elems h l off len = Some es → es !! i = Some e →
  get_idx h (VSlice l off len) (Z.of_nat i) = Ok e.
Proof.
  intros Hes He.
  pose proof (elems_length _ _ _ _ _ Hes) as Hlen.
  pose proof (lookup_lt_Some _ _ _ He) as Hi.
  unfold get_idx.
  destruct (Z.leb_spec 0 (Z.of_nat i)); [|lia].
  destruct (Z.leb_spec (Z.of_nat len) (Z.of_nat i)); [lia|].
  unfold reflect_Index. rewrite Hes, Nat2Z.id. simpl. by rewrite He.
Qed.

End StoreFacts.

(** ** The bound on the recursion *)

Section Fuel.

Lemma key_loop_more_fuel (look look' : value → M value) obj idxs :
  (∀ v h r h', look v h = (r, h') → settled r → look' v h = (r, h')) →
  ∀ res h r h',
    key_loop look obj idxs res h = (r, h') → settled r →
    key_loop look' obj idxs res h = (r, h').
Proof.
  intros Hlook. induction idxs as [|i idxs IH]; intros res h r h' Hrun Hr; [done|].
  cbn [key_loop] in *. unfold mbind, M_bind in *.
  destruct (with_err (reading (λ h0, get_idx h0 obj (Z.of_nat i))) h)
    as [[[tmp e]|e| |] h1]; try done.
  unfold with_err in *.
  destruct (look tmp h1) as [[v|e'| |] h2] eqn:Hv.
  - rewrite (Hlook _ _ _ _ Hv) by done. by apply IH.
  - rewrite (Hlook _ _ _ _ Hv) by done. by apply IH.
  - rewrite (Hlook _ _ _ _ Hv) by done. done.
  - injection Hrun as <- _. done.
Qed.

(** More fuel does not change what [get_key] returns. *)
Lemma get_key_more_fuel fuel obj k h r h' :
  get_key fuel obj k h = (r, h') → settled r →
  get_key (S fuel) obj k h = (r, h').
Proof.
  revert obj h r h'. induction fuel as [|fuel IH]; intros obj h r h' Hrun Hr.
  - injection Hrun as <- _. done.
  - destruct obj; try done.
    cbn [get_key] in Hrun. change (get_key (S (S fuel)) (VSlice l off len) k h)
      with ((key_loop (λ tmp, get_key (S fuel) tmp k) (VSlice l off len) (seq 0 len) []
             ≫= λ res, match res with [] => fail (NotExist k) | _ => new_slice res end) h).
    unfold mbind, M_bind in *.
    destruct (key_loop (λ tmp, get_key fuel tmp k) (VSlice l off len) (seq 0 len) [] h)
      as [o h1] eqn:Hloop.
    assert (settled o) as Ho.
    { intros ->. injection Hrun as <- _. done. }
    by rewrite (key_loop_more_fuel _ (λ tmp, get_key (S fuel) tmp k) _ _
                  (λ v h r h', IH v h r h') _ _ _ _ Hloop Ho).
Qed.

Lemma get_key_enough_fuel fuel n obj k h r h' :
  get_key fuel obj k h = (r, h') → settled r →
  get_key (fuel + n) obj k h = (r, h').
Proof.
  intros Hrun Hr. induction n as [|n IH].
  - by rewrite Nat.add_0_r.
  - rewrite Nat.add_succ_r. by apply get_key_more_fuel.
Qed.

End Fuel.

(** ** Reading leaves the store alone *)

Section Frame.
Context `{GoLibs}.

Lemma framed_ret {A} (a : A) : framed (mret a).
Proof. intros h. done. Qed.

Lemma framed_reading {A} (f : heap → outcome A) : framed (reading f).
Proof. intros h. done. Qed.

Lemma framed_lift {A} (o : outcome A) : framed (lift o).
Proof. apply framed_reading. Qed.

Lemma framed_fail {A} (e : error) : framed (@fail A e).
Proof. apply framed_reading. Qed.

Lemma framed_alloc (c : cell) : framed (alloc c).
Proof. intros h. by apply prefix_app_r. Qed.

Lemma framed_bind {A B} (m : M A) (f : A → M B) :
  framed m → (∀ a, framed (f a)) → framed (m ≫= f).
Proof.
  intros Hm Hf h. specialize (Hm h).
  unfold mbind, M_bind. destruct (m h) as [[a|e| |] h1]; simpl in *; try done.
  etrans; [exact Hm | apply Hf].
Qed.

Lemma framed_with_err (m : M value) : framed m → framed (with_err m).
Proof.
  intros Hm h. specialize (Hm h). unfold with_err.
  by destruct (m h) as [[a|e| |] h1].
Qed.

Lemma framed_new_slice (res : list value) : framed (new_slice res).
Proof. apply framed_bind; [apply framed_alloc | intros; apply framed_ret]. Qed.

Ltac framed_step :=
  lazymatch goal with
  | |- framed (mret _) => apply framed_ret
  | |- framed (_ ≫= _) => apply framed_bind
  | |- framed (reading _) => apply framed_reading
  | |- framed (lift _) => apply framed_lift
  | |- framed (fail _) => apply framed_fail
  | |- framed (new_slice _) => apply framed_new_slice
  | |- framed (with_err _) => apply framed_with_err
  | |- framed (index_at _ _) => apply framed_reading
  | |- framed (map_index_at _ _) => apply framed_reading
  | |- framed (match ?x with _ => _ end) => destruct x
  | |- ∀ _, _ => intro
  end.

Lemma framed_key_loop (look : value → M value) obj idxs res :
  (∀ v, framed (look v)) → framed (key_loop look obj idxs res).
Proof.
  intros Hlook. revert res.
  induction idxs as [|i idxs IH]; intros res; simpl; repeat framed_step; auto.
Qed.

Lemma framed_get_key fuel obj key : framed (get_key fuel obj key).
Proof.
  revert obj. induction fuel as [|fuel IH]; intros obj; simpl.
  - apply framed_lift.
  - destruct obj; repeat framed_step.
    apply framed_key_loop. intros v. apply IH.
Qed.

Lemma framed_explicit_path_loop fuel steps xobj :
  framed (explicit_path_loop fuel steps xobj).
Proof.
  revert xobj. induction steps as [|s steps IH]; intros xobj; simpl;
    repeat first [apply framed_get_key | apply IH | framed_step].
Qed.

Lemma framed_filter_get_from_explicit_path fuel obj path :
  framed (filter_get_from_explicit_path fuel obj path).
Proof.
  unfold filter_get_from_explicit_path.
  repeat first [apply framed_explicit_path_loop | framed_step].
Qed.

Lemma framed_get_lp_v fuel obj root lp : framed (get_lp_v fuel obj root lp).
Proof.
  unfold get_lp_v.
  repeat first [apply framed_filter_get_from_explicit_path | framed_step].
Qed.

Lemma framed_eval_filter fuel obj root lp op rp :
  framed (eval_filter fuel obj root lp op rp).
Proof.
  unfold eval_filter.
  repeat first [apply framed_get_lp_v
               | apply framed_filter_get_from_explicit_path | framed_step].
Qed.

Lemma framed_eval_reg_filter fuel obj root lp pat :
  framed (eval_reg_filter fuel obj root lp pat).
Proof.
  unfold eval_reg_filter. repeat first [apply framed_get_lp_v | framed_step].
Qed.

Lemma framed_filter_loop (test : value → M bool) candidates res :
  (∀ v, framed (test v)) → Forall framed candidates →
  framed (filter_loop test candidates res).
Proof.
  intros Htest Hc. revert res.
  induction Hc as [|read rest Hread _ IH]; intros res; simpl;
    repeat framed_step; auto.
Qed.

Lemma framed_get_filtered fuel obj root filter :
  framed (get_filtered fuel obj root filter).
Proof.
  unfold get_filtered.
  repeat first
    [ apply framed_filter_loop;
      [ intros; first [apply framed_eval_filter | apply framed_eval_reg_filter]
      | apply Forall_fmap, Forall_true; intros; apply framed_reading ]
    | framed_step ].
Qed.

Lemma framed_lookupKey fuel obj s : framed (lookupKey fuel obj s).
Proof.
  unfold lookupKey. repeat first [apply framed_get_key | framed_step].
Qed.

Lemma framed_lookupExpression fuel obj rootObj s :
  framed (lookupExpression fuel obj rootObj s).
Proof.
  unfold lookupExpression.
  repeat first [apply framed_get_key | apply framed_get_lp_v | framed_step].
Qed.

Lemma framed_index_loop obj idxs res : framed (index_loop obj idxs res).
Proof.
  revert res. induction idxs as [|x idxs IH]; intros res; simpl;
    repeat framed_step; auto.
Qed.

Lemma framed_leading_key fuel obj s : framed (leading_key fuel obj s).
Proof.
  unfold leading_key. repeat first [apply framed_get_key | framed_step].
Qed.

Lemma framed_lookup_step fuel rootObj s obj :
  framed (lookup_step fuel rootObj s obj).
Proof.
  unfold lookup_step.
  repeat first
    [ apply framed_lookupKey | apply framed_leading_key | apply framed_get_key
    | apply framed_index_loop | apply framed_get_filtered
    | apply framed_lookupExpression | framed_step ].
Qed.

Lemma framed_lookup_steps fuel ss rootObj obj :
  framed (lookup_steps fuel ss rootObj obj).
Proof.
  revert obj. induction ss as [|s ss IH]; intros obj; simpl;
    repeat first [apply framed_lookup_step | apply IH | framed_step].
Qed.

(** C9.  Read-only evaluation: whatever program [c] and root are given,
    and whether [Lookup] returns a value, an error or panics, the store
    it leaves is the store it started from, cell for cell, followed only
    by the fresh slices the evaluation built for its results. *)
Theorem Lookup_read_only (fuel : nat) (c : Compiled) (rootObj : value) (h : heap) :
  ∃ fresh : heap, (Lookup fuel c rootObj h).2 = h ++ fresh.
Proof. apply framed_lookup_steps. Qed.

End Frame.

(** ** The compiler on bad input *)

Section CompilerFacts.

(** A non-empty path that does not begin with [$] or [@] is refused by
    the tokenizer with a syntax error. *)
Lemma Compile_without_root_marker (x : ascii) (rest : string) :
  x ≠ "$"%char → x ≠ "@"%char →
  Compile (String x rest) = Err ErrShouldStartWithRoot
  ∧ kind_of ErrShouldStartWithRoot = SyntaxError.
Proof.
  intros Hd Ha. split; [|done]. unfold Compile, tokenize.
  apply Ascii.eqb_neq in Hd, Ha. by rewrite Hd, Ha.
Qed.

(** C5 at its failing input.  On the empty path [tokenize] returns no
    token and no error, and [Compile] then reads [tokens[0]]: the call
    panics instead of returning a syntax error. *)
Theorem Compile_empty_path_panics :
  tokenize "" = Ok [] ∧ Compile "" = Panic.
Proof. split; reflexivity. Qed.

(** C7 at its failing input.  In a range token the [err] of the lower
    bound is overwritten by the conversion of the upper bound: [a:2]
    compiles, with the lower bound unset, whereas [2:a] is refused. *)
Theorem range_lower_bound_error_is_lost :
  Compile "$.book[a:2]"
  = Ok (MkCompiled "$.book[a:2]" [Step RangeOp "book" (ArgRange None (Some 2))])
  ∧ range_bound "a" = (None, Some (ErrAtoi "a"))
  ∧ Compile "$.book[2:a]" = Err (ErrAtoi "a").
Proof. split_and!; reflexivity. Qed.

End CompilerFacts.

(** ** The stages of a filter clause *)

Section FilterStages.
Context `{GoLibs}.

(** The filter token [key[?(clause)]] as [parse_token] takes it apart. *)
Lemma parse_token_filter (key clause : string) :
  GoStr.Index "[" key = None →
  parse_token (key +:+ "[?(" +:+ clause +:+ ")]")
  = Ok (Step FilterOp key (ArgStr (GoStr.TrimSpace clause)),
        if checkFilter (GoStr.TrimSpace clause) then None
        else Some (ErrInvalidFilterToken ("?(" +:+ clause +:+ ")"))).
Proof.
  intros Hkey.
  set (inner := "?(" +:+ clause +:+ ")").
  set (tail := String "[" (inner +:+ "]")).
  assert ("[?(" +:+ clause +:+ ")]" = tail) as ->.
  { unfold tail, inner. rewrite !append_cons, !append_nil. do 3 f_equal.
    by rewrite append_assoc. }
  assert (GoStr.Index "[" (key +:+ tail) = Some (String.length key)) as Hidx.
  { rewrite Index_append_None by done. unfold tail. simpl. f_equal. lia. }
  assert (String.length inner = S (S (S (String.length clause)))) as Hinner.
  { unfold inner. rewrite !append_cons, append_nil. simpl.
    rewrite length_append. simpl. lia. }
  assert ((String.length tail <? 3)%nat = false) as Hlen.
  { apply Nat.ltb_ge.
    change (String.length tail) with (S (String.length (inner +:+ "]"))).
    rewrite length_append, Hinner. lia. }
  pose proof (slice_brackets inner) as Hbr. cbv zeta in Hbr. fold tail in Hbr.
  assert (String.get 0 inner = Some "?"%char) as Hget by done.
  assert (GoStr.Contains "?" inner = true) as Hq by done.
  assert (GoStr.Index "(" inner = Some 1%nat) as Hfirst by done.
  assert (GoStr.LastIndex ")" inner = Some (S (S (String.length clause)))) as Hlast.
  { unfold inner. rewrite !append_cons, append_nil. simpl.
    by rewrite LastIndex_append_last. }
  assert (GoStr.slice inner (1 + 1) (S (S (String.length clause))) = Some clause)
    as Hclause.
  { rewrite slice_ok by lia. unfold inner. rewrite !append_cons, append_nil.
    simpl. replace (String.length clause - 0)%nat with (String.length clause) by lia.
    by rewrite substring_append_l. }
  unfold parse_token.
  destruct (String.eqb_spec (key +:+ tail) "$") as [Heq|_].
  { rewrite Heq in Hidx. discriminate. }
  destruct (String.eqb_spec (key +:+ tail) "*") as [Heq|_].
  { rewrite Heq in Hidx. discriminate. }
  rewrite Hidx, slice_prefix, slice_suffix.
  clearbody tail inner.
  cbn [mbind outcome_bind or_panic]. rewrite Hlen, Hbr.
  cbn [mbind outcome_bind or_panic]. rewrite Hget.
  cbn [mbind outcome_bind or_panic]. 
  replace (("?" =? "'")%char) with false by done.
  cbn [andb]. rewrite Hq, Hfirst, Hlast, Hclause.
  reflexivity.
Qed.

Lemma parse_filter_loop_plain w st idx rest :
  plain w = true →
  parse_filter_loop st idx (w +:+ rest)
  = parse_filter_loop (with_tmp (f_tmp st +:+ w) st) (idx + String.length w) rest.
Proof.
  revert st idx. induction w as [|c w IH]; intros st idx Hw.
  - rewrite append_nil, append_empty_r, Nat.add_0_r. by destruct st.
  - simpl in Hw. apply andb_prop in Hw as [Hc Hw]. apply andb_prop in Hc as [Hb Hq].
    apply negb_true_iff in Hb, Hq.
    rewrite append_cons. simpl. unfold parse_filter_step. rewrite Hq, Hb.
    rewrite IH by done. f_equal; [|lia].
    destruct st. unfold with_tmp. simpl. by rewrite append_assoc.
Qed.

Lemma parse_filter_loop_blank st idx rest :
  f_embrace st = false →
  parse_filter_loop st idx (String " " rest)
  = if (2 <? S (f_stage st))%nat then inr (ErrInvalidChar idx)
    else
      let st' := with_tmp "" (assign_stage st) in
      parse_filter_loop
        (FilterState (f_lp st') (f_op st') (f_rp st') (f_tmp st')
           (S (f_stage st)) (f_embrace st'))
        (S idx) rest.
Proof.
  intros Hemb. simpl. unfold parse_filter_step. simpl. rewrite Hemb.
  destruct st as [lp op rp tmp stage emb]. simpl.
  destruct stage as [|[|[|stage]]]; reflexivity.
Qed.

(** A clause of more than two stages: [parse_filter] fails at the blank
    that would open the fourth part. *)
Lemma parse_filter_stages (a b c d : string) :
  plain a = true → plain b = true → plain c = true →
  parse_filter (a +:+ " " +:+ b +:+ " " +:+ c +:+ " " +:+ d)
  = Err (ErrInvalidChar (String.length a + String.length b + String.length c + 2)).
Proof.
  intros Ha Hb Hc. unfold parse_filter.
  rewrite (parse_filter_loop_plain a) by done.
  rewrite append_cons, !append_nil, parse_filter_loop_blank by done.
  cbn -[parse_filter_loop String.append].
  rewrite (parse_filter_loop_plain b) by done.
  rewrite append_cons, !append_nil, parse_filter_loop_blank by done.
  cbn -[parse_filter_loop String.append].
  rewrite (parse_filter_loop_plain c) by done.
  rewrite append_cons, !append_nil, parse_filter_loop_blank by done.
  cbn -[parse_filter_loop String.append].
  do 2 f_equal. lia.
Qed.

Lemma get_filtered_parse_error fuel obj root filter e h :
  parse_filter filter = Err e →
  get_filtered fuel obj root filter h = (Err e, h).
Proof. intros Hp. unfold get_filtered. by rewrite Hp. Qed.

Lemma lookup_filter_parse_error fuel rootObj k filter rest obj v e h h1 :
  parse_filter filter = Err e →
  get_key fuel obj k h = (Ok v, h1) →
  lookup_steps fuel (Step FilterOp k (ArgStr filter) :: rest) rootObj obj h
  = (Err e, h1).
Proof.
  intros Hp Hk. cbn [lookup_steps]. apply bind_err.
  unfold lookup_step. cbn [op key args args_string].
  rewrite (bind_ok _ _ _ _ _ Hk), bind_lift_ok.
  apply bind_err. by apply get_filtered_parse_error.
Qed.

(** C8 as the code has it.  The stage limit of a filter clause is found
    when the program is evaluated, not when it is compiled.  For a
    clause of four parts [a b c d] (the first three without blank or
    quote) that starts with [@.] or [$.] and has no white space around
    it, the token [k[?(clause)]] compiles to a filter step carrying the
    clause, and every evaluation that reaches this step with its key
    resolved returns the syntax error [parse_filter] raises at the third
    blank. *)
Theorem filter_stage_limit_is_found_at_evaluation (k a b c d : string) :
  let clause := a +:+ " " +:+ b +:+ " " +:+ c +:+ " " +:+ d in
  let e := ErrInvalidChar (String.length a + String.length b + String.length c + 2) in
  GoStr.Index "[" k = None →
  plain a = true → plain b = true → plain c = true →
  checkFilter clause = true → GoStr.TrimSpace clause = clause →
  compile_steps [k +:+ "[?(" +:+ clause +:+ ")]"] = Ok [Step FilterOp k (ArgStr clause)]
  ∧ kind_of e = SyntaxError
  ∧ ∀ fuel rootObj obj rest h v h1,
      get_key fuel obj k h = (Ok v, h1) →
      lookup_steps fuel (Step FilterOp k (ArgStr clause) :: rest) rootObj obj h
      = (Err e, h1).
Proof.
  intros clause e Hk Ha Hb Hc Hcheck Htrim. split_and!.
  - cbn [compile_steps]. rewrite parse_token_filter by done.
    rewrite Htrim, Hcheck. reflexivity.
  - reflexivity.
  - intros fuel rootObj obj rest h v h1 Hget.
    eapply lookup_filter_parse_error; [|exact Hget].
    by apply parse_filter_stages.
Qed.

End FilterStages.

(** ** Indexing *)

Section Indexing.
Context `{GoLibs}.

Lemma get_idx_out_of_range h l off len idx :
  idx < - Z.of_nat len ∨ Z.of_nat len ≤ idx →
  get_idx h (VSlice l off len) idx = Err (ErrIndexOutOfRange (Z.of_nat len) idx).
Proof.
  intros Hidx. unfold get_idx.
  destruct (Z.leb_spec 0 idx).
  - destruct (Z.leb_spec (Z.of_nat len) idx); [done | lia].
  - destruct (Z.ltb_spec (Z.of_nat len + idx) 0); [done | lia].
Qed.

Lemma get_idx_in_range h l off len idx :
  - Z.of_nat len ≤ idx < Z.of_nat len →
  get_idx h (VSlice l off len) idx
  = reflect_Index h (VSlice l off len) (Z.to_nat (idx mod Z.of_nat len)).
Proof.
  intros Hidx. unfold get_idx.
  destruct (Z.leb_spec 0 idx).
  - destruct (Z.leb_spec (Z.of_nat len) idx); [lia|].
    by rewrite Z.mod_small by lia.
  - destruct (Z.ltb_spec (Z.of_nat len + idx) 0); [lia|].
    replace (idx mod Z.of_nat len) with (Z.of_nat len + idx); [done|].
    apply Z.mod_unique with (q := -1); lia.
Qed.

Lemma last_index_same h seq len :
  (∃ l off, seq = VSlice l off len) →
  get_idx h seq (-1) = get_idx h seq (Z.of_nat len - 1).
Proof.
  intros (l & off & ->). destruct len as [|n].
  - done.
  - rewrite !get_idx_in_range by lia. do 2 f_equal.
    rewrite (Z.mod_small (_ - 1)) by lia.
    symmetry. apply Z.mod_unique with (q := -1); lia.
Qed.

(** C3.  Negative index law, for every slice [seq] of length [len]:
    index [-1] gives what index [len - 1] gives, in [get_idx] and in a
    single-index step of a program whose leading key, if any, resolves to
    [seq]; index [-(len + 1)] is a range error; and every index outside
    [-len, len) is a range error, while one inside gives the element at
    that position counted from the front or, when negative, from the end
    (so nothing is clamped). *)
Theorem negative_index_law (l : loc) (off len : nat) :
  let seq := VSlice l off len in
  let n := Z.of_nat len in
  (∀ h, get_idx h seq (-1) = get_idx h seq (n - 1))
  ∧ (∀ fuel rootObj k obj h h1,
       leading_key fuel obj (Step IndexOp k (ArgInts [-1])) h = (Ok seq, h1) →
       lookup_step fuel rootObj (Step IndexOp k (ArgInts [-1])) obj h
       = lookup_step fuel rootObj (Step IndexOp k (ArgInts [n - 1])) obj h)
  ∧ (∀ h, ∃ e, get_idx h seq (- (n + 1)) = Err e ∧ kind_of e = RangeError)
  ∧ (∀ h idx, idx < - n ∨ n ≤ idx →
       ∃ e, get_idx h seq idx = Err e ∧ kind_of e = RangeError)
  ∧ (∀ h idx, - n ≤ idx < n →
       get_idx h seq idx = reflect_Index h seq (Z.to_nat (idx mod n))).
Proof.
  intros seq n. split_and!.
  - intros h. apply last_index_same. by exists l, off.
  - intros fuel rootObj k obj h h1 Hkey.
    unfold lookup_step. cbn [op args args_ints].
    assert (leading_key fuel obj (Step IndexOp k (ArgInts [n - 1])) h = (Ok seq, h1))
      as Hkey' by exact Hkey.
    rewrite (bind_ok _ _ _ _ _ Hkey), (bind_ok _ _ _ _ _ Hkey'), !bind_lift_ok.
    unfold mbind, M_bind, reading.
    by rewrite (last_index_same h1 seq len) by (by exists l, off).
  - intros h. eexists. split; [apply get_idx_out_of_range; lia | done].
  - intros h idx Hidx. eexists. split; [by apply get_idx_out_of_range | done].
  - intros h idx Hidx. by apply get_idx_in_range.
Qed.

(** ** Slices *)

Lemma wrap64_small z : GoStr.min_int ≤ z ≤ GoStr.max_int → wrap64 z = z.
Proof.
  unfold wrap64, GoStr.min_int, GoStr.max_int. intros Hz.
  rewrite Z.mod_small; lia.
Qed.

Lemma get_range_full l off len :
  (0 < len)%nat → Z.of_nat len ≤ GoStr.max_int →
  get_range (VSlice l off len) None None = Ok (VSlice l off len).
Proof.
  intros Hpos Hmax. unfold get_range, range_from, range_to. simpl.
  destruct (Z.ltb_spec (Z.of_nat len - 1) 0); [lia|].
  rewrite wrap64_small by (unfold GoStr.min_int, GoStr.max_int in *; lia).
  destruct (Z.leb_spec (Z.of_nat len) 0); [lia|].
  destruct (Z.ltb_spec (Z.of_nat len - 1 + 1) 0); [lia|].
  destruct (Z.ltb_spec (Z.of_nat len) (Z.of_nat len - 1 + 1)); [lia|].
  simpl. destruct (Z.ltb_spec (Z.of_nat len - 1 + 1) 0); [lia|].
  f_equal. f_equal; lia.
Qed.

Lemma get_range_out_of_bounds l off len frm to :
  let n := Z.of_nat len in
  range_from n frm < 0 ∨ n ≤ range_from n frm
  ∨ range_to n to < 0 ∨ n < range_to n to →
  ∃ e, get_range (VSlice l off len) frm to = Err e ∧ kind_of e = RangeError.
Proof.
  intros n Hb. unfold get_range. fold n.
  destruct (Z.ltb_spec (range_from n frm) 0); simpl; [by eexists|].
  destruct (Z.leb_spec n (range_from n frm)); simpl; [by eexists|].
  destruct (Z.ltb_spec (range_to n to) 0); simpl; [by eexists|].
  destruct (Z.ltb_spec n (range_to n to)); simpl; [by eexists|].
  lia.
Qed.

(** C4, the slice laws as the code has them.  For every non-empty
    slice [seq] a range with both bounds unset returns [seq] itself, and
    so does one with the bounds [0] and [len - 1], in [get_range] and in a
    range step of a program whose leading key, if any, resolves to [seq];
    a range whose translated lower bound lies outside [0, len) or whose
    translated upper bound lies outside [0, len] is a range error; on the
    empty slice every range is a range error. *)
Theorem slice_laws (l : loc) (off len : nat) (frm to : option Z) :
  let seq := VSlice l off len in
  let n := Z.of_nat len in
  n ≤ GoStr.max_int →
  ((0 < len)%nat →
     get_range seq None None = Ok seq
     ∧ get_range seq (Some 0) (Some (n - 1)) = Ok seq
     ∧ ∀ fuel rootObj k obj h h1 bounds,
         bounds = ArgRange None None ∨ bounds = ArgRange (Some 0) (Some (n - 1)) →
         leading_key fuel obj (Step RangeOp k bounds) h = (Ok seq, h1) →
         lookup_step fuel rootObj (Step RangeOp k bounds) obj h
         = (Ok (Continue seq), h1))
  ∧ (range_from n frm < 0 ∨ n ≤ range_from n frm
     ∨ range_to n to < 0 ∨ n < range_to n to →
     ∃ e, get_range seq frm to = Err e ∧ kind_of e = RangeError)
  ∧ (len = 0%nat →
     ∃ e, get_range seq frm to = Err e ∧ kind_of e = RangeError).
Proof.
  intros seq n Hmax. split_and!.
  - intros Hpos.
    assert (get_range seq None None = Ok seq) as Hfull
      by (by apply get_range_full).
    assert (get_range seq (Some 0) (Some (n - 1)) = Ok seq) as Hzero
      by (by transitivity (get_range seq None None)).
    split_and!; [done | done |].
    intros fuel rootObj k obj h h1 bounds Hbounds Hkey.
    unfold lookup_step. cbn [op]. rewrite (bind_ok _ _ _ _ _ Hkey).
    destruct Hbounds as [-> | ->]; cbn [args]; fold seq n.
    + by rewrite Hfull, bind_lift_ok.
    + by rewrite Hzero, bind_lift_ok.
  - apply get_range_out_of_bounds.
  - intros ->. apply get_range_out_of_bounds.
    unfold n. simpl. destruct (Z.ltb_spec (range_from 0 frm) 0); lia.
Qed.

End Indexing.

(** ** The scan step *)

Section Scan.
Context `{GoLibs}.

Lemma lookup_steps_scan fuel pre k a post rootObj obj h :
  lookup_steps fuel (pre ++ Step OpScan k a :: post) rootObj obj h
  = lookup_steps fuel pre rootObj obj h.
Proof.
  revert obj h. induction pre as [|s pre IH]; intros obj h; [done|].
  simpl. unfold mbind, M_bind.
  destruct (lookup_step fuel rootObj s obj h) as [[[next|ret]|e| |] h1]; auto.
Qed.

End Scan.

(** ** A key over an array *)

Section KeyOverArray.
Context `{GoLibs}.

Lemma key_loop_kept (look : value → M value) l off len es0 h0 :
  elems h0 l off len = Some es0 → (∀ v, framed (look v)) →
  ∀ es h rs h', kept look es h rs h' →
  ∀ i res, drop i es0 = es → h0 `prefix_of` h →
    key_loop look (VSlice l off len) (seq i (length es)) res h = (Ok (res ++ rs), h').
Proof.
  intros Hes0 Hlook es h rs h' Hkept.
  induction Hkept as [h|e es h v h1 rs h2 Hv _ IH|e es h err h1 rs h2 Hv _ IH];
    intros i res Hdrop Hp.
  - simpl. by rewrite app_nil_r.
  - assert (es0 !! i = Some e) as Hi.
    { pose proof (lookup_drop es0 i 0) as Hd.
      by rewrite Hdrop, Nat.add_0_r in Hd. }
    assert (drop (S i) es0 = es) as Hdrop'.
    { pose proof (drop_drop es0 1 i) as Hd.
      rewrite Hdrop, Nat.add_1_r in Hd. by rewrite <- Hd. }
    cbn [length seq key_loop].
    erewrite bind_ok; last first.
    { unfold with_err, reading.
      by rewrite (get_idx_elem _ _ _ _ _ _ _ (elems_prefix _ _ _ _ _ _ Hp Hes0) Hi). }
    cbv beta iota.
    erewrite bind_ok; last by (unfold with_err; rewrite Hv).
    cbv beta iota. rewrite (IH (S i)); [by rewrite <- app_assoc | done |].
    etrans; [exact Hp|]. specialize (Hlook e h). by rewrite Hv in Hlook.
  - assert (es0 !! i = Some e) as Hi.
    { pose proof (lookup_drop es0 i 0) as Hd.
      by rewrite Hdrop, Nat.add_0_r in Hd. }
    assert (drop (S i) es0 = es) as Hdrop'.
    { pose proof (drop_drop es0 1 i) as Hd.
      rewrite Hdrop, Nat.add_1_r in Hd. by rewrite <- Hd. }
    cbn [length seq key_loop].
    erewrite bind_ok; last first.
    { unfold with_err, reading.
      by rewrite (get_idx_elem _ _ _ _ _ _ _ (elems_prefix _ _ _ _ _ _ Hp Hes0) Hi). }
    cbv beta iota.
    erewrite bind_ok; last by (unfold with_err; rewrite Hv).
    cbv beta iota. rewrite (IH (S i)); [done | done |].
    etrans; [exact Hp|]. specialize (Hlook e h). by rewrite Hv in Hlook.
Qed.

(** A program of one plain key step is [get_key]. *)
Lemma lookup_plain_key fuel rootObj obj k h :
  lookup_steps fuel [Step KeyOp k ArgNil] rootObj obj h = get_key fuel obj k h.
Proof.
  cbn [lookup_steps]. unfold lookup_step, lookupKey, lookup_keys, subkey_of.
  cbn [op key args]. rewrite andb_false_r.
  unfold mbind, M_bind, with_err.
  by destruct (get_key fuel obj k h) as [[v|e| |] h1].
Qed.

(** C2.  A key step on an array.  Let [es] be the elements of the slice
    [seq] and let the lookup of the key on each of them in order leave
    the results [rs] of the lookups that succeeded (the relation
    [kept]).  Then [get_key] on [seq], with one more unit of fuel than
    the element lookups took or with any larger amount, and the key step
    of a program on [seq], fail with [NotExist] carrying the key when
    [rs] is empty, and otherwise return a fresh slice whose elements are
    exactly [rs], in that order. *)
Theorem key_step_over_array (fuel : nat) (k : string) (l : loc) (off len : nat)
    (es rs : list value) (h h' : heap) :
  let seq := VSlice l off len in
  let result :=
    match rs with
    | [] => (Err (NotExist k), h')
    | _ => (Ok (VSlice (length h') 0 (length rs)), h' ++ [CArray rs])
    end in
  elems h l off len = Some es →
  kept (λ e, get_key fuel e k) es h rs h' →
  (∀ n, get_key (S fuel + n) seq k h = result)
  ∧ (∀ rootObj, lookup_steps (S fuel) [Step KeyOp k ArgNil] rootObj seq h = result)
  ∧ elems (h' ++ [CArray rs]) (length h') 0 (length rs) = Some rs.
Proof.
  intros seq result Hes Hkept.
  assert (get_key (S fuel) seq k h = result) as Hget.
  { cbn [get_key seq]. erewrite bind_ok; last first.
    { rewrite <- (elems_length _ _ _ _ _ Hes).
      eapply (key_loop_kept _ _ _ _ _ _ Hes); [|exact Hkept|done|done].
      intros v. apply framed_get_key. }
    unfold result. by destruct rs. }
  split_and!.
  - intros n. unfold result in *. by destruct rs; apply get_key_enough_fuel.
  - intros rootObj. by rewrite lookup_plain_key.
  - unfold elems, array_at. rewrite lookup_app_r by done.
    rewrite Nat.sub_diag. simpl.
    rewrite (proj2 (Nat.leb_le _ _)) by done. by rewrite firstn_all.
Qed.

End KeyOverArray.

(** ** The default operator of a filter *)

Section DefaultOperator.
Context `{GoLibs}.



Lemma reads_slice h l off len es :
  elems h l off len = Some es →
  Forall2 (reads h) (index_at (VSlice l off len) <$> seq 0 len) es.
Proof.
  intros Hes. apply Forall2_fmap_l.
  apply Forall2_same_length_lookup_2.
  - by rewrite length_seq, (elems_length _ _ _ _ _ Hes).
  - intros i j e Hj He. apply lookup_seq in Hj as [-> _].
    intros hx Hp. unfold index_at, reading, reflect_Index.
    rewrite (elems_prefix _ _ _ _ _ _ Hp Hes). simpl. by rewrite He.
Qed.

(** Whatever the order of the keys, the values listed in it are the
    values of the object, each as often as the object holds it. *)
Lemma map_values_Permutation (m : gmap string value) :
  map_values m ≡ₚ (map_to_list m).*2.
Proof.
  unfold map_values. rewrite (MapKeys_keys m).
  assert (∀ kvs : list (string * value),
            (∀ k v, (k, v) ∈ kvs → m !! k = Some v) →
            omap (λ k, m !! k) kvs.*1 = kvs.*2) as Hall.
  { induction kvs as [|[k v] kvs IH]; intros Hin; [done|].
    cbn. rewrite (Hin k v) by left. f_equal. apply IH.
    intros k' v' Hk'. apply Hin. by right. }
  rewrite Hall; [done|]. intros k v Hkv. by apply elem_of_map_to_list.
Qed.

Lemma reads_map h l (m : gmap string value) :
  map_at h l = Some m →
  Forall2 (reads h) (map_index_at l <$> MapKeys m) (map_values m).
Proof.
  intros Hm. unfold map_values.
  assert (Forall (λ k, is_Some (m !! k)) (MapKeys m)) as Hks.
  { apply Forall_forall. intros k Hk. rewrite (MapKeys_keys m) in Hk.
    apply list_elem_of_fmap in Hk as ([k' v] & -> & Hkv).
    apply elem_of_map_to_list in Hkv. by exists v. }
  induction Hks as [|k ks [v Hv] _ IH]; [constructor|].
  cbn. rewrite Hv. constructor; [|exact IH].
  intros hx Hp. unfold map_index_at, reading.
  rewrite (map_at_prefix _ _ _ _ Hp Hm). simpl. by rewrite Hv.
Qed.





(** C6 at its failing input.  The clause [@.'first name'] is a single
    operand, its key quoted because of the blank in it, and no operator.
    The closing quote stores the operand and empties [tmp], and
    [parse_filter] gives the default operator only when [tmp] is not
    empty at the end of the clause: the operator stays empty.  On
    [{"people":[{"first name":"Ann"}]}] the operand resolves to ["Ann"]
    on the one element, which the default operator would select, but the
    lookup fails on it with the error [cmpAny] has for an operator it
    does not know.  With [exists] written out the quote is still open
    when the blank comes, the operand becomes [" exists"], and no element
    is selected. *)
Theorem quoted_operand_gets_no_operator :
  let h := [CMap {["people" := VSlice 1 0 1]}; CArray [VMap 2];
            CMap {["first name" := VStr "Ann"]}] in
  let p := "$.people[?(@.'first name')]" in
  parse_filter "@.'first name'" = Ok ("@.first name", "", "")
  ∧ Compile p = Ok (MkCompiled p [Step FilterOp "people" (ArgStr "@.'first name'")])
  ∧ get_lp_v 1 (VMap 2) (VMap 0) "@.first name" h = (Ok (VStr "Ann"), h)
  ∧ JsonPathLookup 1 (VMap 0) p h = (Err (ErrInvalidOperation ""), h)
  ∧ parse_filter "@.'first name' exists" = Ok (" exists", "exists", "")
  ∧ JsonPathLookup 1 (VMap 0) "$.people[?(@.'first name' exists)]" h
    = (Ok (VSlice 3 0 0), h ++ [CArray []]).
Proof. split_and!; reflexivity. Qed.


End DefaultOperator.

(** ** Writing, then reading *)

Section SetThenLookup.
Context `{GoLibs}.

Lemma get_key_map fuel l k h m :
  map_at h l = Some m →
  get_key (S fuel) (VMap l) k h
  = (match m !! k with Some v => Ok v | None => Err (NotExist k) end, h).
Proof.
  intros Hm. cbn [get_key]. erewrite bind_ok; last by (unfold reading; rewrite Hm).
  by destruct (m !! k).
Qed.

Lemma tree_key_get_key fuel h cur k v ls :
  tree_key h cur k = Some (v, ls) → get_key (S fuel) cur k h = (Ok v, h).
Proof.
  unfold tree_key. intros Ht. destruct cur as [| | | | |l|]; try done.
  destruct (map_at h l) as [m|] eqn:Hm; [|done]. simpl in Ht.
  destruct (m !! k) as [v'|] eqn:Hk; [|done]. simpl in Ht.
  injection Ht as -> _.
  by rewrite (get_key_map _ _ _ _ _ Hm), Hk.
Qed.

Lemma tree_container_leading_key fuel h s cur arr ls :
  tree_container h s cur = Some (arr, ls) →
  leading_key (S fuel) cur s h = (Ok arr, h).
Proof.
  unfold tree_container, leading_key.
  destruct (0 <? String.length (key s))%nat.
  - apply tree_key_get_key.
  - by intros [= -> _].
Qed.

Lemma tree_index_get_idx h arr i e ls :
  tree_index h arr i = Some (e, ls) → get_idx h arr i = Ok e.
Proof.
  unfold tree_index. destruct arr; try done.
  destruct (get_idx _ _ _); try done. by intros [= -> _].
Qed.

Lemma lookupKey_plain fuel obj k h o :
  lookupKey fuel obj (Step o k ArgNil) h
  = match get_key fuel obj k h with
    | (Ok v, h1) => (Ok (obj, v, None), h1)
    | (Err e, h1) => (Ok (obj, VNull, Some e), h1)
    | (Panic, h1) => (Panic, h1)
    | (OutOfFuel, h1) => (OutOfFuel, h1)
    end.
Proof.
  unfold lookupKey, lookup_keys, subkey_of. cbn [op key args].
  rewrite andb_false_r.
  unfold mbind, M_bind, with_err.
  by destruct (get_key fuel obj k h) as [[v|e| |] h1].
Qed.

Lemma tree_keys_lookupKey fuel h s cur v ls :
  tree_keys h s cur = Some (v, ls) →
  ∃ parent, lookupKey (S fuel) cur s h = (Ok (parent, v, None), h).
Proof.
  unfold tree_keys, lookupKey. destruct (lookup_keys s) as [skey subKey].
  intros Ht.
  destruct (tree_key h cur skey) as [[v1 ls1]|] eqn:H1; [|done]. simpl in Ht.
  erewrite bind_ok; last first.
  { unfold with_err. by rewrite (tree_key_get_key _ _ _ _ _ _ H1). }
  cbv beta iota. destruct (negb (String.eqb subKey "")).
  - destruct (tree_key h v1 subKey) as [[v2 ls2]|] eqn:H2; [|done].
    simpl in Ht. injection Ht as -> _.
    erewrite bind_ok; last first.
    { unfold with_err. by rewrite (tree_key_get_key _ _ _ _ _ _ H2). }
    by eexists.
  - injection Ht as -> _. by eexists.
Qed.

(** The evaluator follows a step of the tree. *)
Lemma tree_step_lookup fuel rootObj h s cur v ls :
  tree_step h s cur = Some (v, ls) →
  lookup_step (S fuel) rootObj s cur h = (Ok (Continue v), h).
Proof.
  destruct s as [o k a]. unfold tree_step, lookup_step. cbn [op key args].
  destruct o; try done.
  - intros Hk.
    assert (tree_keys h (Step KeyOp k a) cur = Some (v, ls)) as Hkeys
      by (by destruct a).
    destruct (tree_keys_lookupKey fuel _ _ _ _ _ Hkeys) as [parent Hlook].
    by rewrite (bind_ok _ _ _ _ _ Hlook).
  - destruct a as [| |[|i [|j idxs]]|]; try done. intros Ht.
    destruct (tree_container h _ cur) as [[arr ls1]|] eqn:Hc; [|done].
    simpl in Ht.
    destruct (tree_index h arr i) as [[e ls2]|] eqn:Hi; [|done].
    simpl in Ht. injection Ht as -> _.
    rewrite (bind_ok _ _ _ _ _ (tree_container_leading_key fuel _ _ _ _ _ Hc)).
    cbn [args_ints args]. rewrite bind_lift_ok.
    erewrite bind_ok; last first.
    { unfold reading. by rewrite (tree_index_get_idx _ _ _ _ _ Hi). }
    reflexivity.
Qed.

(** So does the loop of [Set], on a step that is not the last one. *)
Lemma tree_step_set fuel rootObj p h s cur v ls child le :
  tree_step h s cur = Some (v, ls) →
  ∃ le', set_step (S fuel) rootObj p false s (cur, child, le) h
         = (Ok (v, v, le'), h).
Proof.
  destruct s as [o k a]. unfold tree_step, set_step. cbn [op key args].
  destruct o; try done.
  - intros Hk. exists None.
    assert (tree_keys h (Step KeyOp k a) cur = Some (v, ls)) as Hkeys
      by (by destruct a).
    destruct (tree_keys_lookupKey fuel _ _ _ _ _ Hkeys) as [parent Hlook].
    erewrite bind_ok; last first.
    { by rewrite (bind_ok _ _ _ _ _ Hlook). }
    reflexivity.
  - destruct a as [| |[|i [|j idxs]]|]; try done. intros Ht.
    destruct (tree_container h _ cur) as [[arr ls1]|] eqn:Hc; [|done].
    simpl in Ht.
    destruct (tree_index h arr i) as [[e ls2]|] eqn:Hi; [|done].
    simpl in Ht. injection Ht as -> _. exists le.
    erewrite bind_ok; last first.
    { rewrite (bind_ok _ _ _ _ _ (tree_container_leading_key fuel _ _ _ _ _ Hc)).
      cbn [args_ints args]. rewrite bind_lift_ok.
      erewrite bind_ok; last first.
      { unfold reading. by rewrite (tree_index_get_idx _ _ _ _ _ Hi). }
      reflexivity. }
    reflexivity.
Qed.

Lemma agree_on_app ls ls' h h' :
  agree_on (ls ++ ls') h h' → agree_on ls h h' ∧ agree_on ls' h h'.
Proof.
  intros Ha. split; intros l Hl; apply Ha, elem_of_app; auto.
Qed.

Lemma tree_key_agree h h' cur k v ls :
  tree_key h cur k = Some (v, ls) → agree_on ls h h' →
  tree_key h' cur k = Some (v, ls).
Proof.
  unfold tree_key. intros Ht Ha. destruct cur as [| | | | |l|]; try done.
  unfold map_at in *.
  destruct (h !! l) as [c|] eqn:Hl; [|done].
  destruct c as [m|]; [|done]. simpl in Ht.
  destruct (m !! k) as [v'|] eqn:Hk; [|done]. simpl in Ht.
  injection Ht as -> <-.
  rewrite (Ha l), Hl by apply list_elem_of_singleton, eq_refl. simpl.
  by rewrite Hk.
Qed.

Lemma tree_keys_agree h h' s cur v ls :
  tree_keys h s cur = Some (v, ls) → agree_on ls h h' →
  tree_keys h' s cur = Some (v, ls).
Proof.
  unfold tree_keys. destruct (lookup_keys s) as [skey subKey]. intros Ht Ha.
  destruct (tree_key h cur skey) as [[v1 ls1]|] eqn:H1; [|done]. simpl in Ht.
  destruct (negb (String.eqb subKey "")).
  - destruct (tree_key h v1 subKey) as [[v2 ls2]|] eqn:H2; [|done].
    simpl in Ht. injection Ht as -> <-.
    apply agree_on_app in Ha as [Ha1 Ha2].
    rewrite (tree_key_agree _ _ _ _ _ _ H1 Ha1). simpl.
    by rewrite (tree_key_agree _ _ _ _ _ _ H2 Ha2).
  - injection Ht as -> <-. by rewrite (tree_key_agree _ _ _ _ _ _ H1 Ha).
Qed.

Lemma tree_container_agree h h' s cur arr ls :
  tree_container h s cur = Some (arr, ls) → agree_on ls h h' →
  tree_container h' s cur = Some (arr, ls).
Proof.
  unfold tree_container. destruct (0 <? String.length (key s))%nat; [|done].
  apply tree_key_agree.
Qed.

Lemma get_idx_agree h h' la off len i :
  h' !! la = h !! la →
  get_idx h' (VSlice la off len) i = get_idx h (VSlice la off len) i.
Proof.
  intros Hl. unfold get_idx, reflect_Index, elems, array_at. by rewrite Hl.
Qed.

Lemma tree_index_agree h h' arr i e ls :
  tree_index h arr i = Some (e, ls) → agree_on ls h h' →
  tree_index h' arr i = Some (e, ls).
Proof.
  unfold tree_index. intros Ht Ha. destruct arr as [| | | | | |la off len]; try done.
  destruct (get_idx h _ i) as [e'| | |] eqn:Hi; try done.
  injection Ht as -> <-.
  rewrite (get_idx_agree h h'), Hi; [done|].
  apply Ha, list_elem_of_singleton, eq_refl.
Qed.

Lemma tree_step_agree h h' s cur v ls :
  tree_step h s cur = Some (v, ls) → agree_on ls h h' →
  tree_step h' s cur = Some (v, ls).
Proof.
  destruct s as [o k a]. unfold tree_step. cbn [op key args].
  destruct o; try done.
  - destruct a; try done; apply tree_keys_agree.
  - destruct a as [| |[|i [|j idxs]]|]; try done. intros Ht Ha.
    destruct (tree_container h _ cur) as [[arr ls1]|] eqn:Hc; [|done].
    simpl in Ht.
    destruct (tree_index h arr i) as [[e ls2]|] eqn:Hi; [|done].
    simpl in Ht. injection Ht as -> <-.
    apply agree_on_app in Ha as [Ha1 Ha2].
    rewrite (tree_container_agree _ _ _ _ _ _ Hc Ha1). simpl.
    by rewrite (tree_index_agree _ _ _ _ _ _ Hi Ha2).
Qed.

Lemma tree_walk_agree h h' ss cur v ls :
  tree_walk h ss cur = Some (v, ls) → agree_on ls h h' →
  tree_walk h' ss cur = Some (v, ls).
Proof.
  revert cur ls. induction ss as [|s ss IH]; intros cur ls Ht Ha; [done|].
  cbn [tree_walk] in *.
  destruct (tree_step h s cur) as [[v1 ls1]|] eqn:Hs; [|done]. simpl in Ht.
  destruct (tree_walk h ss v1) as [[r ls2]|] eqn:Hw; [|done]. simpl in Ht.
  injection Ht as -> <-.
  apply agree_on_app in Ha as [Ha1 Ha2].
  rewrite (tree_step_agree _ _ _ _ _ _ Hs Ha1). simpl.
  by rewrite (IH _ _ Hw Ha2).
Qed.

(** [Lookup] walks the steps that stay inside the tree. *)
Lemma lookup_steps_walk fuel rootObj h pre post cur0 cur ls :
  tree_walk h pre cur0 = Some (cur, ls) →
  lookup_steps (S fuel) (pre ++ post) rootObj cur0 h
  = lookup_steps (S fuel) post rootObj cur h.
Proof.
  revert cur0 ls. induction pre as [|s pre IH]; intros cur0 ls Ht.
  - by injection Ht as ->.
  - cbn [tree_walk] in Ht.
    destruct (tree_step h s cur0) as [[v1 ls1]|] eqn:Hs; [|done]. simpl in Ht.
    destruct (tree_walk h pre v1) as [[r ls2]|] eqn:Hw; [|done]. simpl in Ht.
    injection Ht as -> <-.
    rewrite <- app_comm_cons. cbn [lookup_steps].
    rewrite (bind_ok _ _ _ _ _ (tree_step_lookup fuel rootObj _ _ _ _ _ Hs)).
    by apply (IH _ _ Hw).
Qed.

Lemma bind_ret_r {A} (m : M A) h : (m ≫= mret) h = m h.
Proof. unfold mbind, M_bind. by destruct (m h) as [[a|e| |] h1]. Qed.

(** So does the loop of [Set], up to its last step. *)
Lemma set_loop_walk fuel rootObj p h pre last cur0 cur ls child le :
  tree_walk h pre cur0 = Some (cur, ls) →
  ∃ child' le',
    set_loop (S fuel) rootObj p (pre ++ [last]) (cur0, child, le) h
    = set_step (S fuel) rootObj p true last (cur, child', le') h.
Proof.
  revert cur0 ls child le. induction pre as [|s pre IH]; intros cur0 ls child le Ht.
  - injection Ht as -> _. exists child, le. cbn [app set_loop].
    rewrite bool_decide_eq_true_2 by done. apply bind_ret_r.
  - cbn [tree_walk] in Ht.
    destruct (tree_step h s cur0) as [[v1 ls1]|] eqn:Hs; [|done]. simpl in Ht.
    destruct (tree_walk h pre v1) as [[r ls2]|] eqn:Hw; [|done]. simpl in Ht.
    injection Ht as -> <-.
    destruct (tree_step_set fuel rootObj p _ _ _ _ _ child le Hs) as [le1 Hstep].
    destruct (IH _ _ v1 le1 Hw) as (child' & le' & Hloop).
    exists child', le'. rewrite <- app_comm_cons. cbn [set_loop].
    rewrite bool_decide_eq_false_2 by (by destruct pre).
    by rewrite (bind_ok _ _ _ _ _ Hstep).
Qed.

Lemma followPtr_ok v : v ≠ VNull → followPtr v = Ok v.
Proof. by destruct v. Qed.

Lemma tree_target_not_nil h s cur t ls :
  tree_target h s cur = Some (t, ls) → cur ≠ VNull.
Proof.
  destruct s as [o k a]. unfold tree_target, tree_container, tree_key.
  cbn [op key args]. intros Ht ->.
  destruct o; try done; destruct a as [| |[|i [|j idxs]]|]; try done.
  by destruct (0 <? String.length k)%nat.
Qed.

Lemma tree_step_not_nil h s cur v ls :
  tree_step h s cur = Some (v, ls) → cur ≠ VNull.
Proof.
  destruct s as [o k a].
  unfold tree_step, tree_keys, tree_container, tree_key, tree_index.
  cbn [op key args]. intros Ht ->.
  destruct o; try done; destruct a as [| |[|i [|j idxs]]|]; try done;
    first [by destruct (lookup_keys _) | by destruct (0 <? String.length k)%nat].
Qed.

(** The last turn of the loop of [Set] leaves the container of the
    target as [parent]. *)
Lemma set_step_target fuel rootObj p h last cur t ls child le :
  tree_target h last cur = Some (t, ls) →
  ∃ child' le',
    set_step (S fuel) rootObj p true last (cur, child, le) h
    = (Ok (target_parent t, child', le'), h).
Proof.
  destruct last as [o k a]. unfold tree_target, set_step. cbn [op key args].
  destruct o; try done.
  - destruct a; try done. intros Ht.
    destruct cur as [| | | | |l|]; try done.
    destruct (map_at h l) as [m|] eqn:Hm; [|done]. simpl in Ht.
    injection Ht as <- _. cbn [target_parent].
    destruct (m !! k) as [v|] eqn:Hk.
    + exists v, None. erewrite bind_ok; last first.
      { erewrite bind_ok; last first.
        { by rewrite lookupKey_plain, (get_key_map _ _ _ _ _ Hm), Hk. }
        reflexivity. }
      reflexivity.
    + exists VNull, (Some (NotExist k)). erewrite bind_ok; last first.
      { erewrite bind_ok; last first.
        { by rewrite lookupKey_plain, (get_key_map _ _ _ _ _ Hm), Hk. }
        reflexivity. }
      reflexivity.
  - destruct a as [| |[|i [|j idxs]]|]; try done. intros Ht.
    destruct (tree_container h _ cur) as [[arr ls1]|] eqn:Hc; [|done].
    simpl in Ht. destruct arr as [| | | | | |la off len]; try done.
    destruct (array_at h la) as [a|] eqn:Ha; [|done]. simpl in Ht.
    destruct ((0 <=? i) && (i <? Z.of_nat len) && (off + len <=? length a)%nat)
      eqn:Hb; [|done].
    injection Ht as <- _. cbn [target_parent].
    apply andb_prop in Hb as [Hb Hlen]. apply andb_prop in Hb as [H0 Hi].
    apply Z.leb_le in H0. apply Z.ltb_lt in Hi. apply Nat.leb_le in Hlen.
    assert (is_Some (take len (drop off a) !! Z.to_nat i)) as [e He].
    { apply lookup_lt_is_Some. rewrite length_take, length_drop. lia. }
    exists e, le. erewrite bind_ok; last first.
    { rewrite (bind_ok _ _ _ _ _ (tree_container_leading_key fuel _ _ _ _ _ Hc)).
      cbn [args_ints args]. rewrite bind_lift_ok.
      erewrite bind_ok; last first.
      { unfold reading, get_idx.
        destruct (Z.leb_spec 0 i); [|lia].
        destruct (Z.leb_spec (Z.of_nat len) i); [lia|].
        unfold reflect_Index, elems. rewrite Ha. simpl.
        rewrite (proj2 (Nat.leb_le _ _) Hlen). simpl. by rewrite He. }
      reflexivity. }
    reflexivity.
Qed.

(** What [Set] does once the loop has left [parent] at the target. *)
Lemma Set_writes_target fuel rootObj p c pre last val h cur t ls child le :
  Compile p = Ok c → steps c = pre ++ [last] →
  rootObj ≠ VNull → val ≠ VNull →
  tree_target h last cur = Some (t, ls) →
  set_loop (S fuel) rootObj p (steps c) (rootObj, rootObj, None) h
  = (Ok (target_parent t, child, le), h) →
  Set_ (S fuel) rootObj p val h = (Ok (), write_target h t val).
Proof.
  intros Hc Hsteps Hroot Hval Ht Hloop. cbn [Set_].
  rewrite Hc, bind_lift_ok, (followPtr_ok _ Hroot), bind_lift_ok.
  rewrite (followPtr_ok _ Hval), bind_lift_ok.
  rewrite (bind_ok _ _ _ _ _ Hloop). cbv beta iota.
  rewrite Hsteps, last_snoc. cbn [or_panic]. rewrite bind_lift_ok.
  destruct last as [o k a]. unfold tree_target in Ht. cbn [op key args] in *.
  destruct o; try done.
  - destruct a; try done.
    destruct cur as [| | | | |l|]; try done.
    destruct (map_at h l) as [m|] eqn:Hm; [|done]. simpl in Ht.
    injection Ht as <- _. cbn [target_parent write_target].
    unfold SetMapIndex. erewrite bind_ok; last by (unfold reading; rewrite Hm).
    unfold store. rewrite Hm.
    unfold map_at in Hm. destruct (h !! l) as [x|] eqn:Hl; [|done].
    by rewrite (proj2 (Nat.ltb_lt _ _) (lookup_lt_Some _ _ _ Hl)).
  - destruct a as [| |[|i [|j idxs]]|]; try done.
    destruct (tree_container h _ cur) as [[arr ls1]|] eqn:Hcont; [|done].
    simpl in Ht. destruct arr as [| | | | | |la off len]; try done.
    destruct (array_at h la) as [a|] eqn:Ha; [|done]. simpl in Ht.
    destruct ((0 <=? i) && (i <? Z.of_nat len) && (off + len <=? length a)%nat)
      eqn:Hb; [|done].
    injection Ht as <- _. cbn [target_parent write_target].
    cbn [args_ints args]. rewrite bind_lift_ok.
    change ([i] !! 0%nat) with (Some i). cbn [or_panic]. rewrite bind_lift_ok.
    unfold SetIndex. erewrite bind_ok; last by (unfold reading; rewrite Ha).
    rewrite Hb. unfold store. rewrite Ha.
    unfold array_at in Ha. destruct (h !! la) as [x|] eqn:Hl; [|done].
    by rewrite (proj2 (Nat.ltb_lt _ _) (lookup_lt_Some _ _ _ Hl)).
Qed.

(** The last step of the program, evaluated after the write, finds the
    value written. *)
Lemma lookup_step_target fuel rootObj h last cur t ls val :
  tree_target h last cur = Some (t, ls) → target_cell t ∉ ls →
  lookup_step (S fuel) rootObj last cur (write_target h t val)
  = (Ok (Continue val), write_target h t val).
Proof.
  destruct last as [o k a]. unfold tree_target, lookup_step. cbn [op key args].
  destruct o; try done.
  - destruct a; try done. intros Ht _.
    destruct cur as [| | | | |l|]; try done.
    destruct (map_at h l) as [m|] eqn:Hm; [|done]. simpl in Ht.
    injection Ht as <- _. cbn [write_target]. rewrite Hm.
    assert (map_at (<[l:=CMap (<[k:=val]> m)]> h) l = Some (<[k:=val]> m)) as Hm'.
    { unfold map_at in *. destruct (h !! l) as [x|] eqn:Hl; [|done].
      by rewrite list_lookup_insert_eq by (by eapply lookup_lt_Some). }
    erewrite bind_ok; last first.
    { by rewrite lookupKey_plain, (get_key_map _ _ _ _ _ Hm'), lookup_insert_eq. }
    reflexivity.
  - destruct a as [| |[|i [|j idxs]]|]; try done. intros Ht Hfresh.
    destruct (tree_container h _ cur) as [[arr ls1]|] eqn:Hc; [|done].
    simpl in Ht. destruct arr as [| | | | | |la off len]; try done.
    destruct (array_at h la) as [a|] eqn:Ha; [|done]. simpl in Ht.
    destruct ((0 <=? i) && (i <? Z.of_nat len) && (off + len <=? length a)%nat)
      eqn:Hb; [|done].
    injection Ht as <- <-. cbn [write_target target_cell] in *. rewrite Ha.
    apply andb_prop in Hb as [Hb Hlen]. apply andb_prop in Hb as [H0 Hi].
    apply Z.leb_le in H0. apply Z.ltb_lt in Hi. apply Nat.leb_le in Hlen.
    set (a' := <[(off + Z.to_nat i)%nat := val]> a).
    set (h' := <[la := CArray a']> h).
    assert (la < length h)%nat as Hla.
    { unfold array_at in Ha. destruct (h !! la) eqn:Hl; [|done].
      by eapply lookup_lt_Some. }
    assert (tree_container h' {| op := IndexOp; key := k; args := ArgInts [i] |} cur
            = Some (VSlice la off len, ls1)) as Hc'.
    { apply (tree_container_agree h); [done|]. intros l Hl.
      apply list_lookup_insert_ne. intros ->. done. }
    rewrite (bind_ok _ _ _ _ _ (tree_container_leading_key fuel _ _ _ _ _ Hc')).
    cbn [args_ints args]. rewrite bind_lift_ok.
    erewrite bind_ok; last first.
    { unfold reading, get_idx.
      destruct (Z.leb_spec 0 i); [|lia].
      destruct (Z.leb_spec (Z.of_nat len) i); [lia|].
      unfold reflect_Index, elems, array_at, h'.
      rewrite list_lookup_insert_eq by done. simpl.
      unfold a'. rewrite length_insert, (proj2 (Nat.leb_le _ _) Hlen). simpl.
      rewrite lookup_take_lt by lia. rewrite lookup_drop.
      by rewrite list_lookup_insert_eq by lia. }
    reflexivity.
Qed.

Lemma write_target_agree h t val ls :
  target_cell t ∉ ls → agree_on ls h (write_target h t val).
Proof.
  intros Hfresh l Hl. assert (target_cell t ≠ l) as Hne by congruence.
  destruct t as [l0 k|la off len i]; cbn [write_target target_cell] in *.
  - destruct (map_at h l0); [|done]. by apply list_lookup_insert_ne.
  - destruct (array_at h la); [|done]. by apply list_lookup_insert_ne.
Qed.

(** C1 as the code has it.  Round trip through [Set], for a path that
    compiles to plain key steps and single-index steps.  When the steps
    before the last one resolve inside the tree from the root (each key
    in an object, each index within an array), the last step designates
    a key of an object reached that way or a position, not negative and
    within the length, of an array reached that way, the container
    written to is none of the containers read on the way (the root is a
    tree), and the value is not [nil], then [Set] returns no error,
    having written the value at the target, and a [Lookup] of the
    compiled path against the same root afterwards returns exactly that
    value. *)
Theorem Set_then_Lookup (fuel : nat) (p : string) (c : Compiled)
    (pre : list step) (final : step) (rootObj val cur : value) (t : target)
    (seen seen' : list loc) (h : heap) :
  Compile p = Ok c →
  steps c = pre ++ [final] →
  tree_walk h pre rootObj = Some (cur, seen) →
  tree_target h final cur = Some (t, seen') →
  target_cell t ∉ seen ++ seen' →
  val ≠ VNull →
  let h' := write_target h t val in
  Set_ (S fuel) rootObj p val h = (Ok (), h')
  ∧ Lookup (S fuel) c rootObj h' = (Ok val, h').
Proof.
  intros Hc Hsteps Hwalk Htarget Hfresh Hval h'.
  apply not_elem_of_app in Hfresh as [Hseen Hseen'].
  assert (rootObj ≠ VNull) as Hroot.
  { destruct pre as [|s pre].
    - injection Hwalk as <- _. by eapply tree_target_not_nil.
    - cbn [tree_walk] in Hwalk.
      destruct (tree_step h s rootObj) as [[v ls]|] eqn:Hs; [|done].
      by eapply tree_step_not_nil. }
  split.
  - destruct (set_loop_walk fuel rootObj p h pre final rootObj cur seen rootObj None Hwalk)
      as (child & le & Hloop).
    destruct (set_step_target fuel rootObj p h final cur t seen' child le Htarget)
      as (child' & le' & Hstep).
    eapply Set_writes_target; try done.
    by rewrite Hsteps, Hloop.
  - unfold Lookup. rewrite Hsteps.
    erewrite lookup_steps_walk; last first.
    { eapply tree_walk_agree; [exact Hwalk|]. by apply write_target_agree. }
    cbn [lookup_steps].
    by rewrite (bind_ok _ _ _ _ _
                  (lookup_step_target fuel rootObj h final cur t seen' val Htarget Hseen')).
Qed.

End SetThenLookup.

(** ** The value a scan step returns *)

Section ScanValue.
Context `{GoLibs}.

(** C10.  A scan step ends the evaluation wherever it stands.  The
    program [pre ++ scan :: post] evaluates to what [pre] alone evaluates
    to, and [post] is never consulted; when [pre] leads through the tree
    from the root to the value [v], the lookup returns [v] and leaves the
    store as it was, also when [pre] is empty ([v] is the root) and when
    [post] is.  In particular [$.a..b] compiles to the steps [a], scan,
    [b]; on an object it returns the value under [a] whatever that value
    is, with or without a [b] in it, it fails with [NotExist] for [a]
    when the object lacks [a], and on every value its lookup is the
    lookup of [$.a]. *)
Theorem wildcard_short_circuits :
  (∀ fuel p p' pre k a post rootObj h,
     Lookup fuel (MkCompiled p (pre ++ Step OpScan k a :: post)) rootObj h
     = Lookup fuel (MkCompiled p' pre) rootObj h)
  ∧ (∀ fuel p pre k a post rootObj h v ls,
       tree_walk h pre rootObj = Some (v, ls) →
       Lookup (S fuel) (MkCompiled p (pre ++ Step OpScan k a :: post)) rootObj h
       = (Ok v, h))
  ∧ Compile "$.a..b"
    = Ok (MkCompiled "$.a..b"
            [Step KeyOp "a" ArgNil; Step OpScan "*" ArgNil; Step KeyOp "b" ArgNil])
  ∧ (∀ fuel l m h,
       map_at h l = Some m →
       JsonPathLookup (S fuel) (VMap l) "$.a..b" h
       = match m !! "a" with
         | Some v => (Ok v, h)
         | None => (Err (NotExist "a"), h)
         end)
  ∧ (∀ fuel rootObj h,
       JsonPathLookup fuel rootObj "$.a..b" h = JsonPathLookup fuel rootObj "$.a" h).
Proof.
  assert (Hscan : ∀ fuel rootObj h,
            JsonPathLookup fuel rootObj "$.a..b" h = JsonPathLookup fuel rootObj "$.a" h).
  { intros fuel rootObj h.
    apply (lookup_steps_scan fuel [Step KeyOp "a" ArgNil] "*" ArgNil
             [Step KeyOp "b" ArgNil]). }
  split_and!.
  - intros. apply lookup_steps_scan.
  - intros fuel p pre k a post rootObj h v ls Hwalk. unfold Lookup. cbn [steps].
    by rewrite (lookup_steps_walk _ _ _ _ _ _ _ _ Hwalk).
  - reflexivity.
  - intros fuel l m h Hm. rewrite Hscan.
    change (JsonPathLookup (S fuel) (VMap l) "$.a" h)
      with (lookup_steps (S fuel) [Step KeyOp "a" ArgNil] (VMap l) (VMap l) h).
    rewrite lookup_plain_key, (get_key_map _ _ _ _ _ Hm).
    by destruct (m !! "a").
  - exact Hscan.
Qed.

End ScanValue.

(** ** The tokenizer on every query *)

Section TokenizerFacts.

Lemma last_is_star_ok (tokens : list string) :
  tokens ≠ [] → ∃ b, last_is_star tokens = Ok b.
Proof.
  intros Hne. unfold last_is_star.
  destruct (last tokens) as [t|] eqn:E.
  - eexists. reflexivity.
  - apply last_None in E. done.
Qed.

Lemma tokenize_step_total (tokens : list string) (token : string) (x : ascii) :
  tokens ≠ [] →
  ∃ more token', tokenize_step (tokens, token) x = Ok (tokens ++ more, token').
Proof.
  intros Hne. unfold tokenize_step.
  set (tk := token +:+ String x "").
  destruct (String.eqb tk ".") eqn:E1.
  { exists [], tk. by rewrite app_nil_r. }
  destruct (String.eqb tk "..") eqn:E2.
  { destruct (last_is_star_ok tokens Hne) as [b ->]. cbn.
    destruct b; [exists []; rewrite app_nil_r|exists ["*"]]; eauto. }
  destruct (GoStr.Contains "[" tk) eqn:E3.
  { destruct (Ascii.eqb x "]" && negb (GoStr.HasSuffix tk "\]")).
    - destruct (starts_with_dot tk) eqn:E4.
      + rewrite slice_ok; [cbn; eauto|..]; [|lia].
        destruct tk as [|a tk']; [done|]. cbn. lia.
      + cbn. eauto.
    - exists [], tk. by rewrite app_nil_r. }
  destruct (Ascii.eqb x ".").
  - destruct (starts_with_dot tk) eqn:E4.
    + rewrite slice_ok; [cbn; eauto|..]; [|lia].
      destruct tk as [|a [|b tk']]; [done| |cbn; lia].
      cbn in E4. destruct a as [[] [] [] [] [] [] [] []]; try done.
    + rewrite slice_ok; [cbn; eauto|lia..].
  - exists [], tk. by rewrite app_nil_r.
Qed.

Lemma tokenize_loop_total (rest : string) :
  ∀ tokens token, tokens ≠ [] →
  ∃ more token', tokenize_loop (tokens, token) rest = Ok (tokens ++ more, token').
Proof.
  induction rest as [|x rest IH]; intros tokens token Hne; cbn [tokenize_loop].
  - exists [], token. by rewrite app_nil_r.
  - destruct (tokenize_step_total tokens token x Hne) as (m1 & t1 & ->). cbn.
    destruct (IH (tokens ++ m1) t1) as (m2 & t2 & ->).
    { destruct tokens; done. }
    exists (m1 ++ m2), t2. by rewrite app_assoc.
Qed.

Lemma tokenize_flush_total (tokens : list string) (token : string) :
  tokens ≠ [] → ∃ more, tokenize_flush (tokens, token) = Ok (tokens ++ more).
Proof.
  intros Hne. unfold tokenize_flush.
  destruct token as [|a token']; [exists []; by rewrite app_nil_r|].
  set (tk := String a token').
  assert (∃ t, (if starts_with_dot tk then GoStr.slice tk 1 (String.length tk)
                else Some tk) = Some t) as [t ->].
  { destruct (starts_with_dot tk); [|eauto].
    rewrite slice_ok; [eauto|cbn; lia|lia]. }
  cbn. destruct (negb (String.eqb t "*")); [eauto|].
  destruct (last_is_star_ok tokens Hne) as [b ->]. cbn.
  destruct b; [exists []; by rewrite app_nil_r|eauto].
Qed.

Lemma parse_indices_error pieces res e :
  parse_indices pieces res = inr e → ∃ text, e = ErrAtoi text.
Proof.
  revert res. induction pieces as [|x rest IH]; intros res; cbn; [done|].
  destruct (GoStr.Atoi (GoStr.Trim x)); [apply IH|].
  intros [= <-]. eauto.
Qed.

Ltac parse_token_cases :=
  unfold parse_token, extractExpression, range_bound;
  repeat first
    [ progress cbn [or_panic mbind outcome_bind]
    | match goal with
      | |- context [or_panic ?x] => destruct x eqn:?
      | |- context [match ?x with _ => _ end] => destruct x eqn:?
      | |- context [if ?x then _ else _] => destruct x eqn:?
      end ];
  intros; simplify_eq/=; try done.

Lemma parse_token_error token s e :
  parse_token token = Ok (s, Some e) → e ≠ ErrRootInFront.
Proof.
  parse_token_cases.
  all: try match goal with
    | Hp : parse_indices _ _ = inr _ |- _ =>
        apply parse_indices_error in Hp as [? ->]; done
    end.
  all: repeat case_match; simplify_eq; done.
Qed.

Lemma parse_token_no_error token e : parse_token token ≠ Err e.
Proof. parse_token_cases. Qed.

Lemma compile_steps_error tokens e :
  compile_steps tokens = Err e → e ≠ ErrRootInFront.
Proof.
  induction tokens as [|t rest IH]; cbn; [done|].
  destruct (parse_token t) as [[s [e'|]]|e'| |] eqn:Ht; cbn; try done.
  - intros [= <-]. eapply parse_token_error. exact Ht.
  - destruct (compile_steps rest); cbn; done.
  - by apply parse_token_no_error in Ht.
Qed.

(** X1.  [tokenize] never panics, and its tokens never lack the root
    marker: on the empty query it returns no token, on a query that
    starts with neither [$] nor [@] it returns its one error, and on
    every other query it returns tokens of which the first is [$] or [@].
    So the test of [tokens[0]] in [Compile] never fires: [Compile]
    returns the error "$ or @ should in front of path" on no query. *)
Theorem tokenize_total (query : string) :
  ((query = "" ∧ tokenize query = Ok [])
   ∨ tokenize query = Err ErrShouldStartWithRoot
   ∨ ∃ r more, (r = "$" ∨ r = "@") ∧ tokenize query = Ok (r :: more))
  ∧ Compile query ≠ Err ErrRootInFront.
Proof.
  assert (Ht : (query = "" ∧ tokenize query = Ok [])
   ∨ tokenize query = Err ErrShouldStartWithRoot
   ∨ ∃ r more, (r = "$" ∨ r = "@") ∧ tokenize query = Ok (r :: more)).
  { destruct query as [|x rest]; [by left|right].
    cbn [tokenize].
    destruct (Ascii.eqb x "$" || Ascii.eqb x "@") eqn:E; [right|by left].
    destruct (tokenize_loop_total rest [String x ""] "") as (m1 & t1 & ->); [done|].
    destruct (tokenize_flush_total (String x "" :: m1) t1) as (m2 & Hf); [done|].
    cbn -[tokenize_flush]. rewrite Hf.
    exists (String x ""), (m1 ++ m2). split; [|done].
    apply orb_true_iff in E as [E|E]; apply Ascii.eqb_eq in E; subst; auto. }
  split; [exact Ht|].
  unfold Compile.
  destruct Ht as [[-> ->]|[->|(r & more & Hr & ->)]]; cbn; [done..|].
  destruct Hr as [-> | ->]; cbn;
    destruct (compile_steps more) eqn:Hc; cbn; try done;
    intros [= ->]; by eapply compile_steps_error.
Qed.

End TokenizerFacts.

(** ** Paths of names *)

Section PathsOfNames.

Lemma bare_app (a b : string) : bare (a +:+ b) = bare a && bare b.
Proof.
  induction a as [|c a IH]; rewrite ?append_nil, ?append_cons; cbn; [done|].
  rewrite IH. by rewrite !andb_assoc.
Qed.

Lemma bare_Index (w : string) :
  bare w = true → GoStr.Index "[" w = None ∧ GoStr.Index "." w = None.
Proof.
  induction w as [|c w IH]; cbn; [done|].
  intros [[Hd Hb]%andb_true_iff Hw]%andb_true_iff.
  destruct (IH Hw) as [-> ->].
  apply negb_true_iff in Hd, Hb. rewrite Hd, Hb. done.
Qed.

Lemma is_name_spec (w : string) :
  is_name w = true → bare w = true ∧ w ≠ "" ∧ w ≠ "*" ∧ w ≠ "$".
Proof.
  unfold is_name. rewrite !andb_true_iff, !negb_true_iff, !String.eqb_neq. tauto.
Qed.

(** The bytes of a name, after a dot. *)
Lemma tokenize_loop_name (w : string) :
  ∀ tokens u rest, bare w = true → bare u = true →
  tokenize_loop (tokens, String "." u) (w +:+ rest)
  = tokenize_loop (tokens, String "." (u +:+ w)) rest.
Proof.
  induction w as [|c w IH]; intros tokens u rest Hw Hu.
  { by rewrite append_nil, append_empty_r. }
  rewrite append_cons. cbn [tokenize_loop].
  cbn in Hw. apply andb_true_iff in Hw as [[Hd Hb]%andb_true_iff Hw].
  apply negb_true_iff in Hd, Hb.
  assert (Hstep : tokenize_step (tokens, String "." u) c
                  = Ok (tokens, String "." (u +:+ String c ""))).
  { unfold tokenize_step. rewrite append_cons.
    assert (Hbare : bare (u +:+ String c "") = true).
    { rewrite bare_app, Hu. cbn. by rewrite Hd, Hb. }
    destruct (bare_Index _ Hbare) as [Hi _].
    replace (String.eqb (String "." (u +:+ String c "")) ".") with false; last first.
    { symmetry. apply String.eqb_neq. destruct u; rewrite ?append_nil, ?append_cons; done. }
    replace (String.eqb (String "." (u +:+ String c "")) "..") with false; last first.
    { symmetry. apply String.eqb_neq. destruct u as [|? [|]];
        rewrite ?append_nil, ?append_cons; try done.
      intros [= ->]. done. }
    unfold GoStr.Contains. cbn [GoStr.Index]. cbn [Ascii.eqb Bool.eqb]. rewrite Hi. cbn [fmap option_fmap option_map].
    by rewrite Hd. }
  rewrite Hstep. cbn [mbind outcome_bind].
  rewrite IH; [|done|].
  - by rewrite append_assoc, append_cons, append_nil.
  - rewrite bare_app, Hu. cbn. by rewrite Hd, Hb.
Qed.

Lemma tokenize_step_first_dot (tokens : list string) :
  tokenize_step (tokens, "") "." = Ok (tokens, ".").
Proof. reflexivity. Qed.

(** The dot that ends a name. *)
Lemma tokenize_step_dot_after_name (tokens : list string) (u : string) :
  is_name u = true →
  tokenize_step (tokens, String "." u) "." = Ok (tokens ++ [u], ".").
Proof.
  intros (Hu & Hne & _)%is_name_spec. unfold tokenize_step. rewrite append_cons.
  destruct (bare_Index _ Hu) as [Hi _].
  replace (String.eqb (String "." (u +:+ ".")) ".") with false; last first.
  { symmetry. apply String.eqb_neq. destruct u; rewrite ?append_nil, ?append_cons; done. }
  replace (String.eqb (String "." (u +:+ ".")) "..") with false; last first.
  { symmetry. apply String.eqb_neq. destruct u as [|? [|]];
      rewrite ?append_nil, ?append_cons; done. }
  unfold GoStr.Contains. cbn [GoStr.Index]. cbn [Ascii.eqb Bool.eqb].
  rewrite (Index_append_None _ _ _ Hi). cbn.
  replace (String.length (u +:+ ".") - 0)%nat with (S (String.length u))
    by (rewrite length_append; cbn; lia).
  rewrite slice_ok; [|lia|cbn [String.length]; rewrite length_append; lia].
  replace (S (String.length u) - 1)%nat with (String.length u) by lia.
  cbn [String.substring]. by rewrite substring_append_l.
Qed.

(** The second dot of a run, after a token other than the wildcard. *)
Lemma tokenize_step_second_dot (tokens : list string) (t : string) :
  last tokens = Some t →
  tokenize_step (tokens, ".") "."
  = Ok ((if String.eqb t "*" then tokens else tokens ++ ["*"]), ".").
Proof.
  intros Hl. unfold tokenize_step, last_is_star. rewrite Hl. reflexivity.
Qed.

Lemma tokenize_loop_dots (n : nat) (tokens : list string) (rest : string) :
  tokenize_loop (tokens ++ ["*"], ".") (dots n +:+ rest)
  = tokenize_loop (tokens ++ ["*"], ".") rest.
Proof.
  induction n as [|n IH]; cbn [dots]; [by rewrite append_nil|].
  rewrite append_cons. cbn [tokenize_loop].
  rewrite (tokenize_step_second_dot _ "*"); [|by rewrite last_snoc].
  cbn. apply IH.
Qed.

(** What follows the first dot of a segment. *)
Lemma tokenize_loop_segment (s : segment) (tokens : list string) (t : string) :
  is_name (segment_name s) = true → last tokens = Some t → t ≠ "*" →
  ∃ body front,
    segment_text s = String "." body
    ∧ segment_tokens s = front ++ [segment_name s]
    ∧ ∀ rest, tokenize_loop (tokens, ".") (body +:+ rest)
              = tokenize_loop (tokens ++ front, String "." (segment_name s)) rest.
Proof.
  intros Hn Hl Ht. pose proof (is_name_spec _ Hn) as (Hb & _).
  destruct s as [w|n w]; cbn [segment_name] in *.
  - exists w, []. split_and!; [done..|]. intros rest.
    rewrite (tokenize_loop_name w tokens "" rest Hb eq_refl).
    by rewrite append_nil, app_nil_r.
  - exists (String "." (dots n +:+ w)), ["*"]. split_and!; [done..|]. intros rest.
    rewrite append_cons. cbn [tokenize_loop].
    rewrite (tokenize_step_second_dot _ t Hl).
    apply String.eqb_neq in Ht. rewrite Ht. cbn [mbind outcome_bind].
    rewrite append_assoc, tokenize_loop_dots.
    rewrite (tokenize_loop_name w _ "" rest Hb eq_refl).
    by rewrite append_nil.
Qed.

Lemma tokenize_flush_name (tokens : list string) (u : string) :
  is_name u = true → tokenize_flush (tokens, String "." u) = Ok (tokens ++ [u]).
Proof.
  intros (_ & _ & Hs & _)%is_name_spec. unfold tokenize_flush.
  cbn [starts_with_dot]. rewrite slice_ok; [|cbn; lia|lia].
  replace (String.length (String "." u) - 1)%nat with (String.length u)
    by (cbn; lia).
  cbn [String.substring]. rewrite substring_all.
  cbn [or_panic mbind outcome_bind].
  apply String.eqb_neq in Hs. by rewrite Hs.
Qed.

(** The segments after a name. *)
Lemma tokenize_loop_segments (segs : list segment) :
  ∀ tokens u, is_name u = true →
  Forall (λ s, is_name (segment_name s) = true) segs →
  tokenize_loop (tokens, String "." u) (segments_text segs) ≫= tokenize_flush
  = Ok (tokens ++ u :: (segs ≫= segment_tokens)).
Proof.
  induction segs as [|s segs IH]; intros tokens u Hu Hs.
  { cbn [segments_text foldr tokenize_loop mbind outcome_bind].
    rewrite tokenize_flush_name by done. by cbn. }
  apply Forall_cons in Hs as [Hs Hsegs].
  pose proof (is_name_spec _ Hu) as (_ & _ & Hstar & _).
  destruct (tokenize_loop_segment s (tokens ++ [u]) u Hs) as
    (body & front & Htext & Htok & Hloop); [by rewrite last_snoc|done|].
  cbn [segments_text foldr]. rewrite Htext, append_cons.
  cbn [tokenize_loop]. rewrite (tokenize_step_dot_after_name _ _ Hu).
  cbn [mbind outcome_bind]. rewrite Hloop.
  fold (segments_text segs). rewrite (IH _ _ Hs Hsegs).
  f_equal. cbn [mbind list_bind]. rewrite Htok.
  by rewrite <- !app_assoc.
Qed.

Lemma compile_steps_segments (segs : list segment) :
  Forall (λ s, is_name (segment_name s) = true) segs →
  compile_steps (segs ≫= segment_tokens) = Ok (segs ≫= segment_steps).
Proof.
  assert (Hname : ∀ w, is_name w = true →
            parse_token w = Ok (Step KeyOp w ArgNil, None)).
  { intros w (Hb & _ & Hs & Hr)%is_name_spec. unfold parse_token.
    apply String.eqb_neq in Hs, Hr. rewrite Hs, Hr.
    by destruct (bare_Index _ Hb) as [-> _]. }
  induction 1 as [|s segs Hs _ IH]; [done|].
  cbn [mbind list_bind]. fold (segs ≫= segment_tokens) (segs ≫= segment_steps).
  destruct s as [w|n w]; cbn [segment_tokens segment_steps segment_name app] in *;
    cbn [compile_steps].
  - rewrite (Hname _ Hs). cbn [mbind outcome_bind]. by rewrite IH.
  - change (parse_token "*") with (Ok (Step OpScan "*" ArgNil, @None error)).
    cbn [mbind outcome_bind]. rewrite (Hname _ Hs). cbn [mbind outcome_bind].
    by rewrite IH.
Qed.

Lemma tokenize_segments (segs : list segment) :
  Forall (λ s, is_name (segment_name s) = true) segs →
  tokenize ("$" +:+ segments_text segs) = Ok ("$" :: (segs ≫= segment_tokens)).
Proof.
  intros Hs. rewrite append_cons, append_nil. cbn [tokenize Ascii.eqb Bool.eqb orb].
  destruct segs as [|s segs]; [done|].
  apply Forall_cons in Hs as [Hs Hsegs].
  destruct (tokenize_loop_segment s ["$"] "$" Hs) as
    (body & front & Htext & Htok & Hloop); [done..|].
  cbn [segments_text foldr]. rewrite Htext, append_cons.
  cbn [tokenize_loop]. rewrite tokenize_step_first_dot.
  cbn [mbind outcome_bind]. rewrite Hloop.
  fold (segments_text segs). rewrite (tokenize_loop_segments _ _ _ Hs Hsegs).
  f_equal. cbn [mbind list_bind]. rewrite Htok.
  by rewrite <- !app_assoc.
Qed.

(** The path of one name. *)
Lemma Compile_plain_key (k : string) :
  is_name k = true →
  tokenize ("$." +:+ k) = Ok ["$"; k]
  ∧ Compile ("$." +:+ k) = Ok (MkCompiled ("$." +:+ k) [Step KeyOp k ArgNil]).
Proof.
  intros Hk.
  assert (Hs : Forall (λ s, is_name (segment_name s) = true) [Child k])
    by (by constructor).
  pose proof (tokenize_segments _ Hs) as Ht.
  cbn [segments_text foldr segment_text mbind list_bind segment_tokens app] in Ht.
  rewrite append_empty_r, !append_cons, !append_nil in Ht.
  rewrite !append_cons, !append_nil. split; [exact Ht|].
  pose proof (compile_steps_segments _ Hs) as Hc.
  cbn [mbind list_bind segment_tokens segment_steps app] in Hc.
  unfold Compile. rewrite Ht. cbn -[compile_steps]. by rewrite Hc.
Qed.

(** X2.  A path written as [$] followed by segments, each a name after
    one dot ([.name]) or after two dots or more ([..name], [....name]),
    where a name is not empty, holds no dot and no opening bracket and is
    neither [*] nor [$]: [tokenize] returns [$] and, segment by segment,
    the name, preceded by one [*] when the segment has two dots or more,
    however many; [Compile] returns the key steps of the names, with one
    scan step for every run of dots. *)
Theorem Compile_path_of_names (segs : list segment) :
  Forall (λ s, is_name (segment_name s) = true) segs →
  let p := "$" +:+ segments_text segs in
  tokenize p = Ok ("$" :: (segs ≫= segment_tokens))
  ∧ Compile p = Ok (MkCompiled p (segs ≫= segment_steps)).
Proof.
  intros Hs p.
  pose proof (tokenize_segments segs Hs) as Ht. fold p in Ht.
  split; [exact Ht|].
  unfold Compile. rewrite Ht. cbn -[compile_steps].
  by rewrite (compile_steps_segments _ Hs).
Qed.

End PathsOfNames.

(** ** Quoted keys, and the steps of a program *)

Section QuotedKeys.

Lemma Index_append_Some (c : ascii) (a b : string) (i : nat) :
  GoStr.Index c a = Some i → GoStr.Index c (a +:+ b) = Some i.
Proof.
  revert i. induction a as [|x a IH]; intros i; [done|].
  rewrite append_cons. cbn. destruct (Ascii.eqb x c); [done|].
  destruct (GoStr.Index c a) as [j|]; [|done].
  by rewrite (IH j).
Qed.

Lemma drop_append (a b : string) : GoStr.drop (String.length a) (a +:+ b) = b.
Proof. induction a as [|x a IH]; [by rewrite append_nil|by rewrite append_cons]. Qed.

(** The bytes between the brackets of a token. *)
Lemma tokenize_loop_in_bracket (w : string) :
  ∀ tokens pre rest i,
    GoStr.Index "[" pre = Some i → GoStr.Index "]" w = None →
    tokenize_loop (tokens, pre) (w +:+ rest)
    = tokenize_loop (tokens, pre +:+ w) rest.
Proof.
  induction w as [|c w IH]; intros tokens pre rest i Hpre Hw.
  { by rewrite append_nil, append_empty_r. }
  rewrite append_cons. cbn [tokenize_loop].
  cbn in Hw. destruct (Ascii.eqb c "]") eqn:Hc; [done|].
  destruct (GoStr.Index "]" w) eqn:Hw'; [done|].
  pose proof (Index_append_Some "[" pre (String c "") i Hpre) as Hi.
  assert (Hstep : tokenize_step (tokens, pre) c = Ok (tokens, pre +:+ String c "")).
  { unfold tokenize_step.
    destruct (String.eqb_spec (pre +:+ String c "") ".") as [Heq|_].
    { by rewrite Heq in Hi. }
    destruct (String.eqb_spec (pre +:+ String c "") "..") as [Heq|_].
    { by rewrite Heq in Hi. }
    unfold GoStr.Contains. rewrite Hi, Hc. done. }
  rewrite Hstep. cbn [mbind outcome_bind].
  rewrite (IH _ _ _ i Hi eq_refl).
  by rewrite append_assoc, append_cons, append_nil.
Qed.

Lemma Index_append_self (c : ascii) (a b : string) :
  ∃ i, GoStr.Index c (a +:+ String c b) = Some i.
Proof.
  destruct (GoStr.Index c a) as [i|] eqn:Ha.
  - exists i. by apply Index_append_Some.
  - rewrite (Index_append_None _ _ _ Ha). cbn. rewrite Ascii.eqb_refl. cbn. eauto.
Qed.

(** A bracketed part without closing bracket inside, and its closing
    bracket. *)
Lemma tokenize_loop_bracketed (inner : string) (q : ascii)
    (tokens : list string) (k rest : string) :
  GoStr.Index "]" inner = None → q ≠ "]"%char → q ≠ "\"%char →
  tokenize_loop (tokens, String "." k) (String "[" (inner +:+ String q "]") +:+ rest)
  = tokenize_loop (tokens ++ [k +:+ String "[" (inner +:+ String q "]")], "") rest.
Proof.
  intros Hinner Hq Hq'.
  set (w := inner +:+ String q "").
  assert (inner +:+ String q "]" = w +:+ "]") as ->.
  { unfold w. by rewrite append_assoc, append_cons, append_nil. }
  assert (Hw : GoStr.Index "]" w = None).
  { unfold w. rewrite (Index_append_None _ _ _ Hinner). cbn.
    apply Ascii.eqb_neq in Hq. by rewrite Hq. }
  set (pre := String "." k).
  destruct (Index_append_self "[" pre "") as [i Hi].
  assert (Hopen : tokenize_step (tokens, pre) "[" = Ok (tokens, pre +:+ "[")).
  { unfold tokenize_step.
    destruct (String.eqb_spec (pre +:+ "[") ".") as [Heq|_].
    { by rewrite Heq in Hi. }
    destruct (String.eqb_spec (pre +:+ "[") "..") as [Heq|_].
    { by rewrite Heq in Hi. }
    unfold GoStr.Contains. by rewrite Hi. }
  rewrite append_cons.
  change (tokenize_loop (tokens, pre) (String "[" ((w +:+ "]") +:+ rest)))
    with (tokenize_step (tokens, pre) "[" ≫= λ st, tokenize_loop st ((w +:+ "]") +:+ rest)).
  rewrite Hopen. cbn [mbind outcome_bind].
  rewrite append_assoc, (tokenize_loop_in_bracket _ _ _ _ _ Hi Hw).
  set (body := (pre +:+ "[") +:+ w).
  pose proof (Index_append_Some "[" _ w _ Hi) as Hb. fold body in Hb.
  pose proof (Index_append_Some "[" _ "]" _ Hb) as Hb'.
  rewrite append_cons, append_nil.
  change (tokenize_loop (tokens, body) (String "]" rest))
    with (tokenize_step (tokens, body) "]" ≫= λ st, tokenize_loop st rest).
  assert (Hclose : tokenize_step (tokens, body) "]"
                   = Ok (tokens ++ [k +:+ String "[" (w +:+ "]")], "")).
  { unfold tokenize_step.
    destruct (String.eqb_spec (body +:+ "]") ".") as [Heq|_].
    { by rewrite Heq in Hb'. }
    destruct (String.eqb_spec (body +:+ "]") "..") as [Heq|_].
    { by rewrite Heq in Hb'. }
    unfold GoStr.Contains. rewrite Hb'.
    assert (Hs : GoStr.HasSuffix (body +:+ "]") "\]" = false).
    { unfold GoStr.HasSuffix. apply andb_false_iff. right.
      assert (body +:+ "]" = ((pre +:+ "[") +:+ inner) +:+ String q "]") as ->.
      { unfold body, w. by rewrite !append_assoc, !append_cons, !append_nil. }
      rewrite length_append.
      replace (String.length ((pre +:+ "[") +:+ inner) + String.length (String q "]")
               - String.length "\]")%nat
        with (String.length ((pre +:+ "[") +:+ inner)) by (cbn; lia).
      rewrite drop_append. apply String.eqb_neq. congruence. }
    rewrite Hs. cbn [Ascii.eqb Bool.eqb andb negb].
    assert (body +:+ "]" = String "." (k +:+ String "[" (w +:+ "]"))) as ->.
    { unfold body, pre. by rewrite !append_assoc, !append_cons, !append_nil. }
    cbn [starts_with_dot]. rewrite slice_ok; [|cbn; lia|lia].
    replace (String.length (String "." (k +:+ String "[" (w +:+ "]"))) - 1)%nat
      with (String.length (k +:+ String "[" (w +:+ "]"))) by (cbn; lia).
    cbn [String.substring]. rewrite substring_all. reflexivity. }
  rewrite Hclose. reflexivity.
Qed.

Lemma parse_token_quoted_key (k sub : string) :
  GoStr.Index "[" k = None → sub ≠ "" →
  parse_token (k +:+ String "[" (String "'" sub +:+ String "'" "]"))
  = Ok (Step KeyOp k (ArgStr sub), None).
Proof.
  intros Hkey Hsub.
  set (inner := String "'" (sub +:+ "'")).
  set (tail := String "[" (inner +:+ "]")).
  assert (String "[" (String "'" sub +:+ String "'" "]") = tail) as ->.
  { unfold tail, inner. rewrite !append_cons. do 2 f_equal.
    by rewrite append_assoc, append_cons, append_nil. }
  assert (GoStr.Index "[" (k +:+ tail) = Some (String.length k)) as Hidx.
  { rewrite Index_append_None by done. unfold tail. simpl. f_equal. lia. }
  assert (String.length inner = S (S (String.length sub))) as Hinner.
  { unfold inner. simpl. rewrite length_append. simpl. lia. }
  assert ((String.length tail <? 3)%nat = false) as Hlen.
  { apply Nat.ltb_ge.
    change (String.length tail) with (S (String.length (inner +:+ "]"))).
    rewrite length_append, Hinner. lia. }
  pose proof (slice_brackets inner) as Hbr. cbv zeta in Hbr. fold tail in Hbr.
  assert (String.get 0 inner = Some "'"%char) as Hget by done.
  assert ((2 <? String.length inner)%nat = true) as Hlong.
  { apply Nat.ltb_lt. rewrite Hinner. destruct sub; [done|]. cbn. lia. }
  assert (GoStr.slice inner 1 (String.length inner - 1) = Some sub) as Hs.
  { rewrite slice_ok by lia. rewrite Hinner. unfold inner.
    replace (S (S (String.length sub)) - 1 - 1)%nat with (String.length sub) by lia.
    cbn [String.substring]. by rewrite substring_append_l. }
  unfold parse_token.
  destruct (String.eqb_spec (k +:+ tail) "$") as [Heq|_].
  { rewrite Heq in Hidx. discriminate. }
  destruct (String.eqb_spec (k +:+ tail) "*") as [Heq|_].
  { rewrite Heq in Hidx. discriminate. }
  rewrite Hidx, slice_prefix, slice_suffix.
  clearbody tail inner.
  cbn [mbind outcome_bind or_panic]. rewrite Hlen, Hbr.
  cbn [mbind outcome_bind or_panic]. rewrite Hget.
  cbn [mbind outcome_bind or_panic]. rewrite Hlong.
  cbn [Ascii.eqb Bool.eqb andb]. rewrite Hs. reflexivity.
Qed.

(** X3.  Round trip through [stepToPath], which [Set] uses to write a key
    in every element of an array.  For a key step whose key holds no dot
    and no bracket and that has either no subkey and a name as its key,
    or a quoted subkey that is not empty and holds no closing bracket,
    the path that [stepToPath] prints compiles to the program of exactly
    that step. *)
Theorem stepToPath_compiles_back (s : step) :
  op s = KeyOp → bare (key s) = true →
  match args s with
  | ArgNil => is_name (key s) = true
  | ArgStr sub => sub ≠ "" ∧ GoStr.Index "]" sub = None
  | _ => False
  end →
  Compile (stepToPath s) = Ok (MkCompiled (stepToPath s) [s]).
Proof.
  destruct s as [o k a]. cbn [op key args]. intros -> Hk Ha.
  unfold stepToPath. cbn [op key args].
  destruct a as [|sub| |]; [| |done..].
  - by apply Compile_plain_key.
  - destruct Ha as [Hne Hsub]. destruct (bare_Index _ Hk) as [Hik _].
    assert (Hp : "$." +:+ k +:+ "['" +:+ sub +:+ "']"
                 = String "$" (String "."
                     (k +:+ String "[" (String "'" sub +:+ String "'" "]")))).
    { by rewrite !append_cons, !append_nil. }
    assert (Ht : tokenize ("$." +:+ k +:+ "['" +:+ sub +:+ "']")
                 = Ok ["$"; k +:+ String "[" (String "'" sub +:+ String "'" "]")]).
    { rewrite Hp. cbn [tokenize Ascii.eqb Bool.eqb orb].
      change (tokenize_loop (["$"], "") (String "." ?r))
        with (tokenize_step (["$"], "") "." ≫= λ st, tokenize_loop st r).
      rewrite tokenize_step_first_dot. cbn [mbind outcome_bind].
      rewrite (tokenize_loop_name k _ "" _ Hk eq_refl), append_nil.
      pose proof (tokenize_loop_bracketed (String "'" sub) "'" ["$"] k "") as Hb.
      rewrite append_empty_r in Hb. rewrite Hb; [done| |done..].
      cbn. by rewrite Hsub. }
    unfold Compile. rewrite Ht. cbn -[compile_steps parse_token].
    cbn [compile_steps]. rewrite (parse_token_quoted_key _ _ Hik Hne). done.
Qed.

Lemma compile_steps_follow (tokens : list string) (ss : list step) :
  compile_steps tokens = Ok ss →
  Forall2 (λ t s, parse_token t = Ok (s, None)) tokens ss.
Proof.
  revert ss. induction tokens as [|t rest IH]; intros ss; cbn [compile_steps].
  { intros [= <-]. constructor. }
  destruct (parse_token t) as [[s [e|]]| | |] eqn:Ht; cbn; try done.
  destruct (compile_steps rest) as [ss'| | |]; cbn; try done.
  intros [= <-]. constructor; [done|]. by apply IH.
Qed.

(** X4.  A program that [Compile] returns keeps the query as its [path],
    and its steps are the tokens after the root marker, each parsed by
    [parse_token] without error: as many steps as tokens, in the order
    of the tokens. *)
Theorem Compile_one_step_per_token (jpath : string) (c : Compiled) :
  Compile jpath = Ok c →
  path c = jpath
  ∧ ∃ root tokens,
      tokenize jpath = Ok (root :: tokens)
      ∧ (root = "$" ∨ root = "@")
      ∧ Forall2 (λ t s, parse_token t = Ok (s, None)) tokens (steps c)
      ∧ length (steps c) = length tokens.
Proof.
  unfold Compile. intros Hc.
  destruct (tokenize jpath) as [[|root tokens]| | |] eqn:Ht; cbn in Hc; try done.
  destruct (negb (String.eqb root "@") && negb (String.eqb root "$")) eqn:Hr;
    [done|].
  destruct (compile_steps tokens) as [ss| | |] eqn:Hs; cbn in Hc; try done.
  injection Hc as <-. cbn [path steps]. split; [done|].
  exists root, tokens. pose proof (compile_steps_follow _ _ Hs) as Hf.
  split_and!; [done| |done|symmetry; by eapply Forall2_length].
  apply andb_false_iff in Hr as [Hr|Hr]; apply negb_false_iff, String.eqb_eq in Hr; auto.
Qed.

End QuotedKeys.

(** ** Evaluating a program in two parts *)

Section MoreMonadFacts.

Lemma bind_ok_inv {A B} (m : M A) (f : A → M B) h b h' :
  (m ≫= f) h = (Ok b, h') → ∃ a h1, m h = (Ok a, h1) ∧ f a h1 = (Ok b, h').
Proof.
  unfold mbind, M_bind. destruct (m h) as [[a| | |] h1]; try done. eauto.
Qed.

Lemma bind_assoc {A B C} (m : M A) (f : A → M B) (g : B → M C) h :
  ((m ≫= f) ≫= g) h = (m ≫= λ a, f a ≫= g) h.
Proof. unfold mbind, M_bind. by destruct (m h) as [[a| | |] h1]. Qed.

Lemma bind_run {A B} (m : M A) (f : A → M B) h :
  (m ≫= f) h
  = match m h with
    | (Ok a, h1) => f a h1
    | (Err e, h1) => (Err e, h1)
    | (Panic, h1) => (Panic, h1)
    | (OutOfFuel, h1) => (OutOfFuel, h1)
    end.
Proof. reflexivity. Qed.

End MoreMonadFacts.

Section Composition.
Context `{GoLibs}.

Ltac bind_inv H :=
  repeat match type of H with
  | (_ ≫= _) _ = (Ok _, _) =>
      let a := fresh "a" in let h1 := fresh "h" in let H1 := fresh "H" in
      apply bind_ok_inv in H as (a & h1 & H1 & H)
  | (match ?x with _ => _ end) _ = (Ok _, _) => destruct x
  | (let '(_, _) := ?x in _) _ = (Ok _, _) => destruct x
  end.

Lemma lookup_step_continue fuel rootObj s obj h r h' :
  op s ≠ OpScan → lookup_step fuel rootObj s obj h = (Ok r, h') →
  ∃ v, r = Continue v.
Proof.
  intros Hs. unfold lookup_step.
  destruct (op s); try done; intros Hr; bind_inv Hr;
    try (injection Hr as <- _; eauto); try done.
Qed.

(** X5.  Evaluation composes.  When no step of [pre] is a scan step,
    looking up the steps [pre ++ post] is looking up [pre] and then
    evaluating [post] from the value reached, the root staying the root;
    an error or a panic in [pre] is the outcome of the whole lookup. *)
Theorem Lookup_of_a_concatenation (fuel : nat) (p p' : string)
    (pre post : list step) (rootObj : value) (h : heap) :
  Forall (λ s, op s ≠ OpScan) pre →
  Lookup fuel (MkCompiled p (pre ++ post)) rootObj h
  = (v ← Lookup fuel (MkCompiled p' pre) rootObj; lookup_steps fuel post rootObj v) h.
Proof.
  intros Hpre. unfold Lookup. cbn [steps].
  assert (Hfrom : ∀ obj h,
    lookup_steps fuel (pre ++ post) rootObj obj h
    = (v ← lookup_steps fuel pre rootObj obj; lookup_steps fuel post rootObj v) h);
    [|by apply Hfrom].
  clear h. induction Hpre as [|s pre Hs _ IH]; intros obj h.
  { cbn [app lookup_steps]. by rewrite bind_ret. }
  cbn [app lookup_steps]. rewrite bind_assoc.
  rewrite !(bind_run (lookup_step fuel rootObj s obj)).
  destruct (lookup_step fuel rootObj s obj h) as [[r| | |] h1] eqn:Hr; try done.
  destruct (lookup_step_continue _ _ _ _ _ _ _ Hs Hr) as [v ->].
  apply IH.
Qed.

End Composition.

(** ** Several indices *)

Section SeveralIndices.
Context `{GoLibs}.

Lemma index_loop_all obj idxs :
  ∀ res vs h, Forall2 (λ i v, get_idx h obj i = Ok v) idxs vs →
  index_loop obj idxs res h = (Ok (res ++ vs), h).
Proof.
  induction idxs as [|i idxs IH]; intros res vs h Hall.
  { apply Forall2_nil_inv_l in Hall as ->. by rewrite app_nil_r. }
  apply Forall2_cons_inv_l in Hall as (v & vs' & Hv & Hall & ->).
  cbn [index_loop]. rewrite bind_run. unfold reading at 1. rewrite Hv.
  rewrite (IH _ _ _ Hall). by rewrite <- app_assoc.
Qed.

Lemma index_loop_error obj pre i post :
  ∀ res vs h e, Forall2 (λ i v, get_idx h obj i = Ok v) pre vs →
  get_idx h obj i = Err e →
  index_loop obj (pre ++ i :: post) res h = (Err e, h).
Proof.
  induction pre as [|j pre IH]; intros res vs h e Hall He.
  { cbn [app index_loop]. rewrite bind_run. unfold reading at 1. by rewrite He. }
  apply Forall2_cons_inv_l in Hall as (v & vs' & Hv & Hall & ->).
  cbn [app index_loop]. rewrite bind_run. unfold reading at 1. rewrite Hv.
  by apply (IH _ vs').
Qed.

(** X6.  An index step with two indices or more, on the array [arr] that
    its leading key designates.  When every index is within the length
    the step returns a fresh array holding the elements in the order the
    indices are listed (not the order of the array, repetitions kept);
    otherwise it returns the error of the first index out of range and
    builds nothing. *)
Theorem several_indices_in_listed_order (fuel : nat) (rootObj obj arr : value)
    (k : string) (idxs : list Z) (h h1 : heap) :
  (2 ≤ length idxs)%nat →
  leading_key fuel obj (Step IndexOp k (ArgInts idxs)) h = (Ok arr, h1) →
  (∀ vs, Forall2 (λ i v, get_idx h1 arr i = Ok v) idxs vs →
     lookup_step fuel rootObj (Step IndexOp k (ArgInts idxs)) obj h
     = (Ok (Continue (VSlice (length h1) 0 (length vs))), h1 ++ [CArray vs])
     ∧ elems (h1 ++ [CArray vs]) (length h1) 0 (length vs) = Some vs)
  ∧ (∀ pre i post vs e, idxs = pre ++ i :: post →
     Forall2 (λ i v, get_idx h1 arr i = Ok v) pre vs →
     get_idx h1 arr i = Err e →
     lookup_step fuel rootObj (Step IndexOp k (ArgInts idxs)) obj h = (Err e, h1)).
Proof.
  intros Hlen Hlead. split.
  - intros vs Hall. split.
    + unfold lookup_step. cbn [op args]. rewrite (bind_ok _ _ _ _ _ Hlead).
      unfold args_ints. cbn [args]. rewrite bind_lift_ok.
      destruct idxs as [|i [|j idxs]]; [cbn in Hlen; lia..|].
      rewrite (bind_ok _ _ _ _ _ (index_loop_all _ _ [] _ _ Hall)).
      reflexivity.
    + unfold elems, array_at. rewrite lookup_app_r by lia.
      rewrite Nat.sub_diag. cbn. rewrite Nat.leb_refl. by rewrite firstn_all.
  - intros pre i post vs e -> Hall He.
    unfold lookup_step. cbn [op args]. rewrite (bind_ok _ _ _ _ _ Hlead).
    unfold args_ints. cbn [args]. rewrite bind_lift_ok.
    pose proof (index_loop_error _ _ _ post [] _ _ _ Hall He) as Hl.
    destruct (pre ++ i :: post) as [|a [|b l]] eqn:E; [cbn in Hlen; lia..|].
    by rewrite (bind_err _ _ _ _ _ Hl).
Qed.

End SeveralIndices.

(** ** The elements of a range *)

Section RangeElements.

(** X7.  When [get_range] succeeds on a slice with the elements [es],
    then, [a] and [b] being the bounds [_frm] and [_to] it computes,
    [a < len] and [a <= b <= len], and the result is the slice of the
    same backing array that starts [a] elements further and has [b - a]
    elements: its elements are [es[a .. b)], and none is copied. *)
Theorem range_is_a_window_on_the_array (l : loc) (off len : nat)
    (frm to : option Z) (r : value) (es : list value) (h : heap) :
  get_range (VSlice l off len) frm to = Ok r →
  elems h l off len = Some es →
  let a := Z.to_nat (range_from (Z.of_nat len) frm) in
  let b := Z.to_nat (range_to (Z.of_nat len) to) in
  (a < len)%nat ∧ (a ≤ b ≤ len)%nat
  ∧ r = VSlice l (off + a) (b - a)
  ∧ elems h l (off + a) (b - a) = Some (take (b - a) (drop a es)).
Proof.
  intros Hr He a b. unfold get_range in Hr. cbv zeta in Hr.
  destruct (_ || _) eqn:E1 in Hr; [done|].
  destruct (_ || _) eqn:E2 in Hr; [done|].
  destruct (_ <? _) eqn:E3 in Hr; [done|].
  apply orb_false_iff in E1 as [E1a E1b], E2 as [E2a E2b].
  apply Z.ltb_ge in E1a, E2a, E3. apply Z.leb_gt in E1b. apply Z.ltb_ge in E2b.
  injection Hr as <-.
  assert (Hab : (b - a)%nat = Z.to_nat (range_to (Z.of_nat len) to
                                       - range_from (Z.of_nat len) frm)) by lia.
  split_and!; [lia..|by rewrite Hab|].
  unfold elems in *. destruct (array_at h l) as [arr|]; [|done]. cbn in *.
  destruct (off + len <=? length arr)%nat eqn:Hfit; [|done].
  apply Nat.leb_le in Hfit. injection He as <-.
  replace (off + a + (b - a) <=? length arr)%nat with true
    by (symmetry; apply Nat.leb_le; lia).
  f_equal. rewrite <- drop_drop, !take_drop_commute, take_take.
  do 3 f_equal. lia.
Qed.

End RangeElements.

(** ** What a filter keeps *)

Section FilterKeeps.
Context `{GoLibs}.

Lemma lift_ok_inv {A} (o : outcome A) h a h' :
  lift o h = (Ok a, h') → o = Ok a ∧ h' = h.
Proof. unfold lift, reading. by intros [= -> ->]. Qed.

Lemma filter_loop_sublist (test : value → M bool) (h0 : heap) :
  (∀ v, framed (test v)) →
  ∀ candidates es, Forall2 (reads h0) candidates es →
  ∀ res h out h', h0 `prefix_of` h →
    filter_loop test candidates res h = (Ok out, h') →
    ∃ rs, out = res ++ rs ∧ rs `sublist_of` es ∧ h `prefix_of` h'.
Proof.
  intros Htest. induction 1 as [|read e candidates es Hread _ IH];
    intros res h out h' Hh; cbn [filter_loop].
  { intros [= <- <-]. exists []. by rewrite app_nil_r. }
  rewrite (bind_ok _ _ _ _ _ (Hread h Hh)).
  intros Hl. apply bind_ok_inv in Hl as (ok & h1 & Hok & Hl).
  pose proof (Htest e h) as Hf. rewrite Hok in Hf. cbn in Hf.
  apply IH in Hl as (rs & -> & Hsub & Hh1); [|by etrans].
  destruct ok.
  - exists (e :: rs). rewrite <- app_assoc. split_and!; [done| |by etrans].
    by apply sublist_skip.
  - exists rs. split_and!; [done| |by etrans]. by apply sublist_cons.
Qed.

Lemma filter_loops_sublist fuel root (lp op rp : string) h0 candidates es h r h' :
  Forall2 (reads h0) candidates es → h0 `prefix_of` h →
  (if String.eqb op "=~" then
     pat ← lift (regFilterCompile rp);
     res ← filter_loop (fun tmp => eval_reg_filter fuel tmp root lp pat) candidates [];
     new_slice res
   else
     res ← filter_loop (fun tmp => eval_filter fuel tmp root lp op rp) candidates [];
     new_slice res) h = (Ok r, h') →
  ∃ rs h1, r = VSlice (length h1) 0 (length rs) ∧ h' = h1 ++ [CArray rs]
           ∧ h `prefix_of` h1 ∧ rs `sublist_of` es.
Proof.
  intros Hc Hh Hr.
  assert (∃ test res h1, (∀ v, framed (test v))
            ∧ filter_loop test candidates [] h = (Ok res, h1)
            ∧ new_slice res h1 = (Ok r, h')) as (test & res & h1 & Ht & Hl & Hn).
  { destruct (String.eqb op "=~").
    - apply bind_ok_inv in Hr as (pat & hp & Hp & Hr).
      apply lift_ok_inv in Hp as [_ ->].
      apply bind_ok_inv in Hr as (res & h1 & Hl & Hn).
      eexists _, res, h1. split_and!; [|done..].
      intros v. apply framed_eval_reg_filter.
    - apply bind_ok_inv in Hr as (res & h1 & Hl & Hn).
      eexists _, res, h1. split_and!; [|done..].
      intros v. apply framed_eval_filter. }
  destruct (filter_loop_sublist test h0 Ht _ _ Hc _ _ _ _ Hh Hl) as (rs & -> & Hs & Hp).
  injection Hn as <- <-. exists rs, h1. done.
Qed.

(** X8.  Whatever the clause says and whatever the libraries compute, a
    filter that succeeds on an array returns a fresh array whose elements
    are a sublist of those of the array (elements of the array, in their
    order), and overwrites no cell of the store; on an object it returns
    a fresh array of values of the object, none more often than the
    object holds it, in an order that is not fixed (a sublist of a
    reordering of the values of the object). *)
Theorem filter_keeps_a_sublist (fuel : nat) (root r : value) (filter : string)
    (h h' : heap) :
  (∀ l off len es,
     elems h l off len = Some es →
     get_filtered fuel (VSlice l off len) root filter h = (Ok r, h') →
     ∃ rs h1, r = VSlice (length h1) 0 (length rs) ∧ h' = h1 ++ [CArray rs]
              ∧ h `prefix_of` h1 ∧ rs `sublist_of` es)
  ∧ (∀ l m,
     map_at h l = Some m →
     get_filtered fuel (VMap l) root filter h = (Ok r, h') →
     ∃ rs h1, r = VSlice (length h1) 0 (length rs) ∧ h' = h1 ++ [CArray rs]
              ∧ h `prefix_of` h1 ∧ rs ⊆+ (map_to_list m).*2).
Proof.
  split.
  - intros l off len es He Hr. unfold get_filtered in Hr.
    apply bind_ok_inv in Hr as ([[lp op] rp] & hp & Hp & Hr).
    apply lift_ok_inv in Hp as [_ ->].
    eapply filter_loops_sublist; [by apply reads_slice|done|exact Hr].
  - intros l m Hm Hr. unfold get_filtered in Hr.
    apply bind_ok_inv in Hr as ([[lp op] rp] & hp & Hp & Hr).
    apply lift_ok_inv in Hp as [_ ->].
    apply bind_ok_inv in Hr as (m' & hm & Hm' & Hr).
    unfold reading in Hm'. rewrite Hm in Hm'. injection Hm' as <- <-.
    destruct (filter_loops_sublist _ _ _ _ _ _ _ _ _ _ _ (reads_map _ _ _ Hm)
                (reflexivity h) Hr) as (rs & h1 & -> & -> & Hh & Hs).
    exists rs, h1. split_and!; [done..|].
    rewrite <- (map_values_Permutation m). by apply sublist_submseteq.
Qed.

End FilterKeeps.

(** ** The parts of a clause *)

Section ClauseParts.

(** The text between the quotes: blanks do not end a part there. *)
Lemma parse_filter_loop_quoted w st idx rest :
  GoStr.Index "'" w = None → f_embrace st = true →
  parse_filter_loop st idx (w +:+ rest)
  = parse_filter_loop (with_tmp (f_tmp st +:+ w) st) (idx + String.length w) rest.
Proof.
  revert st idx. induction w as [|c w IH]; intros st idx Hw Hemb.
  - rewrite append_nil, append_empty_r, Nat.add_0_r. by destruct st.
  - cbn in Hw. destruct (Ascii.eqb c "'") eqn:Hq; [done|].
    destruct (GoStr.Index "'" w) eqn:Hw'; [done|].
    rewrite append_cons. cbn [parse_filter_loop]. unfold parse_filter_step.
    rewrite Hq, Hemb.
    assert (Hstep : (if Ascii.eqb c " " then inl (with_tmp (f_tmp st +:+ " ") st)
                     else inl (with_tmp (f_tmp st +:+ String c "") st))
                    = (inl (with_tmp (f_tmp st +:+ String c "") st)
                         : filter_state + error)).
    { destruct (Ascii.eqb_spec c " ") as [->|]; done. }
    rewrite Hstep, IH by (by destruct st).
    f_equal; [|cbn; lia].
    destruct st. unfold with_tmp. cbn. by rewrite append_assoc.
Qed.

(** X9.  [parse_filter] on a clause of three parts separated by one blank
    each.  When the parts hold no blank and no quote and the third is not
    empty it returns the three parts; when the third part is written
    between single quotes it returns it without the quotes, whatever
    blanks it holds. *)
Theorem parse_filter_three_parts (a b c : string) :
  plain a = true → plain b = true →
  (plain c = true → c ≠ "" →
     parse_filter (a +:+ " " +:+ b +:+ " " +:+ c) = Ok (a, b, c))
  ∧ (GoStr.Index "'" c = None →
     parse_filter (a +:+ " " +:+ b +:+ " '" +:+ c +:+ "'") = Ok (a, b, c)).
Proof.
  intros Ha Hb. split.
  - intros Hc Hne. unfold parse_filter.
    rewrite (parse_filter_loop_plain a) by done.
    rewrite append_cons, !append_nil, parse_filter_loop_blank by done.
    cbn -[parse_filter_loop String.append].
    rewrite (parse_filter_loop_plain b) by done.
    rewrite append_cons, !append_nil, parse_filter_loop_blank by done.
    cbn -[parse_filter_loop String.append].
    rewrite <- (append_empty_r c) at 1.
    rewrite (parse_filter_loop_plain c) by done.
    cbn -[String.append String.eqb]. rewrite !append_nil.
    by rewrite (proj2 (String.eqb_neq _ _) Hne).
  - intros Hc. unfold parse_filter.
    rewrite (parse_filter_loop_plain a) by done.
    rewrite append_cons, !append_nil, parse_filter_loop_blank by done.
    cbn -[parse_filter_loop String.append].
    rewrite (parse_filter_loop_plain b) by done.
    rewrite !append_cons, !append_nil, parse_filter_loop_blank by done.
    cbn -[parse_filter_loop String.append].
    change (parse_filter_loop ?st ?i (String "'" ?r))
      with (match parse_filter_step st i "'" with
            | inl st' => parse_filter_loop st' (S i) r
            | inr e => inr e
            end).
    unfold parse_filter_step at 1. cbn -[parse_filter_loop String.append].
    rewrite parse_filter_loop_quoted by done.
    cbn -[String.append String.eqb]. rewrite !append_nil. reflexivity.
Qed.

End ClauseParts.

(** ** The form of a pattern rule *)

Section PatternRules.
Context `{GoLibs}.

Lemma get_append_last (a b : string) (c : ascii) :
  String.get (String.length a) (a +:+ String c b) = Some c.
Proof. induction a as [|x a IH]; [done|]. rewrite append_cons. exact IH. Qed.

Lemma RuneCount_ascii (s : string) :
  is_ascii s = true → GoStr.RuneCount s = String.length s.
Proof.
  induction s as [|a s IH]; [done|]. cbn [is_ascii GoStr.RuneCount String.length].
  intros [Ha Hs]%andb_prop. rewrite (IH Hs).
  apply N.ltb_lt in Ha.
  by replace (128 <=? N_of_ascii a)%N with false by (symmetry; apply N.leb_gt; lia).
Qed.

Lemma is_ascii_app (a b : string) :
  is_ascii (a +:+ b) = is_ascii a && is_ascii b.
Proof.
  induction a as [|x a IH]; [by rewrite append_nil|].
  rewrite append_cons. cbn [is_ascii]. by rewrite IH, andb_assoc.
Qed.

(** X10.  [regFilterCompile] on rules within ASCII, where the runes it
    counts are the bytes.  A rule [/inner/] with [inner] not empty gives
    the pattern that [regexp.Compile] makes of [inner], or its error; a
    rule of three bytes or more that does not end in [/], such as
    [/.*REES/i] with its flag, is a syntax error; a rule of two bytes or
    less, such as [//], is an "empty rule". *)
Theorem regFilterCompile_wants_slashes (inner body rule : string) (c : ascii) :
  (is_ascii inner = true → inner ≠ "" →
     regFilterCompile ("/" +:+ inner +:+ "/")
     = match regexp_Compile inner with
       | Some pat => Ok pat
       | None => Err (ErrRegexp inner)
       end)
  ∧ (is_ascii (body +:+ String c "") = true →
     c ≠ "/"%char → (2 ≤ String.length body)%nat →
     regFilterCompile (body +:+ String c "") = Err ErrRuleSyntax)
  ∧ (is_ascii rule = true → (String.length rule ≤ 2)%nat →
     regFilterCompile rule = Err ErrEmptyRule).
Proof.
  split_and!.
  3:{ intros Ha Hlen. unfold regFilterCompile. rewrite (RuneCount_ascii _ Ha).
      by rewrite (proj2 (Nat.leb_le _ _) Hlen). }
  - intros Ha Hne. unfold regFilterCompile. rewrite RuneCount_ascii; last first.
    { rewrite !is_ascii_app, Ha. reflexivity. }
    rewrite append_cons, append_nil.
    cbn [String.length]. rewrite length_append. cbn [String.length].
    replace (S (String.length inner + 1) <=? 2)%nat with false; last first.
    { symmetry. apply Nat.leb_gt. destruct inner; [done|]. cbn. lia. }
    cbn [String.get or_panic mbind outcome_bind].
    replace (S (String.length inner + 1) - 1)%nat with (S (String.length inner)) by lia.
    cbn [String.get]. rewrite get_append_last.
    cbn [or_panic mbind outcome_bind Ascii.eqb Bool.eqb negb orb].
    rewrite slice_ok; [|lia|cbn [String.length]; rewrite length_append; lia].
    replace (S (String.length inner) - 1)%nat with (String.length inner) by lia.
    cbn [String.substring]. rewrite substring_append_l. reflexivity.
  - intros Ha Hc Hlen. unfold regFilterCompile. rewrite (RuneCount_ascii _ Ha).
    rewrite length_append.
    cbn [String.length].
    replace (String.length body + 1 <=? 2)%nat with false
      by (symmetry; apply Nat.leb_gt; lia).
    replace (String.length body + 1 - 1)%nat with (String.length body) by lia.
    rewrite get_append_last.
    destruct body as [|x body]; [cbn in Hlen; lia|].
    rewrite append_cons. cbn [String.get or_panic mbind outcome_bind].
    apply Ascii.eqb_neq in Hc. rewrite Hc. cbn. by rewrite orb_true_r.
Qed.

End PatternRules.

(** ** Script steps *)

Section Scripts.
Context `{GoLibs}.

Lemma parse_token_script (k expr : string) :
  GoStr.Index "[" k = None → GoStr.Index "?" expr = None →
  checkFilter (GoStr.TrimSpace expr) = true →
  parse_token (k +:+ String "[" (String "(" expr +:+ String ")" "]"))
  = Ok (Step ExpressionOp k (ArgStr (GoStr.TrimSpace expr)), None).
Proof.
  intros Hkey Hq Hcheck.
  set (inner := String "(" (expr +:+ ")")).
  set (tail := String "[" (inner +:+ "]")).
  assert (String "[" (String "(" expr +:+ String ")" "]") = tail) as ->.
  { unfold tail, inner. rewrite !append_cons. do 2 f_equal.
    by rewrite append_assoc, append_cons, append_nil. }
  assert (GoStr.Index "[" (k +:+ tail) = Some (String.length k)) as Hidx.
  { rewrite Index_append_None by done. unfold tail. simpl. f_equal. lia. }
  assert (String.length inner = S (S (String.length expr))) as Hinner.
  { unfold inner. simpl. rewrite length_append. simpl. lia. }
  assert ((String.length tail <? 3)%nat = false) as Hlen.
  { apply Nat.ltb_ge.
    change (String.length tail) with (S (String.length (inner +:+ "]"))).
    rewrite length_append, Hinner. lia. }
  pose proof (slice_brackets inner) as Hbr. cbv zeta in Hbr. fold tail in Hbr.
  assert (String.get 0 inner = Some "("%char) as Hget by done.
  assert (GoStr.Contains "?" inner = false) as Hno.
  { unfold GoStr.Contains, inner. cbn. rewrite (Index_append_None _ _ _ Hq). done. }
  assert (GoStr.Index "(" inner = Some 0%nat) as Hfirst by done.
  assert (GoStr.LastIndex ")" inner = Some (S (String.length expr))) as Hlast.
  { unfold inner. simpl. by rewrite LastIndex_append_last. }
  assert (GoStr.slice inner (0 + 1) (S (String.length expr)) = Some expr) as Hexpr.
  { rewrite slice_ok by lia. unfold inner. simpl.
    replace (String.length expr - 0)%nat with (String.length expr) by lia.
    by rewrite substring_append_l. }
  unfold parse_token.
  destruct (String.eqb_spec (k +:+ tail) "$") as [Heq|_].
  { rewrite Heq in Hidx. discriminate. }
  destruct (String.eqb_spec (k +:+ tail) "*") as [Heq|_].
  { rewrite Heq in Hidx. discriminate. }
  rewrite Hidx, slice_prefix, slice_suffix.
  clearbody tail inner.
  cbn [mbind outcome_bind or_panic]. rewrite Hlen, Hbr.
  cbn [mbind outcome_bind or_panic]. rewrite Hget.
  cbn [mbind outcome_bind or_panic Ascii.eqb Bool.eqb andb]. rewrite Hno.
  unfold extractExpression. rewrite Hfirst, Hlast, Hexpr.
  cbn [mbind outcome_bind or_panic]. by rewrite Hcheck.
Qed.

(** An operand [$.name]: the value under [name] of the root. *)
Lemma get_lp_v_root_key fuel obj root name h :
  is_name name = true →
  get_lp_v fuel obj root ("$." +:+ name) h = get_key fuel root name h.
Proof.
  intros Hname. unfold get_lp_v.
  rewrite !append_cons, append_nil.
  replace (GoStr.HasPrefix (String "$" (String "." name)) "@.") with false
    by (unfold GoStr.HasPrefix; cbn; reflexivity).
  replace (GoStr.HasPrefix (String "$" (String "." name)) "$.") with true
    by (unfold GoStr.HasPrefix; cbn; by destruct name).
  unfold filter_get_from_explicit_path.
  destruct (Compile_plain_key name Hname) as [Ht _].
  rewrite !append_cons, !append_nil in Ht.
  rewrite Ht, bind_lift_ok.
  change (["$"; name] !! 0%nat) with (Some "$"). cbn [or_panic]. rewrite bind_lift_ok.
  cbn [String.eqb Ascii.eqb Bool.eqb negb andb tail explicit_path_loop].
  pose proof (is_name_spec _ Hname) as (Hb & _ & Hs & Hr).
  assert (Hp : parse_token name = Ok (Step KeyOp name ArgNil, None)).
  { unfold parse_token. apply String.eqb_neq in Hs, Hr. rewrite Hs, Hr.
    by destruct (bare_Index _ Hb) as [-> _]. }
  rewrite Hp, bind_lift_ok. cbn [op key]. rewrite bind_run.
  destruct (get_key fuel root name h) as [[v| | |] h1]; done.
Qed.

(** X11.  The path [$.k[($.name)]] for names [k] and [name], where
    [name] holds no question mark and no closing bracket and does not end
    in white space (so that trimming the expression [$.name] leaves it as
    it is): it compiles to one script step, and on a root object that
    holds [k] its lookup reads the value under [name] of the root and
    returns, when that value is a string, what [get_key] finds under that
    string in the value under [k]; when it is an integer, the element
    [get_idx] finds at that index; and when the root lacks [name], the
    error [NotExist]. *)
Theorem script_step_is_an_indirection (k name : string) :
  is_name k = true → is_name name = true →
  GoStr.Index "?" name = None → GoStr.Index "]" name = None →
  GoStr.TrimSpace ("$." +:+ name) = "$." +:+ name →
  let p := "$." +:+ k +:+ "[($." +:+ name +:+ ")]" in
  Compile p = Ok (MkCompiled p [Step ExpressionOp k (ArgStr ("$." +:+ name))])
  ∧ ∀ fuel l m container h,
      map_at h l = Some m → m !! k = Some container →
      (∀ w, m !! name = Some (VStr w) →
         JsonPathLookup (S fuel) (VMap l) p h = get_key (S fuel) container w h)
      ∧ (∀ n, m !! name = Some (VInt n) →
         JsonPathLookup (S fuel) (VMap l) p h = (get_idx h container n, h))
      ∧ (m !! name = None →
         JsonPathLookup (S fuel) (VMap l) p h = (Err (NotExist name), h)).
Proof.
  intros Hk Hname Hq Hbr Htrim p.
  pose proof (is_name_spec _ Hk) as (Hbk & _).
  destruct (bare_Index _ Hbk) as [Hik _].
  set (expr := "$." +:+ name) in *.
  set (token := k +:+ String "[" (String "(" expr +:+ String ")" "]")).
  assert (Hp : p = String "$" (String "." token)).
  { unfold p, token, expr. by rewrite !append_cons, !append_nil. }
  assert (Hexpr : expr = String "$" (String "." name)).
  { unfold expr. by rewrite !append_cons, append_nil. }
  assert (Ht : tokenize p = Ok ["$"; token]).
  { rewrite Hp. cbn [tokenize Ascii.eqb Bool.eqb orb].
    change (tokenize_loop (["$"], "") (String "." ?r))
      with (tokenize_step (["$"], "") "." ≫= λ st, tokenize_loop st r).
    rewrite tokenize_step_first_dot. cbn [mbind outcome_bind]. unfold token.
    rewrite (tokenize_loop_name k _ "" _ Hbk eq_refl), append_nil.
    pose proof (tokenize_loop_bracketed (String "(" expr) ")" ["$"] k "") as Hb.
    rewrite append_empty_r in Hb. rewrite Hb; [done| |done..].
    rewrite Hexpr. cbn. by rewrite Hbr. }
  assert (Hc : Compile p = Ok (MkCompiled p [Step ExpressionOp k (ArgStr expr)])).
  { unfold Compile. rewrite Ht. cbn -[compile_steps parse_token].
    cbn [compile_steps]. unfold token.
    rewrite (parse_token_script k expr Hik); [by rewrite Htrim| |].
    - rewrite Hexpr. cbn. by rewrite Hq.
    - rewrite Htrim, Hexpr. unfold checkFilter, GoStr.HasPrefix. cbn.
      by destruct name. }
  split; [exact Hc|].
  intros fuel l m container h Hm Hmk.
  assert (Hrun : JsonPathLookup (S fuel) (VMap l) p h
                 = (key ← get_key (S fuel) (VMap l) name;
                    match key with
                    | VStr v => get_key (S fuel) container v
                    | VInt v => reading (fun h => get_idx h container v)
                    | _ => fail ErrInvalidExpression
                    end) h).
  { unfold JsonPathLookup. rewrite Hc, bind_lift_ok. unfold Lookup.
    cbn [steps lookup_steps]. unfold lookup_step. cbn [op].
    unfold lookupExpression. cbn [key args_string args].
    rewrite !bind_assoc.
    erewrite bind_ok; last by rewrite (get_key_map _ _ _ _ _ Hm), Hmk.
    rewrite ?bind_assoc, bind_lift_ok, ?bind_assoc.
    rewrite !(bind_run (get_lp_v _ _ _ _)).
    unfold expr. rewrite (get_lp_v_root_key _ _ _ _ _ Hname).
    rewrite (bind_run (get_key _ _ name)).
    destruct (get_key (S fuel) (VMap l) name h) as [[v| | |] h1]; try done.
    destruct v; try done; rewrite bind_run.
    - unfold reading. by destruct (get_idx h1 container n).
    - by destruct (get_key (S fuel) container s h1) as [[]]. }
  rewrite Hrun, (bind_run (get_key _ _ name)), (get_key_map _ _ _ _ _ Hm).
  split_and!.
  - intros w ->. done.
  - intros n ->. done.
  - intros ->. done.
Qed.

End Scripts.

(** ** Pattern filters *)

Section PatternFilters.
Context `{GoLibs}.

(** The loop of a pattern filter over candidates whose operand is a
    string. *)
Lemma filter_loop_matching fuel root lp pat h :
  ∀ candidates es ws res,
    Forall2 (reads h) candidates es →
    Forall2 (λ e w, get_lp_v fuel e root lp h = (Ok (VStr w), h)) es ws →
    filter_loop (λ tmp, eval_reg_filter fuel tmp root lp pat) candidates res h
    = (Ok (res ++ (filter (λ ew, MatchString pat ew.2 = true) (zip es ws)).*1), h).
Proof.
  intros candidates es ws res Hc. revert ws res.
  induction Hc as [|read e candidates es Hread _ IH]; intros ws res Hw.
  { apply Forall2_nil_inv_l in Hw as ->. cbn. by rewrite app_nil_r. }
  apply Forall2_cons_inv_l in Hw as (w & ws' & Hv & Hw & ->).
  cbn [filter_loop]. rewrite (bind_ok _ _ _ _ _ (Hread h (reflexivity h))).
  erewrite bind_ok; last first.
  { unfold eval_reg_filter. by rewrite (bind_ok _ _ _ _ _ Hv). }
  rewrite (IH _ _ Hw). f_equal. cbn [zip zip_with].
  rewrite filter_cons. cbn [snd].
  destruct (MatchString pat w); cbn.
  - rewrite decide_True by done. cbn. by rewrite <- app_assoc.
  - rewrite decide_False by done. done.
Qed.

Lemma filter_loop_stops fuel root lp pat h pre_c read post_c pre e ws err res :
  Forall2 (reads h) pre_c pre → reads h read e →
  Forall2 (λ e w, get_lp_v fuel e root lp h = (Ok (VStr w), h)) pre ws →
  eval_reg_filter fuel e root lp pat h = (Err err, h) →
  filter_loop (λ tmp, eval_reg_filter fuel tmp root lp pat)
    (pre_c ++ read :: post_c) res h
  = (Err err, h).
Proof.
  intros Hc. revert ws res.
  induction Hc as [|r0 e0 pre_c pre Hr0 _ IH]; intros ws res Hread Hw Herr.
  { cbn [app filter_loop]. rewrite (bind_ok _ _ _ _ _ (Hread h (reflexivity h))).
    by rewrite (bind_err _ _ _ _ _ Herr). }
  apply Forall2_cons_inv_l in Hw as (w & ws' & Hv & Hw & ->).
  cbn [app filter_loop]. rewrite (bind_ok _ _ _ _ _ (Hr0 h (reflexivity h))).
  erewrite bind_ok; last first.
  { unfold eval_reg_filter. by rewrite (bind_ok _ _ _ _ _ Hv). }
  by apply (IH ws').
Qed.

(** X12.  A filter with the operator [=~] on an array, for a clause that
    [parse_filter] splits and a rule that [regFilterCompile] accepts.
    When the left operand of every element resolves to a string, the
    filter returns a fresh array of the elements whose string the pattern
    matches, in their order.  At the first element whose operand does not
    resolve it returns the error of the operand, and at the first whose
    operand is not a string the error "only string can match with regular
    expression": unlike with [exists], nothing is skipped. *)
Theorem pattern_filter_is_strict (fuel : nat) (root : value) (clause lp rule : string)
    (pat : Regexp) (l : loc) (off len : nat) (es : list value) (h : heap) :
  parse_filter clause = Ok (lp, "=~", rule) →
  regFilterCompile rule = Ok pat →
  elems h l off len = Some es →
  (∀ ws, Forall2 (λ e w, get_lp_v fuel e root lp h = (Ok (VStr w), h)) es ws →
     let rs := (filter (λ ew, MatchString pat ew.2 = true) (zip es ws)).*1 in
     get_filtered fuel (VSlice l off len) root clause h
     = (Ok (VSlice (length h) 0 (length rs)), h ++ [CArray rs]))
  ∧ (∀ pre e post ws,
       es = pre ++ e :: post →
       Forall2 (λ e w, get_lp_v fuel e root lp h = (Ok (VStr w), h)) pre ws →
       (∀ err, get_lp_v fuel e root lp h = (Err err, h) →
          get_filtered fuel (VSlice l off len) root clause h = (Err err, h))
       ∧ (∀ v, get_lp_v fuel e root lp h = (Ok v, h) → (∀ w, v ≠ VStr w) →
          get_filtered fuel (VSlice l off len) root clause h
          = (Err ErrRegexpOperand, h))).
Proof.
  intros Hp Hr He.
  pose proof (reads_slice _ _ _ _ _ He) as Hreads.
  assert (Hrun : get_filtered fuel (VSlice l off len) root clause h
    = (res ← filter_loop (λ tmp, eval_reg_filter fuel tmp root lp pat)
               (index_at (VSlice l off len) <$> seq 0 len) [];
       new_slice res) h).
  { unfold get_filtered. rewrite Hp, bind_lift_ok. cbn [String.eqb Ascii.eqb Bool.eqb].
    by rewrite Hr, bind_lift_ok. }
  split.
  - intros ws Hws rs. rewrite Hrun.
    by rewrite (bind_ok _ _ _ _ _ (filter_loop_matching _ _ _ _ _ _ _ _ [] Hreads Hws)).
  - intros pre e post ws -> Hws.
    apply Forall2_app_inv_r in Hreads as (pre_c & rest_c & Hpre_c & Hrest & Hcs).
    apply Forall2_cons_inv_r in Hrest as (read & post_c & Hread & _ & ->).
    split.
    + intros err Herr. rewrite Hrun, Hcs. erewrite bind_err; [done|].
      eapply filter_loop_stops; try done.
      unfold eval_reg_filter. by rewrite (bind_err _ _ _ _ _ Herr).
    + intros v Hv Hns. rewrite Hrun, Hcs. erewrite bind_err; [done|].
      eapply filter_loop_stops; try done.
      unfold eval_reg_filter. rewrite (bind_ok _ _ _ _ _ Hv).
      destruct v; try done. by destruct (Hns s).
Qed.

End PatternFilters.

(** ** Deleting a key *)

Section Deleting.
Context `{GoLibs}.

(** The loop of [Del] follows a step of the tree that is not the last
    one. *)
Lemma tree_step_del fuel h s cur v ls child :
  tree_step h s cur = Some (v, ls) →
  del_step (S fuel) false s (cur, child) h = (Ok (inl (v, v)), h).
Proof.
  destruct s as [o k a]. unfold tree_step, del_step. cbn [op key args].
  destruct o; try done.
  - intros Hk.
    assert (tree_keys h (Step KeyOp k a) cur = Some (v, ls)) as Hkeys
      by (by destruct a).
    destruct (tree_keys_lookupKey fuel _ _ _ _ _ Hkeys) as [parent Hlook].
    by rewrite (bind_ok _ _ _ _ _ Hlook).
  - destruct a as [| |[|i [|j idxs]]|]; try done. intros Ht.
    destruct (tree_container h _ cur) as [[arr ls1]|] eqn:Hc; [|done].
    simpl in Ht.
    destruct (tree_index h arr i) as [[e ls2]|] eqn:Hi; [|done].
    simpl in Ht. injection Ht as -> _.
    rewrite (bind_ok _ _ _ _ _ (tree_container_leading_key fuel _ _ _ _ _ Hc)).
    cbn [args_ints args]. rewrite bind_lift_ok.
    erewrite bind_ok; last first.
    { unfold reading. by rewrite (tree_index_get_idx _ _ _ _ _ Hi). }
    reflexivity.
Qed.

Lemma del_loop_last fuel final st h :
  del_loop fuel [final] st h = del_step fuel true final st h.
Proof.
  cbn [del_loop]. rewrite bool_decide_eq_true_2 by done. rewrite bind_run.
  by destruct (del_step fuel true final st h) as [[[[]|]| | |] ?].
Qed.

Lemma del_loop_walk fuel h pre final cur0 cur ls child :
  tree_walk h pre cur0 = Some (cur, ls) →
  ∃ child',
    del_loop (S fuel) (pre ++ [final]) (cur0, child) h
    = del_step (S fuel) true final (cur, child') h.
Proof.
  revert cur0 ls child. induction pre as [|s pre IH]; intros cur0 ls child Ht.
  - injection Ht as -> _. exists child. apply del_loop_last.
  - cbn [tree_walk] in Ht.
    destruct (tree_step h s cur0) as [[v1 ls1]|] eqn:Hs; [|done]. simpl in Ht.
    destruct (tree_walk h pre v1) as [[r ls2]|] eqn:Hw; [|done]. simpl in Ht.
    injection Ht as -> <-.
    destruct (IH _ _ v1 Hw) as (child' & Hloop).
    exists child'. rewrite <- app_comm_cons. cbn [del_loop].
    rewrite bool_decide_eq_false_2 by (by destruct pre).
    by rewrite (bind_ok _ _ _ _ _ (tree_step_del fuel _ _ _ _ _ child Hs)).
Qed.

Lemma tree_walk_not_nil h pre cur0 cur ls :
  tree_walk h pre cur0 = Some (cur, ls) → cur ≠ VNull → cur0 ≠ VNull.
Proof.
  destruct pre as [|s pre]; [by intros [= -> _]|]. cbn [tree_walk].
  destruct (tree_step h s cur0) as [[v ls']|] eqn:Hs; [|done].
  intros _ _. by eapply tree_step_not_nil.
Qed.

Lemma map_at_insert h l c m :
  map_at h l = Some m → map_at (<[l := CMap c]> h) l = Some c.
Proof.
  unfold map_at. destruct (h !! l) as [x|] eqn:Hl; [|done]. intros _.
  by rewrite list_lookup_insert_eq by (by eapply lookup_lt_Some).
Qed.

Lemma store_map h l c m :
  map_at h l = Some m → store l (CMap c) h = (Ok (), <[l := CMap c]> h).
Proof.
  unfold map_at, store. destruct (h !! l) as [x|] eqn:Hl; [|done]. intros _.
  by rewrite (proj2 (Nat.ltb_lt _ _) (lookup_lt_Some _ _ _ Hl)).
Qed.

(** X13.  [Del], then [Lookup].  For a path whose steps before the last
    one resolve inside the tree to an object, none of the containers read
    on the way, that holds the plain key of the last step: [Del] returns
    no error, the store differs by that key being removed from that
    object and by nothing else, and a lookup of the same program
    afterwards returns [NotExist] of that key. *)
Theorem Del_then_Lookup (fuel : nat) (p : string) (c : Compiled)
    (pre : list step) (k : string) (rootObj v : value) (l : loc)
    (m : gmap string value) (seen : list loc) (h : heap) :
  Compile p = Ok c →
  steps c = pre ++ [Step KeyOp k ArgNil] →
  tree_walk h pre rootObj = Some (VMap l, seen) →
  map_at h l = Some m → m !! k = Some v →
  l ∉ seen →
  let h' := <[l := CMap (delete k m)]> h in
  Del (S fuel) rootObj p h = (Ok None, h')
  ∧ Lookup (S fuel) c rootObj h' = (Err (NotExist k), h').
Proof.
  intros Hc Hsteps Hwalk Hm Hk Hseen h'.
  assert (rootObj ≠ VNull) as Hroot by (by eapply tree_walk_not_nil).
  split.
  - unfold Del. rewrite Hc, bind_lift_ok, (followPtr_ok _ Hroot), bind_lift_ok.
    rewrite Hsteps.
    destruct (del_loop_walk fuel h pre (Step KeyOp k ArgNil) rootObj _ _ rootObj Hwalk)
      as (child' & Hloop).
    erewrite bind_ok; last first.
    { rewrite Hloop. unfold del_step. cbn [op].
      erewrite bind_ok; last first.
      { by rewrite lookupKey_plain, (get_key_map _ _ _ _ _ Hm), Hk. }
      reflexivity. }
    cbv beta iota. rewrite last_snoc. cbn [or_panic]. rewrite bind_lift_ok.
    cbn [args key]. unfold DeleteMapIndex.
    erewrite bind_ok; last first.
    { erewrite bind_ok; last by (unfold reading; rewrite Hm).
      by apply (store_map _ _ _ m). }
    reflexivity.
  - unfold Lookup. rewrite Hsteps.
    erewrite lookup_steps_walk; last first.
    { eapply tree_walk_agree; [exact Hwalk|]. intros x Hx.
      apply list_lookup_insert_ne. by intros ->. }
    rewrite lookup_plain_key.
    rewrite (get_key_map _ _ _ _ (delete k m)); [|by eapply map_at_insert].
    by rewrite lookup_delete_eq.
Qed.

(** X14.  [Del] of a plain key that the object reached does not hold
    returns the error [NotExist] of the key and leaves the store as it
    was. *)
Theorem Del_of_a_missing_key (fuel : nat) (p : string) (c : Compiled)
    (pre : list step) (k : string) (rootObj : value) (l : loc)
    (m : gmap string value) (seen : list loc) (h : heap) :
  Compile p = Ok c →
  steps c = pre ++ [Step KeyOp k ArgNil] →
  tree_walk h pre rootObj = Some (VMap l, seen) →
  map_at h l = Some m → m !! k = None →
  Del (S fuel) rootObj p h = (Err (NotExist k), h).
Proof.
  intros Hc Hsteps Hwalk Hm Hk.
  assert (rootObj ≠ VNull) as Hroot by (by eapply tree_walk_not_nil).
  unfold Del. rewrite Hc, bind_lift_ok, (followPtr_ok _ Hroot), bind_lift_ok.
  rewrite Hsteps.
  destruct (del_loop_walk fuel h pre (Step KeyOp k ArgNil) rootObj _ _ rootObj Hwalk)
    as (child' & Hloop).
  erewrite bind_err; [done|].
  rewrite Hloop. unfold del_step. cbn [op].
  erewrite bind_ok; last first.
  { by rewrite lookupKey_plain, (get_key_map _ _ _ _ _ Hm), Hk. }
  reflexivity.
Qed.

End Deleting.

(** ** Deleting an element of an array *)

Section DeletingElements.
Context `{GoLibs}.

Lemma length_copy_down (a : list value) (off len i : nat) :
  (i < len)%nat → (off + len ≤ length a)%nat →
  length (copy_down a off len i) = length a.
Proof.
  intros Hi Hlen. unfold copy_down.
  rewrite !length_app, !length_take, !length_drop. lia.
Qed.

Lemma lookup_copy_down (a : list value) (off len i j : nat) :
  (i < len)%nat → (off + len ≤ length a)%nat →
  copy_down a off len i !! j
  = if decide (off + i ≤ j < off + len - 1)%nat then a !! S j else a !! j.
Proof.
  intros Hi Hlen. unfold copy_down.
  destruct (decide (j < off + i)%nat) as [Hj|Hj].
  { rewrite lookup_app_l by (rewrite length_take; lia).
    rewrite lookup_take_lt by lia. by rewrite decide_False by lia. }
  rewrite lookup_app_r by (rewrite length_take; lia).
  rewrite length_take, Nat.min_l by lia.
  destruct (decide (j < off + len - 1)%nat) as [Hj'|Hj'].
  { rewrite lookup_app_l by (rewrite length_take, length_drop; lia).
    rewrite lookup_take_lt by lia. rewrite lookup_drop.
    rewrite decide_True by lia. f_equal. lia. }
  rewrite lookup_app_r by (rewrite length_take, length_drop; lia).
  rewrite length_take, length_drop, lookup_drop.
  rewrite decide_False by lia. f_equal. lia.
Qed.

Lemma elems_copy_down (a : list value) (off len i : nat) :
  (i < len)%nat → (off + len ≤ length a)%nat →
  take (len - 1) (drop off (copy_down a off len i))
  = delete i (take len (drop off a)).
Proof.
  intros Hi Hlen. apply list_eq. intros j.
  destruct (decide (j < len - 1)%nat) as [Hj|Hj].
  - rewrite lookup_take_lt by lia. rewrite lookup_drop, lookup_copy_down by lia.
    destruct (decide (j < i)%nat) as [Hji|Hji].
    + rewrite list_lookup_delete_lt by lia. rewrite decide_False by lia.
      rewrite lookup_take_lt by lia. by rewrite lookup_drop.
    + rewrite list_lookup_delete_ge by lia. rewrite decide_True by lia.
      rewrite lookup_take_lt by lia. rewrite lookup_drop. f_equal. lia.
  - rewrite lookup_take_ge by lia. symmetry. apply lookup_ge_None.
    rewrite length_delete; last first.
    { apply lookup_lt_is_Some. rewrite length_take, length_drop. lia. }
    rewrite length_take, length_drop. lia.
Qed.

Lemma elems_copy_down_stale (a : list value) (off len i : nat) :
  (i < len)%nat → (off + len ≤ length a)%nat →
  take len (drop off (copy_down a off len i))
  = delete i (take len (drop off a)) ++ drop (len - 1) (take len (drop off a)).
Proof.
  intros Hi Hlen. rewrite <- elems_copy_down by done.
  rewrite <- (take_drop (len - 1) (take len (drop off (copy_down a off len i)))) at 1.
  rewrite take_take, Nat.min_l by lia. f_equal.
  apply list_eq. intros j. rewrite !lookup_drop.
  destruct (decide (len - 1 + j < len)%nat) as [Hj|Hj].
  - rewrite !lookup_take_lt by lia. rewrite !lookup_drop, lookup_copy_down by lia.
    by rewrite decide_False by lia.
  - by rewrite !lookup_take_ge by lia.
Qed.

(** X15.  [Del] of the element [i], [0 <= i < len], of the array held
    under the key [k] of an object of the tree; [p'] is the path up to
    its last opening bracket, which compiles to the same steps with the
    key step [k] in place of the index step.  [Del] returns no error; the
    elements after [i] are moved one place down inside the backing array
    ([copy_down]); the object holds under [k] the same slice, one
    shorter, which a lookup of [p'] returns and whose elements are the
    old ones without the element [i]; and a slice value of the old
    length on that array now ends with the last element twice. *)
Theorem Del_of_an_array_element (fuel : nat) (p p' : string) (c c' : Compiled)
    (pre : list step) (k : string) (i : Z) (n : nat) (rootObj : value)
    (l la : loc) (m : gmap string value) (off len : nat) (a : list value)
    (seen : list loc) (h : heap) :
  Compile p = Ok c → steps c = pre ++ [Step IndexOp k (ArgInts [i])] →
  GoStr.LastIndex "[" p = Some n → GoStr.slice p 0 n = Some p' →
  Compile p' = Ok c' → steps c' = pre ++ [Step KeyOp k ArgNil] →
  k ≠ "" →
  tree_walk h pre rootObj = Some (VMap l, seen) →
  map_at h l = Some m → m !! k = Some (VSlice la off len) →
  array_at h la = Some a → (off + len ≤ length a)%nat →
  0 ≤ i < Z.of_nat len →
  l ∉ seen → la ∉ seen →
  let es := take len (drop off a) in
  let shorter := VSlice la off (len - 1) in
  let h' := <[l := CMap (<[k := shorter]> m)]>
              (<[la := CArray (copy_down a off len (Z.to_nat i))]> h) in
  Del (S fuel) rootObj p h = (Ok None, h')
  ∧ Lookup (S fuel) c' rootObj h' = (Ok shorter, h')
  ∧ elems h' la off (len - 1) = Some (delete (Z.to_nat i) es)
  ∧ elems h' la off len = Some (delete (Z.to_nat i) es ++ drop (len - 1) es).
Proof.
  intros Hc Hsteps Hn Hp' Hc' Hsteps' Hk Hwalk Hm Hmk Ha Hfit Hi Hl Hla es shorter h'.
  set (cd := copy_down a off len (Z.to_nat i)).
  set (h1 := <[la := CArray cd]> h).
  assert (rootObj ≠ VNull) as Hroot by (by eapply tree_walk_not_nil).
  assert (l ≠ la) as Hne.
  { intros ->. unfold map_at, array_at in *. by destruct (h !! la) as [[]|]. }
  assert (la < length h)%nat as Hlah.
  { unfold array_at in Ha. destruct (h !! la) eqn:E; [|done]. by eapply lookup_lt_Some. }
  assert (l < length h)%nat as Hlh.
  { unfold map_at in Hm. destruct (h !! l) eqn:E; [|done]. by eapply lookup_lt_Some. }
  assert (Hlead : leading_key (S fuel) (VMap l) (Step IndexOp k (ArgInts [i])) h
                  = (Ok (VSlice la off len), h)).
  { unfold leading_key. cbn [key].
    replace (0 <? String.length k)%nat with true
      by (symmetry; apply Nat.ltb_lt; destruct k; [done|cbn; lia]).
    by rewrite (get_key_map _ _ _ _ _ Hm), Hmk. }
  assert (He : elems h la off len = Some es).
  { unfold elems. rewrite Ha. cbn. by rewrite (proj2 (Nat.leb_le _ _) Hfit). }
  assert (is_Some (es !! Z.to_nat i)) as [e Hee].
  { apply lookup_lt_is_Some. unfold es. rewrite length_take, length_drop. lia. }
  assert (Hidx : get_idx h (VSlice la off len) i = Ok e).
  { rewrite <- (Z2Nat.id i) by lia. by eapply get_idx_elem. }
  assert (Hm1 : map_at h1 l = Some m).
  { unfold map_at, h1. by rewrite list_lookup_insert_ne. }
  assert (Hagree1 : agree_on seen h h1).
  { intros x Hx. apply list_lookup_insert_ne. by intros ->. }
  assert (Hagree' : agree_on seen h h').
  { intros x Hx. unfold h'. rewrite !list_lookup_insert_ne; [done|by intros ->..]. }
  assert (Hm' : map_at h' l = Some (<[k := shorter]> m)).
  { by eapply map_at_insert. }
  assert (Ha' : array_at h' la = Some cd).
  { unfold array_at, h'. rewrite list_lookup_insert_ne by done.
    unfold h1. by rewrite list_lookup_insert_eq. }
  assert (Hcdlen : length cd = length a) by (apply length_copy_down; lia).
  split_and!.
  - unfold Del. rewrite Hc, bind_lift_ok, (followPtr_ok _ Hroot), bind_lift_ok.
    rewrite Hsteps.
    destruct (del_loop_walk fuel h pre (Step IndexOp k (ArgInts [i])) rootObj _ _
                rootObj Hwalk) as (child' & Hloop).
    erewrite bind_ok; last first.
    { rewrite Hloop. unfold del_step. cbn [op].
      rewrite (bind_ok _ _ _ _ _ Hlead). cbn [args_ints args]. rewrite bind_lift_ok.
      erewrite bind_ok; last by (unfold reading; rewrite Hidx).
      reflexivity. }
    cbv beta iota. rewrite last_snoc. cbn [or_panic]. rewrite bind_lift_ok.
    cbn [args_ints args]. rewrite bind_lift_ok.
    change ([i] !! 0%nat) with (Some i). cbn [or_panic]. rewrite bind_lift_ok.
    erewrite bind_ok; last first.
    { unfold deleteElement. erewrite bind_ok; last by (unfold reading; rewrite Ha).
      replace ((0 <=? i) && (i <? Z.of_nat len) && (off + len <=? length a)%nat)
        with true; last first.
      { symmetry. rewrite !andb_true_iff, Z.leb_le, Z.ltb_lt, Nat.leb_le. lia. }
      erewrite bind_ok; last first.
      { unfold store. by rewrite (proj2 (Nat.ltb_lt _ _) Hlah). }
      reflexivity. }
    rewrite Hn. cbn [mbind option_bind]. rewrite Hp'. cbn [or_panic].
    rewrite bind_lift_ok.
    destruct (set_loop_walk fuel rootObj p' h1 pre (Step KeyOp k ArgNil) rootObj
                (VMap l) seen rootObj None) as (child1 & le1 & Hset).
    { by eapply tree_walk_agree. }
    assert (Htarget : tree_target h1 (Step KeyOp k ArgNil) (VMap l)
                      = Some (TKey l k, [])).
    { unfold tree_target. cbn [op args key]. by rewrite Hm1. }
    destruct (set_step_target fuel rootObj p' h1 _ _ _ _ child1 le1 Htarget)
      as (child2 & le2 & Hstep).
    erewrite bind_ok; last first.
    { apply (Set_writes_target fuel rootObj p' c' pre (Step KeyOp k ArgNil) shorter
                h1 (VMap l) (TKey l k) [] child2 le2 Hc' Hsteps' Hroot);
        [done|done|].
      by rewrite Hsteps', Hset, Hstep. }
    cbn [write_target]. by rewrite Hm1.
  - unfold Lookup. rewrite Hsteps'.
    erewrite lookup_steps_walk; last by eapply tree_walk_agree.
    rewrite lookup_plain_key, (get_key_map _ _ _ _ _ Hm').
    by rewrite lookup_insert_eq.
  - unfold elems. rewrite Ha'. cbn. rewrite Hcdlen.
    replace (off + (len - 1) <=? length a)%nat with true
      by (symmetry; apply Nat.leb_le; lia).
    f_equal. apply elems_copy_down; lia.
  - unfold elems. rewrite Ha'. cbn. rewrite Hcdlen.
    rewrite (proj2 (Nat.leb_le _ _) Hfit).
    f_equal. apply elems_copy_down_stale; lia.
Qed.

End DeletingElements.

(** ** Steps the writers refuse, and keys that are absent *)

Section Writers.
Context `{GoLibs}.

(** The loops of [Set] and [Del] walk the steps that stay inside the
    tree, up to any step. *)
Lemma set_loop_walk_to fuel rootObj p h pre s post cur0 cur ls child le :
  tree_walk h pre cur0 = Some (cur, ls) →
  ∃ child' le',
    set_loop (S fuel) rootObj p (pre ++ s :: post) (cur0, child, le) h
    = (st ← set_step (S fuel) rootObj p (bool_decide (post = [])) s (cur, child', le');
       set_loop (S fuel) rootObj p post st) h.
Proof.
  revert cur0 ls child le. induction pre as [|s' pre IH]; intros cur0 ls child le Ht.
  - injection Ht as -> _. by exists child, le.
  - cbn [tree_walk] in Ht.
    destruct (tree_step h s' cur0) as [[v1 ls1]|] eqn:Hs; [|done]. simpl in Ht.
    destruct (tree_walk h pre v1) as [[r ls2]|] eqn:Hw; [|done]. simpl in Ht.
    injection Ht as -> <-.
    destruct (tree_step_set fuel rootObj p _ _ _ _ _ child le Hs) as [le1 Hstep].
    destruct (IH _ _ v1 le1 Hw) as (child' & le' & Hloop).
    exists child', le'. rewrite <- app_comm_cons. cbn [set_loop].
    rewrite bool_decide_eq_false_2 by (by destruct pre).
    by rewrite (bind_ok _ _ _ _ _ Hstep).
Qed.

Lemma del_loop_walk_to fuel h pre s post cur0 cur ls child :
  tree_walk h pre cur0 = Some (cur, ls) →
  ∃ child',
    del_loop (S fuel) (pre ++ s :: post) (cur0, child) h
    = (r ← del_step (S fuel) (bool_decide (post = [])) s (cur, child');
       match r with
       | inl st => del_loop (S fuel) post st
       | inr e => mret (inr e)
       end) h.
Proof.
  revert cur0 ls child. induction pre as [|s' pre IH]; intros cur0 ls child Ht.
  - injection Ht as -> _. by exists child.
  - cbn [tree_walk] in Ht.
    destruct (tree_step h s' cur0) as [[v1 ls1]|] eqn:Hs; [|done]. simpl in Ht.
    destruct (tree_walk h pre v1) as [[r ls2]|] eqn:Hw; [|done]. simpl in Ht.
    injection Ht as -> <-.
    destruct (IH _ _ v1 Hw) as (child' & Hloop).
    exists child'. rewrite <- app_comm_cons. cbn [del_loop].
    rewrite bool_decide_eq_false_2 by (by destruct pre).
    by rewrite (bind_ok _ _ _ _ _ (tree_step_del fuel _ _ _ _ _ child Hs)).
Qed.

(** X16.  When the steps before the step [s] resolve inside the tree,
    [Set] returns its error ".. expression don't support in set" if [s] is
    a scan or a range step, and [Del] returns its error "not support del
    operation .." with the operation of [s] if [s] is neither a key step
    nor an index step; neither changes the store. *)
Theorem writers_refuse_scan_and_range (fuel : nat) (p : string) (c : Compiled)
    (pre post : list step) (s : step) (rootObj val cur : value)
    (seen : list loc) (h : heap) :
  Compile p = Ok c → steps c = pre ++ s :: post →
  tree_walk h pre rootObj = Some (cur, seen) →
  rootObj ≠ VNull → val ≠ VNull →
  (op s = OpScan ∨ op s = RangeOp →
     Set_ (S fuel) rootObj p val h = (Err ErrSetNotSupported, h))
  ∧ (op s ≠ KeyOp → op s ≠ IndexOp →
     Del (S fuel) rootObj p h = (Ok (Some (ErrDelNotSupported (op s))), h)).
Proof.
  intros Hc Hsteps Hwalk Hroot Hval. split.
  - intros Hop. cbn [Set_].
    rewrite Hc, bind_lift_ok, (followPtr_ok _ Hroot), bind_lift_ok.
    rewrite (followPtr_ok _ Hval), bind_lift_ok, Hsteps.
    destruct (set_loop_walk_to fuel rootObj p h pre s post rootObj cur seen
                rootObj None Hwalk) as (child' & le' & Hloop).
    erewrite bind_err; [done|]. rewrite Hloop.
    erewrite bind_err; [done|]. unfold set_step.
    by destruct Hop as [-> | ->].
  - intros Hk Hi. unfold Del.
    rewrite Hc, bind_lift_ok, (followPtr_ok _ Hroot), bind_lift_ok, Hsteps.
    destruct (del_loop_walk_to fuel h pre s post rootObj cur seen rootObj Hwalk)
      as (child' & Hloop).
    erewrite bind_ok; last first.
    { rewrite Hloop.
      assert (Hstep : del_step (S fuel) (bool_decide (post = [])) s (cur, child') h
                      = (Ok (inr (ErrDelNotSupported (op s))), h)).
      { unfold del_step. by destruct (op s). }
      by rewrite (bind_ok _ _ _ _ _ Hstep). }
    reflexivity.
Qed.

(** X17.  A plain key step after steps that resolve inside the tree,
    when the value reached is [nil] or an object that lacks the key:
    [Lookup] and [Del] return the error of [get_key] ("get attribute
    from null object", or [NotExist] of the key), and [Set] returns
    "incorrect set path .." when the step is not the last one; the store
    is left as it was. *)
Theorem absent_key_on_the_way (fuel : nat) (p : string) (c : Compiled)
    (pre post : list step) (k : string) (rootObj val cur : value) (e : error)
    (seen : list loc) (h : heap) :
  Compile p = Ok c → steps c = pre ++ Step KeyOp k ArgNil :: post →
  tree_walk h pre rootObj = Some (cur, seen) →
  rootObj ≠ VNull → val ≠ VNull →
  (cur = VNull ∧ e = ErrGetFromNullObj)
  ∨ (∃ l m, cur = VMap l ∧ map_at h l = Some m ∧ m !! k = None ∧ e = NotExist k) →
  Lookup (S fuel) c rootObj h = (Err e, h)
  ∧ Del (S fuel) rootObj p h = (Err e, h)
  ∧ (post ≠ [] → Set_ (S fuel) rootObj p val h = (Err (ErrIncorrectSetPath p), h)).
Proof.
  intros Hc Hsteps Hwalk Hroot Hval Hcur.
  assert (Hget : get_key (S fuel) cur k h = (Err e, h) ∧ is_absent e = true).
  { destruct Hcur as [[-> ->]|(l & m & -> & Hm & Hk & ->)]; [done|].
    by rewrite (get_key_map _ _ _ _ _ Hm), Hk. }
  destruct Hget as [Hget Habs].
  assert (Hlook : lookupKey (S fuel) cur (Step KeyOp k ArgNil) h
                  = (Ok (cur, VNull, Some e), h)).
  { by rewrite lookupKey_plain, Hget. }
  split_and!.
  - unfold Lookup. rewrite Hsteps, (lookup_steps_walk _ _ _ _ _ _ _ _ Hwalk).
    cbn [lookup_steps]. erewrite bind_err; [done|].
    unfold lookup_step. cbn [op]. by rewrite (bind_ok _ _ _ _ _ Hlook).
  - unfold Del.
    rewrite Hc, bind_lift_ok, (followPtr_ok _ Hroot), bind_lift_ok, Hsteps.
    destruct (del_loop_walk_to fuel h pre (Step KeyOp k ArgNil) post rootObj cur seen
                rootObj Hwalk) as (child' & Hloop).
    erewrite bind_err; [done|]. rewrite Hloop.
    erewrite bind_err; [done|]. unfold del_step. cbn [op].
    by rewrite (bind_ok _ _ _ _ _ Hlook).
  - intros Hpost. cbn [Set_].
    rewrite Hc, bind_lift_ok, (followPtr_ok _ Hroot), bind_lift_ok.
    rewrite (followPtr_ok _ Hval), bind_lift_ok, Hsteps.
    destruct (set_loop_walk_to fuel rootObj p h pre (Step KeyOp k ArgNil) post rootObj
                cur seen rootObj None Hwalk) as (child' & le' & Hloop).
    erewrite bind_err; [done|]. rewrite Hloop.
    erewrite bind_err; [done|]. unfold set_step. cbn [op].
    erewrite bind_err; [done|].
    rewrite (bind_ok _ _ _ _ _ Hlook). cbv beta iota.
    rewrite Habs. cbn [negb]. by rewrite bool_decide_eq_false_2.
Qed.

End Writers.

(** ** Negative indices and nil *)

Section NegativeIndex.
Context `{GoLibs}.

(** X18.  A negative index within the length as the last step of a path:
    [Lookup] returns the element counted from the end, but [Set] and
    [Del], which hand the index to [reflect]'s [Index] and [Slice],
    panic; the store is left as it was. *)
Theorem writers_panic_on_a_negative_index (fuel : nat) (p : string) (c : Compiled)
    (pre : list step) (k : string) (i : Z) (rootObj val cur e : value)
    (la : loc) (off len : nat) (es : list value) (seen ls : list loc) (h : heap) :
  let final := Step IndexOp k (ArgInts [i]) in
  Compile p = Ok c → steps c = pre ++ [final] →
  tree_walk h pre rootObj = Some (cur, seen) →
  tree_container h final cur = Some (VSlice la off len, ls) →
  elems h la off len = Some es →
  - Z.of_nat len ≤ i < 0 → es !! Z.to_nat (Z.of_nat len + i) = Some e →
  rootObj ≠ VNull → val ≠ VNull →
  Lookup (S fuel) c rootObj h = (Ok e, h)
  ∧ Set_ (S fuel) rootObj p val h = (Panic, h)
  ∧ Del (S fuel) rootObj p h = (Panic, h).
Proof.
  intros final Hc Hsteps Hwalk Hcont He Hi Hes Hroot Hval. subst final.
  pose proof (elems_length _ _ _ _ _ He) as Hlen.
  pose proof (lookup_lt_Some _ _ _ Hes) as Hlt.
  pose proof (tree_container_leading_key fuel _ _ _ _ _ Hcont) as Hlead.
  assert (Hidx : get_idx h (VSlice la off len) i = Ok e).
  { unfold get_idx. destruct (Z.leb_spec 0 i); [lia|].
    destruct (Z.ltb_spec (Z.of_nat len + i) 0); [lia|].
    unfold reflect_Index. rewrite He. cbn. by rewrite Hes. }
  assert (Ha : ∃ a, array_at h la = Some a) .
  { unfold elems in He. destruct (array_at h la); [eauto|done]. }
  destruct Ha as [a Ha].
  split_and!.
  - unfold Lookup. rewrite Hsteps, (lookup_steps_walk _ _ _ _ _ _ _ _ Hwalk).
    cbn [lookup_steps]. erewrite bind_ok; last first.
    { unfold lookup_step. cbn [op]. rewrite (bind_ok _ _ _ _ _ Hlead).
      cbn [args_ints args]. rewrite bind_lift_ok.
      erewrite bind_ok; last by (unfold reading; rewrite Hidx).
      reflexivity. }
    reflexivity.
  - cbn [Set_].
    rewrite Hc, bind_lift_ok, (followPtr_ok _ Hroot), bind_lift_ok.
    rewrite (followPtr_ok _ Hval), bind_lift_ok, Hsteps.
    destruct (set_loop_walk fuel rootObj p h pre (Step IndexOp k (ArgInts [i])) rootObj cur seen rootObj None
                Hwalk) as (child' & le' & Hloop).
    erewrite bind_ok; last first.
    { rewrite Hloop. unfold set_step. cbn [op].
      erewrite bind_ok; last first.
      { rewrite (bind_ok _ _ _ _ _ Hlead). cbn [args_ints args]. rewrite bind_lift_ok.
        erewrite bind_ok; last by (unfold reading; rewrite Hidx).
        reflexivity. }
      reflexivity. }
    cbv beta iota. rewrite last_snoc. cbn [or_panic]. rewrite bind_lift_ok.
    cbn [op args_ints args]. rewrite bind_lift_ok.
    change ([i] !! 0%nat) with (Some i). cbn [or_panic]. rewrite bind_lift_ok.
    unfold SetIndex. erewrite bind_ok; last by (unfold reading; rewrite Ha).
    by destruct (Z.leb_spec 0 i); [lia|].
  - unfold Del.
    rewrite Hc, bind_lift_ok, (followPtr_ok _ Hroot), bind_lift_ok, Hsteps.
    destruct (del_loop_walk fuel h pre (Step IndexOp k (ArgInts [i])) rootObj cur seen rootObj Hwalk)
      as (child' & Hloop).
    erewrite bind_ok; last first.
    { rewrite Hloop. unfold del_step. cbn [op].
      rewrite (bind_ok _ _ _ _ _ Hlead). cbn [args_ints args]. rewrite bind_lift_ok.
      erewrite bind_ok; last by (unfold reading; rewrite Hidx).
      reflexivity. }
    cbv beta iota. rewrite last_snoc. cbn [or_panic]. rewrite bind_lift_ok.
    cbn [args_ints args]. rewrite bind_lift_ok.
    change ([i] !! 0%nat) with (Some i). cbn [or_panic]. rewrite bind_lift_ok.
    erewrite bind_panic; [done|].
    unfold deleteElement. erewrite bind_ok; last by (unfold reading; rewrite Ha).
    by destruct (Z.leb_spec 0 i); [lia|].
Qed.

(** X19.  For a path that compiles, [Set] panics when the root is [nil]
    and when the value to write is [nil], and [Del] panics when the root
    is [nil] ([followPtr] asks the zero [reflect.Value] for its
    [Interface]); nothing is written. *)
Theorem writers_panic_on_nil (fuel : nat) (p : string) (c : Compiled)
    (rootObj val : value) (h : heap) :
  Compile p = Ok c →
  Set_ (S fuel) VNull p val h = (Panic, h)
  ∧ (rootObj ≠ VNull → Set_ (S fuel) rootObj p VNull h = (Panic, h))
  ∧ Del fuel VNull p h = (Panic, h).
Proof.
  intros Hc. split_and!.
  - cbn [Set_]. by rewrite Hc, bind_lift_ok.
  - intros Hroot. cbn [Set_].
    by rewrite Hc, bind_lift_ok, (followPtr_ok _ Hroot), bind_lift_ok.
  - unfold Del. by rewrite Hc, bind_lift_ok.
Qed.

End NegativeIndex.

(** ** What a write leaves alone *)

Section OtherPaths.
Context `{GoLibs}.

(** X20.  What [Set] leaves alone.  When the steps before the last one
    resolve inside the tree and the last step designates a key of an
    object or a position of an array reached that way, [Set] succeeds,
    and afterwards every program whose steps resolve inside the tree
    without reading the container written to returns the value it
    returned before, and any other key of the object written to reads as
    before: its value, or [NotExist]. *)
Theorem Set_leaves_other_paths (fuel : nat) (p : string) (c : Compiled)
    (pre : list step) (final : step) (rootObj val cur : value) (t : target)
    (seen seen' : list loc) (h : heap) :
  Compile p = Ok c →
  steps c = pre ++ [final] →
  tree_walk h pre rootObj = Some (cur, seen) →
  tree_target h final cur = Some (t, seen') →
  val ≠ VNull →
  ∃ h', Set_ (S fuel) rootObj p val h = (Ok (), h')
    ∧ (∀ q qs v seen_q,
         tree_walk h qs rootObj = Some (v, seen_q) → target_cell t ∉ seen_q →
         Lookup (S fuel) (MkCompiled q qs) rootObj h' = (Ok v, h'))
    ∧ (∀ q l k k' m,
         t = TKey l k → k' ≠ k → l ∉ seen → map_at h l = Some m →
         Lookup (S fuel) (MkCompiled q (pre ++ [Step KeyOp k' ArgNil])) rootObj h'
         = (match m !! k' with Some v => Ok v | None => Err (NotExist k') end, h')).
Proof.
  intros Hc Hsteps Hwalk Htarget Hval.
  assert (rootObj ≠ VNull) as Hroot.
  { destruct pre as [|s pre].
    - injection Hwalk as <- _. by eapply tree_target_not_nil.
    - cbn [tree_walk] in Hwalk.
      destruct (tree_step h s rootObj) as [[v ls]|] eqn:Hs; [|done].
      by eapply tree_step_not_nil. }
  exists (write_target h t val). split_and!.
  - destruct (set_loop_walk fuel rootObj p h pre final rootObj cur seen rootObj None Hwalk)
      as (child & le & Hloop).
    destruct (set_step_target fuel rootObj p h final cur t seen' child le Htarget)
      as (child' & le' & Hstep).
    eapply Set_writes_target; try done.
    by rewrite Hsteps, Hloop.
  - intros q qs v seen_q Hq Hfresh. unfold Lookup. cbn [steps].
    rewrite <- (app_nil_r qs).
    erewrite lookup_steps_walk; last first.
    { eapply tree_walk_agree; [exact Hq|]. by apply write_target_agree. }
    reflexivity.
  - intros q l k k' m -> Hk Hl Hm. unfold Lookup. cbn [steps].
    erewrite lookup_steps_walk; last first.
    { eapply tree_walk_agree; [exact Hwalk|]. by apply write_target_agree. }
    assert (cur = VMap l) as ->.
    { destruct final as [o k0 a]. unfold tree_target in Htarget.
      cbn [op key args] in Htarget. destruct o; try done.
      - destruct a; try done. destruct cur as [| | | | |l0|]; try done.
        destruct (map_at h l0); [|done]. cbn in Htarget. by injection Htarget as ->.
      - destruct a as [| |[|i [|j idxs]]|]; try done.
        destruct (tree_container h _ cur) as [[arr ls1]|]; [|done].
        cbn in Htarget. destruct arr; try done.
        destruct (array_at h l0); [|done]. cbn in Htarget.
        by destruct (_ && _). }
    rewrite lookup_plain_key. cbn [write_target]. rewrite Hm.
    rewrite (get_key_map _ _ _ _ (<[k := val]> m)); [|by eapply map_at_insert].
    by rewrite lookup_insert_ne.
Qed.

End OtherPaths.

(** ** Writing through a quoted subkey *)

Section QuotedSubkeys.
Context `{GoLibs}.

Lemma map_at_lt h l m : map_at h l = Some m → (l < length h)%nat.
Proof.
  unfold map_at. destruct (h !! l) eqn:E; [|done]. intros _. by eapply lookup_lt_Some.
Qed.

Lemma tree_key_cells h cur k v ls :
  tree_key h cur k = Some (v, ls) → Forall (λ x, (x < length h)%nat) ls.
Proof.
  unfold tree_key. destruct cur as [| | | | |l|]; try done.
  destruct (map_at h l) as [m|] eqn:Hm; [|done]. cbn.
  destruct (m !! k); [|done]. cbn. intros [= _ <-].
  constructor; [by eapply map_at_lt|constructor].
Qed.

Lemma tree_step_cells h s cur v ls :
  tree_step h s cur = Some (v, ls) → Forall (λ x, (x < length h)%nat) ls.
Proof.
  destruct s as [o k a]. unfold tree_step. cbn [op key args].
  assert (Hkeys : ∀ s, tree_keys h s cur = Some (v, ls) →
                       Forall (λ x, (x < length h)%nat) ls).
  { intros s. unfold tree_keys. destruct (lookup_keys s) as [skey subKey].
    destruct (tree_key h cur skey) as [[v1 ls1]|] eqn:H1; [|done]. cbn.
    pose proof (tree_key_cells _ _ _ _ _ H1) as Hc1.
    destruct (negb (String.eqb subKey "")).
    - destruct (tree_key h v1 subKey) as [[v2 ls2]|] eqn:H2; [|done]. cbn.
      intros [= _ <-]. apply Forall_app. split; [done|by eapply tree_key_cells].
    - by intros [= _ <-]. }
  destruct o; try done.
  - destruct a; try done; apply Hkeys.
  - destruct a as [| |[|i [|j idxs]]|]; try done.
    unfold tree_container. cbn [key].
    destruct (0 <? String.length k)%nat.
    + destruct (tree_key h cur k) as [[arr ls1]|] eqn:H1; [|done]. cbn.
      destruct (tree_index h arr i) as [[e ls2]|] eqn:H2; [|done]. cbn.
      intros [= _ <-]. apply Forall_app. split; [by eapply tree_key_cells|].
      unfold tree_index in H2. destruct arr as [| | | | | |la off len]; try done.
      destruct (get_idx h _ i) eqn:Hi; try done. injection H2 as _ <-.
      constructor; [|constructor].
      unfold get_idx, reflect_Index, elems, array_at in Hi.
      destruct (h !! la) eqn:E; [by eapply lookup_lt_Some|].
      by repeat case_match.
    + cbn. destruct (tree_index h cur i) as [[e ls2]|] eqn:H2; [|done]. cbn.
      intros [= _ <-].
      unfold tree_index in H2. destruct cur as [| | | | | |la off len]; try done.
      destruct (get_idx h _ i) eqn:Hi; try done. injection H2 as _ <-.
      constructor; [|constructor].
      unfold get_idx, reflect_Index, elems, array_at in Hi.
      destruct (h !! la) eqn:E; [by eapply lookup_lt_Some|].
      by repeat case_match.
Qed.

Lemma tree_walk_cells h ss cur v ls :
  tree_walk h ss cur = Some (v, ls) → Forall (λ x, (x < length h)%nat) ls.
Proof.
  revert cur ls. induction ss as [|s ss IH]; intros cur ls; cbn [tree_walk].
  { intros [= _ <-]. constructor. }
  destruct (tree_step h s cur) as [[v1 ls1]|] eqn:Hs; [|done]. cbn.
  destruct (tree_walk h ss v1) as [[r ls2]|] eqn:Hw; [|done]. cbn.
  intros [= -> <-]. apply Forall_app. split; [by eapply tree_step_cells|by eapply IH].
Qed.

(** A store extended by a cell and written at [l] holds what it held at
    the cells a walk has read, when [l] is none of them. *)
Lemma agree_on_grown h ss cur v ls l c new :
  tree_walk h ss cur = Some (v, ls) → l ∉ ls →
  agree_on ls h (<[l := c]> (h ++ [new])).
Proof.
  intros Hw Hl x Hx.
  pose proof (tree_walk_cells _ _ _ _ _ Hw) as Hcells.
  rewrite Forall_forall in Hcells.
  rewrite list_lookup_insert_ne by (by intros ->).
  by rewrite lookup_app_l by (by apply Hcells).
Qed.

Lemma lookupKey_quoted fuel obj k sub h :
  k ≠ "" → sub ≠ "" →
  lookupKey fuel obj (Step KeyOp k (ArgStr sub)) h
  = match get_key fuel obj k h with
    | (Ok v, h1) =>
        match get_key fuel v sub h1 with
        | (Ok v', h2) => (Ok (v, v', None), h2)
        | (Err e, h2) => (Ok (v, VNull, Some e), h2)
        | (Panic, h2) => (Panic, h2)
        | (OutOfFuel, h2) => (OutOfFuel, h2)
        end
    | (Err e, h1) => (Ok (obj, VNull, Some e), h1)
    | (Panic, h1) => (Panic, h1)
    | (OutOfFuel, h1) => (OutOfFuel, h1)
    end.
Proof.
  intros Hk Hsub. unfold lookupKey, lookup_keys, subkey_of. cbn [op key args].
  apply String.eqb_neq in Hk, Hsub. rewrite Hk, Hsub. cbn [andb negb].
  unfold mbind, M_bind, with_err.
  destruct (get_key fuel obj k h) as [[v|e| |] h1]; try done.
  rewrite Hsub. cbn [negb].
  by destruct (get_key fuel v sub h1) as [[v'|e| |] h2].
Qed.

(** What [Set] does after its loop when the last step has a quoted
    subkey and [parent] is the object at [l]. *)
Lemma Set_quoted_tail fuel rootObj p c pre k sub val h l m child le :
  Compile p = Ok c → steps c = pre ++ [Step KeyOp k (ArgStr sub)] →
  rootObj ≠ VNull → val ≠ VNull → map_at h l = Some m →
  set_loop (S fuel) rootObj p (steps c) (rootObj, rootObj, None) h
  = (Ok (VMap l, child, le), h) →
  let '(newKey, newValue) :=
    match le with
    | Some (NotExist k') =>
        if negb (String.eqb k' k) then (k', val) else (k, VMap (length h))
    | _ => (k, VMap (length h))
    end in
  Set_ (S fuel) rootObj p val h
  = (Ok (), <[l := CMap (<[newKey := newValue]> m)]> (h ++ [CMap {[sub := val]}])).
Proof.
  intros Hc Hsteps Hroot Hval Hm Hloop.
  assert (Hm0 : map_at (h ++ [CMap {[sub := val]}]) l = Some m).
  { eapply map_at_prefix; [|done]. by apply prefix_app_r. }
  assert (Hgen : ∀ nk nv,
    (fresh ← alloc (CMap {[sub := val]});
     let '(newKey, newValue) := (nk, nv fresh) in SetMapIndex l newKey newValue) h
    = (Ok (), <[l := CMap (<[nk := nv (length h)]> m)]> (h ++ [CMap {[sub := val]}]))).
  { intros nk nv. erewrite bind_ok; last by reflexivity.
    unfold SetMapIndex. erewrite bind_ok; last by (unfold reading; rewrite Hm0).
    by apply (store_map _ _ _ m). }
  cbn [Set_].
  rewrite Hc, bind_lift_ok, (followPtr_ok _ Hroot), bind_lift_ok.
  rewrite (followPtr_ok _ Hval), bind_lift_ok.
  rewrite (bind_ok _ _ _ _ _ Hloop). cbv beta iota.
  rewrite Hsteps, last_snoc. cbn [or_panic]. rewrite bind_lift_ok.
  cbn [args key].
  destruct le as [[]|]; try apply (Hgen k (λ f, VMap f)).
  match goal with
  | |- context [negb (String.eqb ?k' k)] =>
      destruct (negb (String.eqb k' k));
        [apply (Hgen k' (λ _, val)) | apply (Hgen k (λ f, VMap f))]
  end.
Qed.

(** X21.  [Set] with a last step [k['sub']] on an object of the tree.
    When the object lacks [k], [Set] stores under [k] a new object that
    holds [sub]; when [k] holds an object that lacks [sub] ([sub] being
    another key than [k]), [Set] adds [sub] to that object.  In both
    cases a lookup of the program afterwards returns the value written.
    ([Set] allocates the object [{sub: val}] in both.) *)
Theorem Set_creates_a_quoted_subkey (fuel : nat) (p : string) (c : Compiled)
    (pre : list step) (k sub : string) (rootObj val : value) (l : loc)
    (m : gmap string value) (seen : list loc) (h : heap) :
  Compile p = Ok c → steps c = pre ++ [Step KeyOp k (ArgStr sub)] →
  k ≠ "" → sub ≠ "" →
  tree_walk h pre rootObj = Some (VMap l, seen) →
  map_at h l = Some m → l ∉ seen → val ≠ VNull →
  let h0 := h ++ [CMap {[sub := val]}] in
  (m !! k = None →
     let h' := <[l := CMap (<[k := VMap (length h)]> m)]> h0 in
     Set_ (S fuel) rootObj p val h = (Ok (), h')
     ∧ Lookup (S fuel) c rootObj h' = (Ok val, h'))
  ∧ (∀ l1 m1,
       m !! k = Some (VMap l1) → map_at h l1 = Some m1 → m1 !! sub = None →
       l1 ∉ seen → l1 ≠ l → sub ≠ k →
       let h' := <[l1 := CMap (<[sub := val]> m1)]> h0 in
       Set_ (S fuel) rootObj p val h = (Ok (), h')
       ∧ Lookup (S fuel) c rootObj h' = (Ok val, h')).
Proof.
  intros Hc Hsteps Hk Hsub Hwalk Hm Hl Hval h0.
  assert (rootObj ≠ VNull) as Hroot by (by eapply tree_walk_not_nil).
  pose proof (map_at_lt _ _ _ Hm) as Hlt.
  destruct (set_loop_walk fuel rootObj p h pre (Step KeyOp k (ArgStr sub)) rootObj
              (VMap l) seen rootObj None Hwalk) as (child & le & Hloop).
  split.
  - intros Hmk h'. split.
    + assert (Hset : set_loop (S fuel) rootObj p (steps c) (rootObj, rootObj, None) h
                     = (Ok (VMap l, VNull, Some (NotExist k)), h)).
      { rewrite Hsteps, Hloop. unfold set_step. cbn [op].
        erewrite bind_ok; last first.
        { erewrite bind_ok; last first.
          { by rewrite lookupKey_quoted, (get_key_map _ _ _ _ _ Hm), Hmk. }
          reflexivity. }
        reflexivity. }
      pose proof (Set_quoted_tail fuel rootObj p c pre k sub val h l m _ _
                    Hc Hsteps Hroot Hval Hm Hset) as Htail.
      cbv beta iota in Htail. by rewrite String.eqb_refl in Htail.
    + unfold Lookup. rewrite Hsteps.
      erewrite lookup_steps_walk; last first.
      { eapply tree_walk_agree; [exact Hwalk|]. by eapply agree_on_grown. }
      cbn [lookup_steps]. erewrite bind_ok; last first.
      { unfold lookup_step. cbn [op]. erewrite bind_ok; last first.
        { rewrite lookupKey_quoted by done.
          rewrite (get_key_map _ _ _ _ (<[k := VMap (length h)]> m)); last first.
          { eapply map_at_insert. eapply map_at_prefix; [|done]. by apply prefix_app_r. }
          rewrite lookup_insert_eq.
          rewrite (get_key_map _ _ _ _ {[sub := val]}); last first.
          { unfold map_at, h', h0. rewrite list_lookup_insert_ne by lia.
            by rewrite lookup_app_r, Nat.sub_diag by lia. }
          by rewrite lookup_singleton_eq. }
        reflexivity. }
      reflexivity.
  - intros l1 m1 Hmk Hm1 Hsubk Hl1 Hne Hsk h'. split.
    + assert (Hset : set_loop (S fuel) rootObj p (steps c) (rootObj, rootObj, None) h
                     = (Ok (VMap l1, VNull, Some (NotExist sub)), h)).
      { rewrite Hsteps, Hloop. unfold set_step. cbn [op].
        erewrite bind_ok; last first.
        { erewrite bind_ok; last first.
          { rewrite lookupKey_quoted, (get_key_map _ _ _ _ _ Hm), Hmk by done.
            by rewrite (get_key_map _ _ _ _ _ Hm1), Hsubk. }
          reflexivity. }
        reflexivity. }
      pose proof (Set_quoted_tail fuel rootObj p c pre k sub val h l1 m1 _ _
                    Hc Hsteps Hroot Hval Hm1 Hset) as Htail.
      cbv beta iota in Htail.
      by rewrite (proj2 (String.eqb_neq _ _) Hsk) in Htail.
    + unfold Lookup. rewrite Hsteps.
      erewrite lookup_steps_walk; last first.
      { eapply tree_walk_agree; [exact Hwalk|]. by eapply agree_on_grown. }
      cbn [lookup_steps]. erewrite bind_ok; last first.
      { unfold lookup_step. cbn [op]. erewrite bind_ok; last first.
        { rewrite lookupKey_quoted by done.
          rewrite (get_key_map _ _ _ _ m); last first.
          { unfold map_at, h', h0. rewrite list_lookup_insert_ne by done.
            rewrite lookup_app_l by done. exact Hm. }
          rewrite Hmk.
          rewrite (get_key_map _ _ _ _ (<[sub := val]> m1)); last first.
          { eapply map_at_insert. eapply map_at_prefix; [|done]. by apply prefix_app_r. }
          by rewrite lookup_insert_eq. }
        reflexivity. }
      reflexivity.
Qed.

(** X22.  [Set] with a last step [k['sub']] when [k] holds an object that
    holds [sub] already: [Set] returns no error and does not replace the
    value.  It stores the new object [{sub: val}] under the key [k] of
    the inner object, and a lookup of the program afterwards still
    returns the old value. *)
Theorem Set_misses_an_existing_quoted_subkey (fuel : nat) (p : string)
    (c : Compiled) (pre : list step) (k sub : string) (rootObj val old : value)
    (l l1 : loc) (m m1 : gmap string value) (seen : list loc) (h : heap) :
  Compile p = Ok c → steps c = pre ++ [Step KeyOp k (ArgStr sub)] →
  k ≠ "" → sub ≠ "" → sub ≠ k →
  tree_walk h pre rootObj = Some (VMap l, seen) →
  map_at h l = Some m → m !! k = Some (VMap l1) →
  map_at h l1 = Some m1 → m1 !! sub = Some old →
  l ∉ seen → l1 ∉ seen → l1 ≠ l → val ≠ VNull →
  let h' := <[l1 := CMap (<[k := VMap (length h)]> m1)]> (h ++ [CMap {[sub := val]}]) in
  Set_ (S fuel) rootObj p val h = (Ok (), h')
  ∧ Lookup (S fuel) c rootObj h' = (Ok old, h').
Proof.
  intros Hc Hsteps Hk Hsub Hsk Hwalk Hm Hmk Hm1 Hold Hl Hl1 Hne Hval h'.
  assert (rootObj ≠ VNull) as Hroot by (by eapply tree_walk_not_nil).
  pose proof (map_at_lt _ _ _ Hm) as Hlt.
  destruct (set_loop_walk fuel rootObj p h pre (Step KeyOp k (ArgStr sub)) rootObj
              (VMap l) seen rootObj None Hwalk) as (child & le & Hloop).
  split.
  - assert (Hset : set_loop (S fuel) rootObj p (steps c) (rootObj, rootObj, None) h
                   = (Ok (VMap l1, old, None), h)).
    { rewrite Hsteps, Hloop. unfold set_step. cbn [op].
      erewrite bind_ok; last first.
      { erewrite bind_ok; last first.
        { rewrite lookupKey_quoted, (get_key_map _ _ _ _ _ Hm), Hmk by done.
          by rewrite (get_key_map _ _ _ _ _ Hm1), Hold. }
        reflexivity. }
      reflexivity. }
    exact (Set_quoted_tail fuel rootObj p c pre k sub val h l1 m1 _ _
             Hc Hsteps Hroot Hval Hm1 Hset).
  - unfold Lookup. rewrite Hsteps.
    erewrite lookup_steps_walk; last first.
    { eapply tree_walk_agree; [exact Hwalk|]. by eapply agree_on_grown. }
    cbn [lookup_steps]. erewrite bind_ok; last first.
    { unfold lookup_step. cbn [op]. erewrite bind_ok; last first.
      { rewrite lookupKey_quoted by done.
        rewrite (get_key_map _ _ _ _ m); last first.
        { unfold map_at, h'. rewrite list_lookup_insert_ne by done.
          rewrite lookup_app_l by done. exact Hm. }
        rewrite Hmk.
        rewrite (get_key_map _ _ _ _ (<[k := VMap (length h)]> m1)); last first.
        { eapply map_at_insert. eapply map_at_prefix; [|done]. by apply prefix_app_r. }
        by rewrite lookup_insert_ne, Hold. }
      reflexivity. }
    reflexivity.
Qed.

End QuotedSubkeys.

(** ** Writing a key in every element of an array *)

Section Broadcast.
Context `{GoLibs}.

(** The key lookups on the objects at [cells], none of which changes the
    store. *)
Lemma kept_objects fuel k (cells : list loc) h :
  Forall (λ l, is_Some (map_at h l)) cells →
  kept (λ e, get_key (S fuel) e k) (VMap <$> cells) h
       (omap (λ l, map_at h l ≫= (.!! k)) cells) h.
Proof.
  induction 1 as [|l cells [m Hm] _ IH]; [constructor|].
  cbn [fmap list_fmap omap list_omap]. rewrite Hm. cbn [mbind option_bind].
  destruct (m !! k) as [v|] eqn:Hk.
  - eapply kept_found; [|exact IH]. by rewrite (get_key_map _ _ _ _ _ Hm), Hk.
  - eapply kept_missed; [|exact IH]. by rewrite (get_key_map _ _ _ _ _ Hm), Hk.
Qed.

(** [get_key] on an array of objects. *)
Lemma get_key_objects fuel k la off len (cells : list loc) h :
  elems h la off len = Some (VMap <$> cells) →
  Forall (λ l, is_Some (map_at h l)) cells →
  let rs := omap (λ l, map_at h l ≫= (.!! k)) cells in
  get_key (S (S fuel)) (VSlice la off len) k h
  = match rs with
    | [] => (Err (NotExist k), h)
    | _ => (Ok (VSlice (length h) 0 (length rs)), h ++ [CArray rs])
    end.
Proof.
  intros He Hcells rs.
  pose proof (elems_length _ _ _ _ _ He) as Hlen. rewrite length_fmap in Hlen.
  cbn [get_key].
  pose proof (key_loop_kept (λ e, get_key (S fuel) e k) la off len _ h He
                (λ v, framed_get_key _ v k) _ _ _ _ (kept_objects fuel k cells h Hcells)
                0%nat [] eq_refl (reflexivity h)) as Hloop.
  rewrite length_fmap, Hlen in Hloop. cbn [app] in Hloop. fold rs in Hloop.
  rewrite (bind_ok _ _ _ _ _ Hloop). by destruct rs.
Qed.

(** [Set] with a path of one key step, on an object. *)
Lemma Set_one_key fuel q c1 k l m val h :
  Compile q = Ok c1 → steps c1 = [Step KeyOp k ArgNil] →
  map_at h l = Some m → val ≠ VNull →
  Set_ (S fuel) (VMap l) q val h = (Ok (), <[l := CMap (<[k := val]> m)]> h).
Proof.
  intros Hc Hsteps Hm Hval.
  assert (Htarget : tree_target h (Step KeyOp k ArgNil) (VMap l) = Some (TKey l k, [])).
  { unfold tree_target. cbn [op args key]. by rewrite Hm. }
  destruct (set_loop_walk fuel (VMap l) q h [] (Step KeyOp k ArgNil) (VMap l) (VMap l)
              [] (VMap l) None eq_refl) as (child & le & Hloop).
  destruct (set_step_target fuel (VMap l) q h _ _ _ _ child le Htarget)
    as (child' & le' & Hstep).
  pose proof (Set_writes_target fuel (VMap l) q c1 [] (Step KeyOp k ArgNil) val h
                (VMap l) (TKey l k) [] child' le' Hc Hsteps) as Hset.
  cbn [write_target] in Hset. rewrite Hm in Hset. apply Hset; try done.
  rewrite Hsteps. cbn [app] in Hloop. by rewrite Hloop, Hstep.
Qed.

(** The store after the key [k] is set to [val] in the objects at
    [cells], one after the other. *)
Lemma write_all_spec k val (cells : list loc) :
  ∀ h, Forall (λ l, is_Some (map_at h l)) cells →
  let h' := foldl (λ hh l, write_target hh (TKey l k) val) h cells in
  length h' = length h
  ∧ (∀ x, x ∉ cells → h' !! x = h !! x)
  ∧ (∀ l m, l ∈ cells → map_at h l = Some m → map_at h' l = Some (<[k := val]> m)).
Proof.
  induction cells as [|l cells IH]; intros h Hcells h'.
  { split_and!; [done..|]. intros l m Hl. by apply elem_of_nil in Hl. }
  apply Forall_cons in Hcells as [[m Hm] Hcells].
  cbn [foldl] in h'. set (h1 := write_target h (TKey l k) val) in *.
  assert (Hh1 : h1 = <[l := CMap (<[k := val]> m)]> h).
  { unfold h1. cbn [write_target]. by rewrite Hm. }
  assert (Hm1 : map_at h1 l = Some (<[k := val]> m)).
  { rewrite Hh1. by eapply map_at_insert. }
  assert (Hother : ∀ x, x ≠ l → h1 !! x = h !! x).
  { intros x Hx. rewrite Hh1. by apply list_lookup_insert_ne. }
  assert (Hcells1 : Forall (λ l, is_Some (map_at h1 l)) cells).
  { eapply Forall_impl; [exact Hcells|]. intros x [mx Hx].
    destruct (decide (x = l)) as [->|Hne]; [by eexists|].
    exists mx. unfold map_at in *. by rewrite Hother. }
  destruct (IH h1 Hcells1) as (Hlen & Hframe & Hmaps). fold h' in Hlen, Hframe, Hmaps.
  split_and!.
  - rewrite Hlen, Hh1. apply length_insert.
  - intros x Hx. apply not_elem_of_cons in Hx as [Hx Hx'].
    by rewrite Hframe, Hother.
  - intros x mx Hx Hmx. destruct (decide (x ∈ cells)) as [Hin|Hnin].
    + destruct (decide (x = l)) as [->|Hne].
      * rewrite (Hmaps l _ Hin Hm1). rewrite Hm in Hmx. injection Hmx as <-.
        by rewrite insert_insert_eq.
      * apply Hmaps; [done|]. unfold map_at in *. by rewrite Hother.
    + apply elem_of_cons in Hx as [->|Hx]; [|done].
      rewrite Hm in Hmx. injection Hmx as <-.
      unfold map_at. rewrite (Hframe l Hnin). exact Hm1.
Qed.

Lemma broadcast_loop_objects fuel q c1 k val la off len (cells : list loc) :
  Compile q = Ok c1 → steps c1 = [Step KeyOp k ArgNil] → val ≠ VNull →
  ∀ rest i h,
    drop i cells = rest →
    elems h la off len = Some (VMap <$> cells) →
    Forall (λ l, is_Some (map_at h l)) rest →
    broadcast_loop (λ elem, Set_ (S fuel) elem q val) (VSlice la off len)
      (seq i (length rest)) h
    = (Ok (), foldl (λ hh l, write_target hh (TKey l k) val) h rest).
Proof.
  intros Hc Hsteps Hval. induction rest as [|l rest IH]; intros i h Hdrop He Hrest.
  { reflexivity. }
  apply Forall_cons in Hrest as [[m Hm] Hrest].
  assert (Hi : cells !! i = Some l).
  { pose proof (lookup_drop cells i 0) as Hd.
    by rewrite Hdrop, Nat.add_0_r in Hd. }
  assert (Hdrop' : drop (S i) cells = rest).
  { pose proof (drop_drop cells 1 i) as Hd.
    rewrite Hdrop, Nat.add_1_r in Hd. by rewrite <- Hd. }
  cbn [length seq broadcast_loop foldl].
  erewrite bind_ok; last first.
  { unfold index_at, reading, reflect_Index. rewrite He. cbn.
    by rewrite list_lookup_fmap, Hi. }
  erewrite bind_ok; last by eapply Set_one_key.
  cbn [write_target]. rewrite Hm.
  set (h1 := <[l := CMap (<[k := val]> m)]> h).
  assert (Hne : ∀ a, array_at h la = Some a → l ≠ la).
  { intros a Ha ->. unfold map_at, array_at in *. by destruct (h !! la) as [[]|]. }
  apply IH; [done| |].
  - unfold elems in *. destruct (array_at h la) as [a|] eqn:Ha; [|done].
    assert (array_at h1 la = Some a) as ->; [|done].
    unfold array_at, h1 in *. rewrite list_lookup_insert_ne; [done|].
    by eapply Hne.
  - eapply Forall_impl; [exact Hrest|]. intros x [mx Hx].
    destruct (decide (x = l)) as [->|Hxl].
    + eexists. by eapply map_at_insert.
    + exists mx. unfold map_at, h1 in *. by rewrite list_lookup_insert_ne.
Qed.

Lemma omap_all {A B} (f : A → option B) (l : list A) (b : B) :
  (∀ x, x ∈ l → f x = Some b) → omap f l = replicate (length l) b.
Proof.
  induction l as [|x l IH]; intros Hf; [done|].
  cbn. rewrite (Hf x) by left. f_equal. apply IH. intros y Hy. apply Hf. by right.
Qed.

(** X23.  [Set] with a last plain key step [k], a name, when the steps
    before it resolve inside the tree to an array of objects: [Set]
    returns no error, every object of the array holds [k] with the value
    written and its other keys as before, the cells of the store other
    than those objects are as they were, and, when the array is not empty
    and none of the objects was read on the way, a lookup of the program
    afterwards returns a fresh array that holds the value once per
    element. *)
Theorem Set_broadcasts_over_objects (fuel : nat) (p : string) (c : Compiled)
    (pre : list step) (k : string) (rootObj val : value) (la : loc)
    (off len : nat) (cells seen : list loc) (h : heap) :
  Compile p = Ok c → steps c = pre ++ [Step KeyOp k ArgNil] →
  is_name k = true →
  tree_walk h pre rootObj = Some (VSlice la off len, seen) →
  elems h la off len = Some (VMap <$> cells) →
  Forall (λ l, is_Some (map_at h l)) cells →
  val ≠ VNull →
  ∃ h', Set_ (S (S fuel)) rootObj p val h = (Ok (), h')
    ∧ (∀ l m, l ∈ cells → map_at h l = Some m →
         map_at h' l = Some (<[k := val]> m))
    ∧ (∀ x, (x < length h)%nat → x ∉ cells → h' !! x = h !! x)
    ∧ (cells ≠ [] → Forall (λ l, l ∉ seen) cells →
         Lookup (S (S fuel)) c rootObj h'
         = (Ok (VSlice (length h') 0 len), h' ++ [CArray (replicate len val)])).
Proof.
  intros Hc Hsteps Hname Hwalk He Hcells Hval.
  assert (rootObj ≠ VNull) as Hroot by (by eapply tree_walk_not_nil).
  pose proof (elems_length _ _ _ _ _ He) as Hlen. rewrite length_fmap in Hlen.
  pose proof (is_name_spec _ Hname) as (Hbare & _).
  set (final := Step KeyOp k ArgNil) in *.
  assert (Hback : Compile (stepToPath final)
                  = Ok (MkCompiled (stepToPath final) [final])).
  { by apply Compile_plain_key. }
  assert (∃ h1 child le,
            set_loop (S (S fuel)) rootObj p (steps c) (rootObj, rootObj, None) h
            = (Ok (VSlice la off len, child, le), h1) ∧ h `prefix_of` h1)
    as (h1 & child & le & Hloop & Hpre).
  { destruct (set_loop_walk (S fuel) rootObj p h pre final rootObj _ seen rootObj None
                Hwalk) as (child' & le' & Hloop).
    rewrite Hsteps, Hloop. unfold set_step, final. cbn [op].
    pose proof (get_key_objects fuel k la off len cells h He Hcells) as Hget.
    cbv zeta in Hget.
    destruct (omap _ cells) as [|r rs] eqn:Hrs.
    - exists h, VNull, (Some (NotExist k)). split; [|done].
      erewrite bind_ok; last first.
      { erewrite bind_ok; last by rewrite lookupKey_plain, Hget.
        reflexivity. }
      reflexivity.
    - eexists _, _, None. split; [|by apply prefix_app_r].
      erewrite bind_ok; last first.
      { erewrite bind_ok; last by rewrite lookupKey_plain, Hget.
        reflexivity. }
      reflexivity. }
  assert (He1 : elems h1 la off len = Some (VMap <$> cells)) by (by eapply elems_prefix).
  assert (Hcells1 : Forall (λ l, is_Some (map_at h1 l)) cells).
  { eapply Forall_impl; [exact Hcells|]. intros x [mx Hx].
    exists mx. by eapply map_at_prefix. }
  set (h' := foldl (λ hh l, write_target hh (TKey l k) val) h1 cells).
  destruct (write_all_spec k val cells h1 Hcells1) as (Hlen' & Hframe & Hmaps).
  fold h' in Hlen', Hframe, Hmaps.
  assert (Hsame : ∀ x, (x < length h)%nat → h1 !! x = h !! x).
  { intros x Hx. destruct Hpre as [extra ->]. by apply lookup_app_l. }
  assert (Hold : ∀ x, (x < length h)%nat → x ∉ cells → h' !! x = h !! x).
  { intros x Hx Hnin. by rewrite Hframe, Hsame. }
  assert (Hnew : ∀ l m, l ∈ cells → map_at h l = Some m →
                        map_at h' l = Some (<[k := val]> m)).
  { intros l m Hl Hm. apply Hmaps; [done|]. by eapply map_at_prefix. }
  exists h'. split_and!; [|done|done|].
  - remember (S fuel) as n eqn:Hn. cbn [Set_].
    rewrite Hc, bind_lift_ok, (followPtr_ok _ Hroot), bind_lift_ok.
    rewrite (followPtr_ok _ Hval), bind_lift_ok.
    rewrite (bind_ok _ _ _ _ _ Hloop). cbv beta iota.
    rewrite Hsteps, last_snoc. cbn [or_panic]. rewrite bind_lift_ok.
    cbn [op final]. rewrite Hn.
    pose proof (broadcast_loop_objects fuel _ _ k val la off len cells Hback eq_refl
                  Hval cells 0%nat h1 eq_refl He1 Hcells1) as Hb.
    rewrite Hlen in Hb. exact Hb.
  - intros Hne Hseen.
    assert (Hla : (la < length h)%nat ∧ la ∉ cells) .
    { unfold elems in He. destruct (array_at h la) as [a|] eqn:Ha; [|done].
      split.
      - unfold array_at in Ha. destruct (h !! la) eqn:E; [|done].
        by eapply lookup_lt_Some.
      - intros Hin. rewrite Forall_forall in Hcells.
        destruct (Hcells _ Hin) as [m Hm].
        unfold map_at, array_at in *. by destruct (h !! la) as [[]|]. }
    destruct Hla as [Hla Hla'].
    unfold Lookup. rewrite Hsteps.
    erewrite lookup_steps_walk; last first.
    { eapply tree_walk_agree; [exact Hwalk|]. intros x Hx.
      pose proof (tree_walk_cells _ _ _ _ _ Hwalk) as Hc'.
      rewrite Forall_forall in Hc', Hseen.
      apply Hold; [by apply Hc'|]. intros Hin. by apply (Hseen _ Hin). }
    unfold final. rewrite lookup_plain_key.
    assert (He' : elems h' la off len = Some (VMap <$> cells)).
    { unfold elems, array_at in *. by rewrite Hold. }
    assert (Hcells' : Forall (λ l, is_Some (map_at h' l)) cells).
    { rewrite Forall_forall in Hcells |- *. intros x Hx.
      destruct (Hcells x Hx) as [m Hm]. eexists. by eapply Hnew. }
    pose proof (get_key_objects fuel k la off len cells h' He' Hcells') as Hget.
    cbv zeta in Hget.
    rewrite (omap_all _ _ val) in Hget; last first.
    { intros x Hx. rewrite Forall_forall in Hcells.
      destruct (Hcells x Hx) as [m Hm]. rewrite (Hnew _ _ Hx Hm).
      cbn. by rewrite lookup_insert_eq. }
    rewrite Hget, Hlen. destruct len as [|n]; [by destruct cells|].
    by rewrite length_replicate.
Qed.

End Broadcast.

(** * Worked instances *)

#[local] Existing Instance example_libs.

(** The negative index law on [{"b":[7,8,9]}]: the last element by [-1] and
    by [2], in [get_idx] and in the step [b[-1]], and index [3] refused. *)
Lemma negative_index_law_witness :
  let h := [CMap {["b" := VSlice 1 0 3]}; CArray [VInt 7; VInt 8; VInt 9]] in
  get_idx h (VSlice 1 0 3) (-1) = Ok (VInt 9)
  ∧ get_idx h (VSlice 1 0 3) 2 = Ok (VInt 9)
  ∧ lookup_step 1 (VMap 0) (Step IndexOp "b" (ArgInts [-1])) (VMap 0) h
    = lookup_step 1 (VMap 0) (Step IndexOp "b" (ArgInts [2])) (VMap 0) h
  ∧ ∃ e, get_idx h (VSlice 1 0 3) 3 = Err e ∧ kind_of e = RangeError.
Proof.
  intros h.
  pose proof (negative_index_law 1%nat 0%nat 3%nat) as (_ & Hstep & _ & Hout & Hin).
  split_and!.
  - rewrite (Hin h (-1)); [reflexivity | simpl; lia].
  - rewrite (Hin h 2); [reflexivity | simpl; lia].
  - apply (Hstep 1%nat (VMap 0) "b" (VMap 0) h h). reflexivity.
  - apply (Hout h 3). simpl; lia.
Defined.

(** The slice laws on the same tree: the full range, the range [0:2], the
    step [b[*]], and the upper bound [3] refused. *)
Lemma slice_laws_witness :
  let h := [CMap {["b" := VSlice 1 0 3]}; CArray [VInt 7; VInt 8; VInt 9]] in
  get_range (VSlice 1 0 3) None None = Ok (VSlice 1 0 3)
  ∧ get_range (VSlice 1 0 3) (Some 0) (Some 2) = Ok (VSlice 1 0 3)
  ∧ lookup_step 1 (VMap 0) (Step RangeOp "b" (ArgRange None None)) (VMap 0) h
    = (Ok (Continue (VSlice 1 0 3)), h)
  ∧ (∃ e, get_range (VSlice 1 0 3) (Some 1) (Some 3) = Err e
          ∧ kind_of e = RangeError).
Proof.
  intros h.
  pose proof (slice_laws 1%nat 0%nat 3%nat (Some 1) (Some 3)) as Hlaws.
  simpl in Hlaws.
  destruct Hlaws as ((Hfull & Hzero & Hstep) & Hout & _);
    [vm_compute; discriminate | lia |].
  split_and!; [exact Hfull | exact Hzero | |].
  - apply (Hstep 1%nat (VMap 0) "b" (VMap 0) h h); [by left | reflexivity].
  - apply Hout. vm_compute. right. right. right. reflexivity.
Defined.

(** The empty slice against the claim that the slice laws hold for every
    array: with both bounds unset the lower-bound check
    [_frm >= length] fires, and the result is an error, not the slice. *)
Lemma slice_of_empty_is_error :
  get_range (VSlice 0 0 0) None None = Err (ErrFromOutOfRange 0)
  ∧ get_range (VSlice 0 0 0) None None ≠ Ok (VSlice 0 0 0)
  ∧ get_range (VSlice 0 0 0) (Some 0) (Some (0 - 1)) ≠ Ok (VSlice 0 0 0).
Proof. split_and!; [reflexivity | discriminate | discriminate]. Qed.

(** The token [a[?(@.x == 1 2)]] compiles, and its evaluation on [{"a":[]}]
    returns the error of the third blank. *)
Lemma filter_stage_limit_is_found_at_evaluation_witness :
  compile_steps ["a[?(@.x == 1 2)]"]
  = Ok [Step FilterOp "a" (ArgStr "@.x == 1 2")]
  ∧ lookup_steps 1 [Step FilterOp "a" (ArgStr "@.x == 1 2")] (VMap 0) (VMap 0)
      [CMap {["a" := VSlice 1 0 0]}; CArray []]
    = (Err (ErrInvalidChar 8), [CMap {["a" := VSlice 1 0 0]}; CArray []]).
Proof.
  destruct (filter_stage_limit_is_found_at_evaluation "a" "@.x" "==" "1" "2")
    as (Hcompile & _ & Hlookup); try reflexivity.
  split; [exact Hcompile|].
  apply (Hlookup 1%nat (VMap 0) (VMap 0) [] _ (VSlice 1 0 0)). reflexivity.
Defined.

(** The path [$.a[?(@.x == 1 2)]], whose clause has one part too many
    for [parse_filter], against the claim that [Compile] refuses it:
    [Compile] returns a program. *)
Lemma Compile_accepts_four_part_clause :
  Compile "$.a[?(@.x == 1 2)]"
  = Ok (MkCompiled "$.a[?(@.x == 1 2)]" [Step FilterOp "a" (ArgStr "@.x == 1 2")])
  ∧ (∀ e, Compile "$.a[?(@.x == 1 2)]" ≠ Err e)
  ∧ parse_filter "@.x == 1 2" = Err (ErrInvalidChar 8).
Proof. split_and!; [reflexivity | discriminate | reflexivity]. Qed.

(** The path [$.a..b] on [{"a":{"c":1}}]: the object under [a], in which
    there is no [b]; and the scan as the first step, which returns the
    root. *)
Lemma wildcard_short_circuits_witness :
  let h := [CMap {["a" := VMap 1]}; CMap {["c" := VInt 1]}] in
  let a := Step KeyOp "a" ArgNil in
  let b := Step KeyOp "b" ArgNil in
  let scan := Step OpScan "*" ArgNil in
  tree_walk h [a] (VMap 0) = Some (VMap 1, [0%nat])
  ∧ Lookup 1 (MkCompiled "$.a..b" [a; scan; b]) (VMap 0) h = (Ok (VMap 1), h)
  ∧ Lookup 1 (MkCompiled "$..b" [scan; b]) (VMap 0) h = (Ok (VMap 0), h)
  ∧ JsonPathLookup 1 (VMap 0) "$.a..b" h = (Ok (VMap 1), h).
Proof.
  intros h a b scan.
  destruct wildcard_short_circuits as (_ & Hwalk & _ & Hab & _).
  split_and!.
  - reflexivity.
  - apply (Hwalk 0%nat "$.a..b" [a] "*" ArgNil [b] (VMap 0) h (VMap 1) [0%nat]).
    reflexivity.
  - apply (Hwalk 0%nat "$..b" [] "*" ArgNil [b] (VMap 0) h (VMap 0) []).
    reflexivity.
  - exact (Hab 0%nat 0%nat {["a" := VMap 1]} h eq_refl).
Defined.

(** The key [a] over [[{"a":1}, 3, {"a":2}]]: the results [[1, 2]], the
    number skipped. *)
Lemma key_step_over_array_witness :
  let h := [CArray [VMap 1; VInt 3; VMap 2];
            CMap {["a" := VInt 1]}; CMap {["a" := VInt 2]}] in
  get_key 2 (VSlice 0 0 3) "a" h
  = (Ok (VSlice 3 0 2), h ++ [CArray [VInt 1; VInt 2]]).
Proof.
  intros h.
  destruct (key_step_over_array 1 "a" 0 0 3 [VMap 1; VInt 3; VMap 2]
              [VInt 1; VInt 2] h h) as (Hget & _); [reflexivity | |].
  - eapply kept_found; [reflexivity|].
    eapply kept_missed; [reflexivity|].
    eapply kept_found; [reflexivity|].
    apply kept_nil.
  - exact (Hget 0%nat).
Defined.


(** Scenario C: the root [{"x":{"y":1}}], [Set] of [$.x.y] to [5], then
    the lookup of [$.x.y]. *)
Lemma Set_then_Lookup_witness :
  let h := [CMap {["x" := VMap 1]}; CMap {["y" := VInt 1]}] in
  let h' := [CMap {["x" := VMap 1]}; CMap {["y" := VInt 5]}] in
  Set_ 1 (VMap 0) "$.x.y" (VInt 5) h = (Ok (), h')
  ∧ JsonPathLookup 1 (VMap 0) "$.x.y" h' = (Ok (VInt 5), h').
Proof.
  intros h h'.
  apply (Set_then_Lookup 0 "$.x.y"
           (MkCompiled "$.x.y" [Step KeyOp "x" ArgNil; Step KeyOp "y" ArgNil])
           [Step KeyOp "x" ArgNil] (Step KeyOp "y" ArgNil)
           (VMap 0) (VInt 5) (VMap 1) (TKey 1 "y") [0%nat] [] h);
    try reflexivity.
  - vm_compute. intros Hin. apply list_elem_of_In in Hin. simpl in Hin. intuition lia.
  - discriminate.
Defined.

(** Existing containers against the round-trip claim.  In the tree
    [{"a":[1,2]}] the path [$.a[0:1]] names an array that exists, and the
    lookup succeeds, yet [Set] refuses the slice step; in the tree
    [{"arr":[{"x":1}]}] [Set] of [$.arr.x] to [5] succeeds by writing [x]
    in every element, and the lookup then returns a fresh list holding
    [5], not [5]. *)
Lemma Set_round_trip_fails_on_existing_containers :
  let h := [CMap {["a" := VSlice 1 0 2]}; CArray [VInt 1; VInt 2]] in
  let g := [CMap {["arr" := VSlice 1 0 1]}; CArray [VMap 2];
            CMap {["x" := VInt 1]}] in
  let g' := [CMap {["arr" := VSlice 1 0 1]}; CArray [VMap 2];
             CMap {["x" := VInt 5]}; CArray [VInt 1]] in
  JsonPathLookup 1 (VMap 0) "$.a[0:1]" h = (Ok (VSlice 1 0 2), h)
  ∧ Set_ 1 (VMap 0) "$.a[0:1]" (VInt 5) h = (Err ErrSetNotSupported, h)
  ∧ Set_ 2 (VMap 0) "$.arr.x" (VInt 5) g = (Ok (), g')
  ∧ JsonPathLookup 2 (VMap 0) "$.arr.x" g'
    = (Ok (VSlice 4 0 1), g' ++ [CArray [VInt 5]])
  ∧ (JsonPathLookup 2 (VMap 0) "$.arr.x" g').1 ≠ Ok (VInt 5).
Proof. split_and!; [reflexivity .. | discriminate]. Qed.

(** ** Instances of the further properties *)

Ltac not_among :=
  let Hin := fresh "Hin" in
  intros Hin; apply list_elem_of_In in Hin; simpl in Hin; intuition lia.

(** The path [$.store....price]: a name, then a name after four dots. *)
Lemma Compile_path_of_names_witness :
  tokenize "$.store....price" = Ok ["$"; "store"; "*"; "price"]
  ∧ Compile "$.store....price"
    = Ok (MkCompiled "$.store....price"
            [Step KeyOp "store" ArgNil; Step OpScan "*" ArgNil;
             Step KeyOp "price" ArgNil]).
Proof.
  apply (Compile_path_of_names [Child "store"; Descend 2 "price"]).
  repeat constructor.
Defined.

(** The step of [$.radio['a.b']], printed and compiled again. *)
Lemma stepToPath_compiles_back_witness :
  Compile "$.radio['a.b']"
  = Ok (MkCompiled "$.radio['a.b']" [Step KeyOp "radio" (ArgStr "a.b")]).
Proof.
  apply (stepToPath_compiles_back (Step KeyOp "radio" (ArgStr "a.b")));
    [reflexivity | reflexivity | split; [discriminate | reflexivity]].
Defined.

(** The program of [$.a[0].b] and its tokens. *)
Lemma Compile_one_step_per_token_witness :
  ∃ root tokens,
    tokenize "$.a[0].b" = Ok (root :: tokens)
    ∧ (root = "$" ∨ root = "@")
    ∧ Forall2 (λ t s, parse_token t = Ok (s, None)) tokens
        [Step IndexOp "a" (ArgInts [0]); Step KeyOp "b" ArgNil]
    ∧ length [Step IndexOp "a" (ArgInts [0]); Step KeyOp "b" ArgNil] = length tokens.
Proof.
  apply (Compile_one_step_per_token "$.a[0].b"
           (MkCompiled "$.a[0].b" [Step IndexOp "a" (ArgInts [0]); Step KeyOp "b" ArgNil])).
  reflexivity.
Defined.

(** [$.a.b] on [{"a":{"b":1}}] is [$.a], then [b] from there. *)
Lemma Lookup_of_a_concatenation_witness :
  let h := [CMap {["a" := VMap 1]}; CMap {["b" := VInt 1]}] in
  Lookup 1 (MkCompiled "$.a.b" [Step KeyOp "a" ArgNil; Step KeyOp "b" ArgNil]) (VMap 0) h
  = (v ← Lookup 1 (MkCompiled "$.a" [Step KeyOp "a" ArgNil]) (VMap 0);
     lookup_steps 1 [Step KeyOp "b" ArgNil] (VMap 0) v) h.
Proof.
  intros h.
  apply (Lookup_of_a_concatenation 1 "$.a.b" "$.a" [Step KeyOp "a" ArgNil]
           [Step KeyOp "b" ArgNil] (VMap 0) h).
  repeat constructor. discriminate.
Defined.

(** The indices [2,0] and [0,5] on [[7,8,9]]. *)
Lemma several_indices_in_listed_order_witness :
  let h := [CArray [VInt 7; VInt 8; VInt 9]] in
  lookup_step 1 (VSlice 0 0 3) (Step IndexOp "" (ArgInts [2; 0])) (VSlice 0 0 3) h
  = (Ok (Continue (VSlice 1 0 2)), h ++ [CArray [VInt 9; VInt 7]])
  ∧ lookup_step 1 (VSlice 0 0 3) (Step IndexOp "" (ArgInts [0; 5])) (VSlice 0 0 3) h
    = (Err (ErrIndexOutOfRange 3 5), h).
Proof.
  intros h. split.
  - destruct (several_indices_in_listed_order 1 (VSlice 0 0 3) (VSlice 0 0 3)
                (VSlice 0 0 3) "" [2; 0] h h) as [Hok _]; [simpl; lia | reflexivity |].
    apply (Hok [VInt 9; VInt 7]). repeat constructor.
  - destruct (several_indices_in_listed_order 1 (VSlice 0 0 3) (VSlice 0 0 3)
                (VSlice 0 0 3) "" [0; 5] h h) as [_ Herr]; [simpl; lia | reflexivity |].
    apply (Herr [0] 5 [] [VInt 7]); [reflexivity | repeat constructor | reflexivity].
Defined.

(** The range [1:2] of the slice that starts at offset 1 of
    [[0,1,2,3,4,5]]. *)
Lemma range_is_a_window_on_the_array_witness :
  let h := [CArray [VInt 0; VInt 1; VInt 2; VInt 3; VInt 4; VInt 5]] in
  get_range (VSlice 0 1 4) (Some 1) (Some 2) = Ok (VSlice 0 2 2)
  ∧ elems h 0 2 2 = Some [VInt 2; VInt 3].
Proof.
  intros h.
  destruct (range_is_a_window_on_the_array 0 1 4 (Some 1) (Some 2) (VSlice 0 2 2)
              [VInt 1; VInt 2; VInt 3; VInt 4] h) as (_ & _ & _ & He);
    [reflexivity | reflexivity |].
  split; [reflexivity | exact He].
Defined.

(** The clause [@.isbn] over three books keeps a sublist of them; over
    the object [{"x":{"isbn":"1"},"y":{"isbn":"2"},"z":3}], with its keys
    listed from the last to the first, it keeps some of its values. *)
Lemma filter_keeps_a_sublist_witness :
  let h := [CArray [VMap 1; VMap 2; VMap 3];
            CMap {["isbn" := VStr "0-553"]}; CMap {["title" := VStr "t"]};
            CMap {["isbn" := VNull]}] in
  let m : gmap string value := {["x" := VMap 1; "y" := VMap 2; "z" := VInt 3]} in
  let g := [CMap m; CMap {["isbn" := VStr "1"]}; CMap {["isbn" := VStr "2"]}] in
  (∃ rs h1, VSlice 4 0 1 = VSlice (length h1) 0 (length rs)
            ∧ h ++ [CArray [VMap 1]] = h1 ++ [CArray rs]
            ∧ h `prefix_of` h1 ∧ rs `sublist_of` [VMap 1; VMap 2; VMap 3])
  ∧ (∃ rs h1, VSlice 3 0 2 = VSlice (length h1) 0 (length rs)
              ∧ g ++ [CArray [VMap 1; VMap 2]] = h1 ++ [CArray rs]
              ∧ g `prefix_of` h1 ∧ rs ⊆+ (map_to_list m).*2).
Proof.
  intros h m g. split.
  - apply (proj1 (@filter_keeps_a_sublist example_libs 1 (VMap 1) (VSlice 4 0 1)
                    "@.isbn" h (h ++ [CArray [VMap 1]])) 0%nat 0%nat 3%nat);
      reflexivity.
  - apply (proj2 (@filter_keeps_a_sublist reversed_libs 1 (VMap 0) (VSlice 3 0 2)
                    "@.isbn" g (g ++ [CArray [VMap 1; VMap 2]])) 0%nat m);
      reflexivity.
Defined.

(** Two clauses of the package's tests. *)
Lemma parse_filter_three_parts_witness :
  parse_filter "@.price < 10" = Ok ("@.price", "<", "10")
  ∧ parse_filter "@.author == 'Nigel Rees'" = Ok ("@.author", "==", "Nigel Rees").
Proof.
  split.
  - destruct (parse_filter_three_parts "@.price" "<" "10") as [Hplain _];
      [reflexivity..|]. apply Hplain; [reflexivity | discriminate].
  - destruct (parse_filter_three_parts "@.author" "==" "Nigel Rees") as [_ Hquoted];
      [reflexivity..|]. apply Hquoted. reflexivity.
Defined.

(** The rules [/ab/], [/.*REES/i] and [//]. *)
Lemma regFilterCompile_wants_slashes_witness :
  regFilterCompile "/ab/" = Ok "ab"
  ∧ regFilterCompile "/.*REES/i" = Err ErrRuleSyntax
  ∧ regFilterCompile "//" = Err ErrEmptyRule.
Proof.
  destruct (regFilterCompile_wants_slashes "ab" "/.*REES/" "//" "i")
    as (Hok & Hflag & Hempty).
  split_and!.
  - apply Hok; [reflexivity | discriminate].
  - apply Hflag; [reflexivity | discriminate | simpl; lia].
  - apply Hempty; [reflexivity | simpl; lia].
Defined.

(** The path [$.store[($.main)]] of the package's tests. *)
Lemma script_step_is_an_indirection_witness :
  let h := [CMap {["store" := VMap 1; "main" := VStr "bicycle"]};
            CMap {["bicycle" := VMap 2]}; CMap {["color" := VStr "red"]}] in
  Compile "$.store[($.main)]"
  = Ok (MkCompiled "$.store[($.main)]" [Step ExpressionOp "store" (ArgStr "$.main")])
  ∧ JsonPathLookup 1 (VMap 0) "$.store[($.main)]" h = (Ok (VMap 2), h).
Proof.
  intros h.
  destruct (script_step_is_an_indirection "store" "main") as [Hc Hrun];
    [reflexivity..|].
  split; [exact Hc|].
  destruct (Hrun 0%nat 0%nat {["store" := VMap 1; "main" := VStr "bicycle"]} (VMap 1) h)
    as (Hstr & _); [reflexivity..|].
  exact (Hstr "bicycle" eq_refl).
Defined.

(** The pattern [/Rees/] on the authors of two books, and on a book without
    author. *)
Lemma pattern_filter_is_strict_witness :
  let h := [CArray [VMap 1; VMap 2]; CMap {["author" := VStr "Rees"]};
            CMap {["author" := VStr "Waugh"]}] in
  let g := [CArray [VMap 1; VMap 2]; CMap {["author" := VStr "Rees"]};
            CMap {["title" := VStr "t"]}] in
  get_filtered 1 (VSlice 0 0 2) (VMap 1) "@.author =~ /Rees/" h
  = (Ok (VSlice 3 0 1), h ++ [CArray [VMap 1]])
  ∧ get_filtered 1 (VSlice 0 0 2) (VMap 1) "@.author =~ /Rees/" g
    = (Err (NotExist "author"), g).
Proof.
  intros h g. split.
  - destruct (@pattern_filter_is_strict example_libs 1 (VMap 1) "@.author =~ /Rees/" "@.author"
                "/Rees/" "Rees" 0 0 2 [VMap 1; VMap 2] h) as [Hall _];
      [reflexivity..|].
    apply (Hall ["Rees"; "Waugh"]). repeat constructor.
  - destruct (@pattern_filter_is_strict example_libs 1 (VMap 1) "@.author =~ /Rees/" "@.author"
                "/Rees/" "Rees" 0 0 2 [VMap 1; VMap 2] g) as [_ Hstop];
      [reflexivity..|].
    destruct (Hstop [VMap 1] (VMap 2) [] ["Rees"]) as [Herr _];
      [reflexivity | repeat constructor |].
    apply Herr. reflexivity.
Defined.

(** [Del] of [$.user.firstname], then the lookup of the same path. *)
Lemma Del_then_Lookup_witness :
  let h := [CMap {["user" := VMap 1]};
            CMap {["firstname" := VStr "seth"; "lastname" := VStr "rogen"]}] in
  let h' := [CMap {["user" := VMap 1]}; CMap {["lastname" := VStr "rogen"]}] in
  Del 1 (VMap 0) "$.user.firstname" h = (Ok None, h')
  ∧ JsonPathLookup 1 (VMap 0) "$.user.firstname" h' = (Err (NotExist "firstname"), h').
Proof.
  intros h h'.
  destruct (Del_then_Lookup 0 "$.user.firstname"
              (MkCompiled "$.user.firstname"
                 [Step KeyOp "user" ArgNil; Step KeyOp "firstname" ArgNil])
              [Step KeyOp "user" ArgNil] "firstname" (VMap 0) (VStr "seth") 1
              {["firstname" := VStr "seth"; "lastname" := VStr "rogen"]} [0%nat] h)
    as [Hdel Hlookup]; try reflexivity; [not_among|].
  split; [exact Hdel | exact Hlookup].
Defined.

(** [Del] of a key that is not there. *)
Lemma Del_of_a_missing_key_witness :
  let h := [CMap {["user" := VMap 1]}; CMap {["firstname" := VStr "seth"]}] in
  Del 1 (VMap 0) "$.user.age" h = (Err (NotExist "age"), h).
Proof.
  intros h.
  apply (Del_of_a_missing_key 0 "$.user.age"
           (MkCompiled "$.user.age" [Step KeyOp "user" ArgNil; Step KeyOp "age" ArgNil])
           [Step KeyOp "user" ArgNil] "age" (VMap 0) 1
           {["firstname" := VStr "seth"]} [0%nat] h);
    reflexivity.
Defined.

(** The package's test of [Del] on a slice: [$.slice[0]] of
    [{"slice":[1,2,3],"other":2}]. *)
Lemma Del_of_an_array_element_witness :
  let m : gmap string value := {["slice" := VSlice 1 0 3; "other" := VInt 2]} in
  let h := [CMap m; CArray [VInt 1; VInt 2; VInt 3]] in
  let h' := [CMap (<["slice" := VSlice 1 0 2]> m); CArray [VInt 2; VInt 3; VInt 3]] in
  Del 1 (VMap 0) "$.slice[0]" h = (Ok None, h')
  ∧ Lookup 1 (MkCompiled "$.slice" [Step KeyOp "slice" ArgNil]) (VMap 0) h'
    = (Ok (VSlice 1 0 2), h')
  ∧ elems h' 1 0 2 = Some [VInt 2; VInt 3]
  ∧ elems h' 1 0 3 = Some [VInt 2; VInt 3; VInt 3].
Proof.
  intros m h h'.
  apply (Del_of_an_array_element 0 "$.slice[0]" "$.slice"
           (MkCompiled "$.slice[0]" [Step IndexOp "slice" (ArgInts [0])])
           (MkCompiled "$.slice" [Step KeyOp "slice" ArgNil])
           [] "slice" 0 7 (VMap 0) 0 1 m 0 3 [VInt 1; VInt 2; VInt 3] [] h);
    try reflexivity; try discriminate; try not_among; simpl; lia.
Defined.

(** [Set] and [Del] on the range step of [$.a[0:1]]. *)
Lemma writers_refuse_scan_and_range_witness :
  let h := [CMap {["a" := VSlice 1 0 2]}; CArray [VInt 1; VInt 2]] in
  Set_ 1 (VMap 0) "$.a[0:1]" (VInt 5) h = (Err ErrSetNotSupported, h)
  ∧ Del 1 (VMap 0) "$.a[0:1]" h = (Ok (Some (ErrDelNotSupported RangeOp)), h).
Proof.
  intros h.
  destruct (writers_refuse_scan_and_range 0 "$.a[0:1]"
              (MkCompiled "$.a[0:1]" [Step RangeOp "a" (ArgRange (Some 0) (Some 1))])
              [] [] (Step RangeOp "a" (ArgRange (Some 0) (Some 1)))
              (VMap 0) (VInt 5) (VMap 0) [] h) as [Hset Hdel];
    try reflexivity; try discriminate.
  split; [apply Hset; by right | apply Hdel; discriminate].
Defined.

(** The path [$.not.correct] of the package's test of [Set]. *)
Lemma absent_key_on_the_way_witness :
  let h := [CMap {["age" := VInt 35]}] in
  JsonPathLookup 1 (VMap 0) "$.not.correct" h = (Err (NotExist "not"), h)
  ∧ Del 1 (VMap 0) "$.not.correct" h = (Err (NotExist "not"), h)
  ∧ Set_ 1 (VMap 0) "$.not.correct" (VInt 1) h
    = (Err (ErrIncorrectSetPath "$.not.correct"), h).
Proof.
  intros h.
  destruct (absent_key_on_the_way 0 "$.not.correct"
              (MkCompiled "$.not.correct"
                 [Step KeyOp "not" ArgNil; Step KeyOp "correct" ArgNil])
              [] [Step KeyOp "correct" ArgNil] "not" (VMap 0) (VInt 1) (VMap 0)
              (NotExist "not") [] h) as (Hlookup & Hdel & Hset);
    try reflexivity; try discriminate.
  { right. exists 0%nat, {["age" := VInt 35]}. split_and!; reflexivity. }
  split_and!; [exact Hlookup | exact Hdel | apply Hset; discriminate].
Defined.

(** The index [-1] on [{"a":[1,2]}]. *)
Lemma writers_panic_on_a_negative_index_witness :
  let h := [CMap {["a" := VSlice 1 0 2]}; CArray [VInt 1; VInt 2]] in
  JsonPathLookup 1 (VMap 0) "$.a[-1]" h = (Ok (VInt 2), h)
  ∧ Set_ 1 (VMap 0) "$.a[-1]" (VInt 5) h = (Panic, h)
  ∧ Del 1 (VMap 0) "$.a[-1]" h = (Panic, h).
Proof.
  intros h.
  apply (writers_panic_on_a_negative_index 0 "$.a[-1]"
           (MkCompiled "$.a[-1]" [Step IndexOp "a" (ArgInts [-1])])
           [] "a" (-1) (VMap 0) (VInt 5) (VMap 0) (VInt 2) 1 0 2 [VInt 1; VInt 2]
           [] [0%nat] h);
    try reflexivity; try discriminate. simpl; lia.
Defined.

(** [nil] as the root and as the value. *)
Lemma writers_panic_on_nil_witness :
  let h := [CMap {["a" := VInt 1]}] in
  Set_ 1 VNull "$.a" (VInt 5) h = (Panic, h)
  ∧ Set_ 1 (VMap 0) "$.a" VNull h = (Panic, h)
  ∧ Del 0 VNull "$.a" h = (Panic, h).
Proof.
  intros h.
  destruct (writers_panic_on_nil 0 "$.a" (MkCompiled "$.a" [Step KeyOp "a" ArgNil])
              (VMap 0) (VInt 5) h) as (Hroot & Hval & Hdel); [reflexivity|].
  split_and!; [exact Hroot | | exact Hdel].
  destruct (writers_panic_on_nil 0 "$.a" (MkCompiled "$.a" [Step KeyOp "a" ArgNil])
              (VMap 0) VNull h) as (_ & Hval' & _); [reflexivity|].
  apply Hval'. discriminate.
Defined.

(** [Set] of [$.x.y] on [{"x":{"y":1,"z":2},"w":3}]: the neighbours [$.w]
    and [$.x.z] afterwards. *)
Lemma Set_leaves_other_paths_witness :
  let h := [CMap {["x" := VMap 1; "w" := VInt 3]};
            CMap {["y" := VInt 1; "z" := VInt 2]}] in
  ∃ h', Set_ 1 (VMap 0) "$.x.y" (VInt 5) h = (Ok (), h')
    ∧ Lookup 1 (MkCompiled "$.w" [Step KeyOp "w" ArgNil]) (VMap 0) h' = (Ok (VInt 3), h')
    ∧ Lookup 1 (MkCompiled "$.x.z" [Step KeyOp "x" ArgNil; Step KeyOp "z" ArgNil])
        (VMap 0) h' = (Ok (VInt 2), h').
Proof.
  intros h.
  destruct (Set_leaves_other_paths 0 "$.x.y"
              (MkCompiled "$.x.y" [Step KeyOp "x" ArgNil; Step KeyOp "y" ArgNil])
              [Step KeyOp "x" ArgNil] (Step KeyOp "y" ArgNil)
              (VMap 0) (VInt 5) (VMap 1) (TKey 1 "y") [0%nat] [] h)
    as (h' & Hset & Hother & Hsibling);
    try reflexivity; try discriminate.
  exists h'. split_and!; [exact Hset | |].
  - apply (Hother "$.w" [Step KeyOp "w" ArgNil] (VInt 3) [0%nat]); [reflexivity|].
    not_among.
  - refine (Hsibling "$.x.z" 1%nat "y" "z" {["y" := VInt 1; "z" := VInt 2]}
              eq_refl _ _ eq_refl); [discriminate | not_among].
Defined.

(** The package's test of [Set] with quoted subkeys: [$.radio['a']] on
    [{"t":1}], then [$.radio['b']]. *)
Lemma Set_creates_a_quoted_subkey_witness :
  let h := [CMap {["t" := VInt 1]}] in
  let h1 := [CMap (<["radio" := VMap 1]> {["t" := VInt 1]}); CMap {["a" := VInt 3]}] in
  let h2 := [CMap (<["radio" := VMap 1]> {["t" := VInt 1]});
             CMap (<["b" := VInt 1]> {["a" := VInt 3]}); CMap {["b" := VInt 1]}] in
  (Set_ 1 (VMap 0) "$.radio['a']" (VInt 3) h = (Ok (), h1)
   ∧ JsonPathLookup 1 (VMap 0) "$.radio['a']" h1 = (Ok (VInt 3), h1))
  ∧ (Set_ 1 (VMap 0) "$.radio['b']" (VInt 1) h1 = (Ok (), h2)
     ∧ JsonPathLookup 1 (VMap 0) "$.radio['b']" h2 = (Ok (VInt 1), h2)).
Proof.
  intros h h1 h2. split.
  - destruct (Set_creates_a_quoted_subkey 0 "$.radio['a']"
                (MkCompiled "$.radio['a']" [Step KeyOp "radio" (ArgStr "a")])
                [] "radio" "a" (VMap 0) (VInt 3) 0 {["t" := VInt 1]} [] h)
      as [Hnew _]; try reflexivity; try discriminate; try not_among.
    apply Hnew. reflexivity.
  - destruct (Set_creates_a_quoted_subkey 0 "$.radio['b']"
                (MkCompiled "$.radio['b']" [Step KeyOp "radio" (ArgStr "b")])
                [] "radio" "b" (VMap 0) (VInt 1) 0
                (<["radio" := VMap 1]> {["t" := VInt 1]}) [] h1)
      as [_ Hadd]; try reflexivity; try discriminate; try not_among.
    apply (Hadd 1%nat {["a" := VInt 3]});
      try reflexivity; try discriminate; try not_among; lia.
Defined.

(** [Set] of [$.radio['a']] when [a] is there already: the value under
    [a] stays. *)
Lemma Set_misses_an_existing_quoted_subkey_witness :
  let h := [CMap {["radio" := VMap 1]}; CMap {["a" := VInt 3]}] in
  let h' := [CMap {["radio" := VMap 1]};
             CMap (<["radio" := VMap 2]> {["a" := VInt 3]}); CMap {["a" := VInt 4]}] in
  Set_ 1 (VMap 0) "$.radio['a']" (VInt 4) h = (Ok (), h')
  ∧ JsonPathLookup 1 (VMap 0) "$.radio['a']" h' = (Ok (VInt 3), h').
Proof.
  intros h h'.
  apply (Set_misses_an_existing_quoted_subkey 0 "$.radio['a']"
           (MkCompiled "$.radio['a']" [Step KeyOp "radio" (ArgStr "a")])
           [] "radio" "a" (VMap 0) (VInt 4) (VInt 3) 0 1
           {["radio" := VMap 1]} {["a" := VInt 3]} [] h);
    try reflexivity; try discriminate; try not_among; lia.
Defined.

(** [Set] of [$.arr.x] on [{"arr":[{"x":1},{"y":2}]}]: [x] is written in
    both elements. *)
Lemma Set_broadcasts_over_objects_witness :
  let h := [CMap {["arr" := VSlice 1 0 2]}; CArray [VMap 2; VMap 3];
            CMap {["x" := VInt 1]}; CMap {["y" := VInt 2]}] in
  ∃ h', Set_ 2 (VMap 0) "$.arr.x" (VInt 5) h = (Ok (), h')
    ∧ map_at h' 2 = Some {["x" := VInt 5]}
    ∧ map_at h' 3 = Some (<["x" := VInt 5]> {["y" := VInt 2]})
    ∧ h' !! 0%nat = h !! 0%nat
    ∧ JsonPathLookup 2 (VMap 0) "$.arr.x" h'
      = (Ok (VSlice (length h') 0 2), h' ++ [CArray [VInt 5; VInt 5]]).
Proof.
  intros h.
  destruct (Set_broadcasts_over_objects 0 "$.arr.x"
              (MkCompiled "$.arr.x" [Step KeyOp "arr" ArgNil; Step KeyOp "x" ArgNil])
              [Step KeyOp "arr" ArgNil] "x" (VMap 0) (VInt 5) 1 0 2 [2%nat; 3%nat]
              [0%nat] h) as (h' & Hset & Hmaps & Hframe & Hlookup);
    try reflexivity; try discriminate.
  { repeat constructor; by eexists. }
  exists h'. split_and!.
  - exact Hset.
  - rewrite (Hmaps 2%nat {["x" := VInt 1]}); [reflexivity | | reflexivity].
    apply list_elem_of_In. simpl. lia.
  - apply (Hmaps 3%nat); [|reflexivity]. apply list_elem_of_In. simpl. lia.
  - apply Hframe; [simpl; lia | not_among].
  - apply Hlookup; [discriminate|]. repeat constructor; not_among.
Defined.

(** ** The tests of the package, on the model *)

(** Cases of the package's test file, evaluated: the tokenizer, the filter
    parser, [get_idx], [get_range], and [Set] with and without quoted
    subkeys. *)

Example Test_jsonpath_tokenize :
  tokenize <$> ["$..author"; "$.store.*"; "$.store..price"; "$.store.book[*].author";
                "$..book[(@.length-1)]"; "$..book[?(@.price <= $.expensive)]";
                "$..book[?(@.author =~ /.*REES\]/i)]"; "$..*"; "$....author"]
  = Ok <$> [["$"; "*"; "author"]; ["$"; "store"; "*"]; ["$"; "store"; "*"; "price"];
            ["$"; "store"; "book[*]"; "author"];
            ["$"; "*"; "book[(@.length-1)]"]; ["$"; "*"; "book[?(@.price <= $.expensive)]"];
            ["$"; "*"; "book[?(@.author =~ /.*REES\]/i)]"]; ["$"; "*"]; ["$"; "*"; "author"]].
Proof. reflexivity. Qed.

(** [strings.TrimSpace] on the white space of Unicode: the no-break
    space U+00A0 and the em space U+2003 go like the blank and the tab; a
    byte [A0] that continues no rune stays. *)
Example TrimSpace_white_space :
  let nbsp := String "194" (String "160" "") in
  let emsp := String "226" (String "128" (String "131" "")) in
  GoStr.TrimSpace (" " +:+ nbsp +:+ "@.a b" +:+ emsp +:+ nbsp +:+ String "009" "")
  = "@.a b"
  ∧ GoStr.TrimSpace ("@.x == 1 2" +:+ nbsp) = "@.x == 1 2"
  ∧ GoStr.TrimSpace (String "160" "") = String "160" "".
Proof. split_and!; reflexivity. Qed.

Example Test_jsonpath_parse_filter :
  parse_filter <$> ["@.isbn"; "@.price < 10"; "@.price <= $.expensive";
                    "@.author =~ /.*REES/i"; "@.author == 'Nigel Rees'"]
  = Ok <$> [("@.isbn", "exists", ""); ("@.price", "<", "10");
            ("@.price", "<=", "$.expensive"); ("@.author", "=~", "/.*REES/i");
            ("@.author", "==", "Nigel Rees")].
Proof. reflexivity. Qed.

Example Test_jsonpath_get_idx :
  let h := [CArray [VInt 1; VInt 2; VInt 3; VInt 4]] in
  get_idx h (VSlice 0 0 4) <$> [0; 2; 4; -1; -4; -5]
  = [Ok (VInt 1); Ok (VInt 3); Err (ErrIndexOutOfRange 4 4); Ok (VInt 4);
     Ok (VInt 1); Err (ErrIndexOutOfRange 4 (-5))]
  ∧ get_idx h (VInt 1) 1 = Err ErrNotSlice.
Proof. split; reflexivity. Qed.

Example Test_jsonpath_get_range :
  get_range (VSlice 0 0 5) (Some 0) (Some 2) = Ok (VSlice 0 0 3)
  ∧ get_range (VSlice 0 0 5) (Some 3) (Some (-1)) = Ok (VSlice 0 3 2)
  ∧ get_range (VSlice 0 0 5) None (Some 2) = Ok (VSlice 0 0 3)
  ∧ get_range (VSlice 0 0 5) None None = Ok (VSlice 0 0 5)
  ∧ get_range (VSlice 0 0 5) (Some (-2)) None = Ok (VSlice 0 3 2)
  ∧ get_range (VInt 2) (Some 0) (Some 1) = Err ErrNotSlice.
Proof. split_and!; reflexivity. Qed.

Example Test_SetWithQuotes :
  let h := [CMap {["t" := VInt 1]}] in
  let h1 := [CMap (<["radio" := VMap 1]> {["t" := VInt 1]}); CMap {["a" := VInt 3]}] in
  let h2 := [CMap (<["radio" := VMap 1]> {["t" := VInt 1]});
             CMap (<["b" := VInt 1]> {["a" := VInt 3]}); CMap {["b" := VInt 1]}] in
  Set_ 1 (VMap 0) "$.radio['a']" (VInt 3) h = (Ok (), h1)
  ∧ Set_ 1 (VMap 0) "$.radio['b']" (VInt 1) h1 = (Ok (), h2)
  ∧ JsonPathLookup 1 (VMap 0) "$.radio['a']" h2 = (Ok (VInt 3), h2)
  ∧ JsonPathLookup 1 (VMap 0) "$.radio['b']" h2 = (Ok (VInt 1), h2).
Proof. split_and!; reflexivity. Qed.

Example Test_Set :
  let h := [CMap {["filmography" := VMap 1]}; CMap {["movies" := VSlice 2 0 3]};
            CArray [VStr "This Is The End"; VStr "Superbad"; VStr "Neighbors"]] in
  let h' := [CMap {["filmography" := VMap 1]}; CMap {["movies" := VSlice 2 0 3]};
             CArray [VStr "This Is The End"; VStr "Superbad"; VStr "The Disaster Artist"]] in
  Set_ 1 (VMap 0) "$.filmography.movies[2]" (VStr "The Disaster Artist") h = (Ok (), h')
  ∧ (Set_ 1 (VMap 0) "$.not.correct" (VInt 1) h).1 = Err (ErrIncorrectSetPath "$.not.correct").
Proof. split_and!; reflexivity. Qed.

(** The package's test of [Del], on an object. *)
Example Test_Del :
  let h := [CMap {["user" := VMap 1; "age" := VInt 35; "filmography" := VMap 2]};
            CMap {["firstname" := VStr "seth"; "lastname" := VStr "rogen"]};
            CMap {["uid" := VInt 1; "movies" := VSlice 3 0 3]};
            CArray [VStr "This Is The End"; VStr "Superbad"; VStr "Neighbors"]] in
  let h1 := <[0%nat := CMap {["age" := VInt 35; "filmography" := VMap 2]}]> h in
  let h2 := <[0%nat := CMap {["filmography" := VMap 2]}]> h in
  let h3 := <[2%nat := CMap {["movies" := VSlice 3 0 3]}]> h2 in
  let h4 := <[2%nat := CMap ∅]> h2 in
  Del 1 (VMap 0) "$.user" h = (Ok None, h1)
  ∧ Del 1 (VMap 0) "$.age" h1 = (Ok None, h2)
  ∧ Del 1 (VMap 0) "$.filmography['uid']" h2 = (Ok None, h3)
  ∧ Del 1 (VMap 0) "$.filmography.movies" h3 = (Ok None, h4).
Proof. split_and!; reflexivity. Qed.
